(** * Local-Network-Music-Player: metadata store and playlist controller

    A shallow embedding of [server/storage.ts] (class [FileStorage]), of
    [client/src/lib/audioPlayer.ts] (class [AudioPlayer]) and of the
    [useMusicPlayer] hook, with the properties of the specification
    stated and proved about them.

    Conventions of the embedding.
    - A JavaScript [number] holding an id, a counter, an index or a
      [Date.now()] stamp is an integer of [Z]; this is exact below 2^53.
      Playback times in seconds are rationals of [Q].
    - A [Map<number, Song>] is an association list in insertion order,
      since [Array.from(map.values())] exposes that order.
    - The disk is an explicit value: the set of paths for which
      [existsSync] answers true, the paths on which [fs.unlink] rejects,
      the content of the sidecar file and whether [fs.writeFile]
      succeeds on it. [JSON.parse] after [JSON.stringify] is the
      identity on the data written by [saveMetadata].
    - [Math.random] is an oracle passed to the shuffle.
    - Calls on the [audioPlayer] singleton made by the hook's handlers
      are recorded, in order, in a log carried by the hook's state.
    - A handler of the hook reads the state of the latest render, and
      the effect on [songs] runs as one step with the arrival of the new
      list. The two effects that load a source into the audio element
      and pause it write no cell and no ref of the hook; they are left
      out. *)

From Stdlib Require Import ZArith QArith String List Lia Permutation Sorted.
From stdpp Require Import base list strings.

Local Open Scope Z_scope.

(** ** shared/schema.ts *)

(** [Song = typeof songs.$inferSelect]: [artist] and [duration] are
    nullable columns. *)
Record Song := mkSong {
  id : Z;
  title : string;
  artist : option string;
  duration : option Z;
  format : string;
  path : string;
  filename : string
}.

(** [InsertSong]: the picked columns; [artist] and [duration] optional. *)
Record InsertSong := mkInsertSong {
  ins_title : string;
  ins_artist : option string;
  ins_duration : option Z;
  ins_format : string;
  ins_path : string;
  ins_filename : string
}.

(** [RenameSongInput]: [artist] is [z.string().optional()]. *)
Record RenameSongInput := mkRenameSongInput {
  rn_id : Z;
  rn_title : string;
  rn_artist : option string
}.

Record DeleteSongInput := mkDeleteSongInput { del_id : Z }.

Global Instance Song_eq_dec : EqDecision Song.
Proof. solve_decision. Defined.

(** JavaScript [a || b] on a possibly absent string: the empty string,
    [null] and [undefined] are falsy. *)
Definition truthy_string (a : option string) : bool :=
  match a with
  | Some s => negb (String.eqb s "")
  | None => false
  end.

Definition or_string (a b : option string) : option string :=
  if truthy_string a then a else b.

(** [a || 0] on a possibly absent number: [0] is falsy. *)
Definition or_zero (a : option Z) : Z :=
  match a with
  | Some n => if n =? 0 then 0 else n
  | None => 0
  end.

(** ** server/storage.ts *)

Module Storage.

(** *** [Map<number, Song>] in insertion order *)

Abbreviation SongMap := (list (Z * Song)).

Fixpoint map_get (k : Z) (m : SongMap) : option Song :=
  match m with
  | [] => None
  | (k', v) :: m' => if k =? k' then Some v else map_get k m'
  end.

(** [Map.prototype.set]: an existing key keeps its place, a new key is
    appended. *)
Fixpoint map_set (k : Z) (v : Song) (m : SongMap) : SongMap :=
  match m with
  | [] => [(k, v)]
  | (k', v') :: m' =>
      if k =? k' then (k, v) :: m' else (k', v') :: map_set k v m'
  end.

Definition map_has (k : Z) (m : SongMap) : bool :=
  match map_get k m with Some _ => true | None => false end.

(** [Map.prototype.delete] returns whether the key was present. *)
Definition map_delete (k : Z) (m : SongMap) : bool * SongMap :=
  (map_has k m, filter (fun e => negb (k =? fst e)) m).

Definition map_values (m : SongMap) : list Song := map snd m.

Definition map_keys (m : SongMap) : list Z := map fst m.

(** *** The disk *)

Inductive Sidecar :=
| NoFile
| Corrupt
| Saved (saved_songs : list Song) (nextId : Z).

Record Disk := mkDisk {
  files : list string;
  undeletable : list string;
  metadata : Sidecar;
  writable : bool
}.

Definition existsSync (d : Disk) (p : string) : bool :=
  bool_decide (p ∈ files d).

(** [fs.unlink]: rejects on a protected path, removes the file
    otherwise. *)
Definition unlink (p : string) (d : Disk) : option Disk :=
  if bool_decide (p ∈ undeletable d) then None
  else Some (mkDisk (filter (fun q => q ≠ p) (files d))
                    (undeletable d) (metadata d) (writable d)).

Definition writeFile (c : Sidecar) (d : Disk) : option Disk :=
  if writable d then Some (mkDisk (files d) (undeletable d) c (writable d))
  else None.

(** *** The store *)

Record FileStorage := mkFileStorage {
  songs : SongMap;
  currentId : Z
}.

Definition World : Type := FileStorage * Disk.

(** The constructor's field initialisers. *)
Definition new_storage : FileStorage := mkFileStorage [] 1.

Definition restore (d : Disk) (m : SongMap) (song : Song) : SongMap :=
  if existsSync d (path song) then map_set (id song) song m else m.

Definition loadSavedMetadata (w : World) : FileStorage :=
  let (st, d) := w in
  match metadata d with
  | NoFile => st
  | Corrupt => mkFileStorage [] 1
  | Saved l n => mkFileStorage (fold_left (restore d) l []) n
  end.

(** A write failure is caught and logged: the disk is left as it was. *)
Definition saveMetadata (st : FileStorage) (d : Disk) : Disk :=
  match writeFile (Saved (map_values (songs st)) (currentId st)) d with
  | Some d' => d'
  | None => d
  end.

Definition getAllSongs (st : FileStorage) : list Song :=
  map_values (songs st).

Definition getSong (k : Z) (st : FileStorage) : option Song :=
  map_get k (songs st).

Definition createSong (insertSong : InsertSong) (w : World) : Song * World :=
  let (st, d) := w in
  let i := currentId st in
  let song := mkSong i (ins_title insertSong)
                (or_string (ins_artist insertSong) (Some "Unknown"))
                (Some (or_zero (ins_duration insertSong)))
                (ins_format insertSong) (ins_path insertSong)
                (ins_filename insertSong) in
  let st' := mkFileStorage (map_set i song (songs st)) (i + 1) in
  (song, (st', saveMetadata st' d)).

Definition renameSong (input : RenameSongInput) (w : World)
  : option Song * World :=
  let (st, d) := w in
  match map_get (rn_id input) (songs st) with
  | None => (None, w)
  | Some song =>
      let updatedSong :=
        mkSong (id song) (rn_title input)
               (or_string (rn_artist input) (artist song))
               (duration song) (format song) (path song) (filename song) in
      let st' := mkFileStorage (map_set (rn_id input) updatedSong (songs st))
                               (currentId st) in
      (Some updatedSong, (st', saveMetadata st' d))
  end.

Definition deleteSong (input : DeleteSongInput) (w : World) : bool * World :=
  let (st, d) := w in
  match map_get (del_id input) (songs st) with
  | None => (false, w)
  | Some song =>
      match (if existsSync d (path song) then unlink (path song) d
             else Some d) with
      | None => (false, w)
      | Some d1 =>
          let (result, m') := map_delete (del_id input) (songs st) in
          let st' := mkFileStorage m' (currentId st) in
          (result, (st', saveMetadata st' d1))
      end
  end.

(** [new FileStorage()] followed by [init]: a fresh store loaded from
    the disk as it is. *)
Definition boot (d : Disk) : World := (loadSavedMetadata (new_storage, d), d).

(** *** Histories of a store

    What can happen to a store and its disk: the three mutating
    operations, a restart of the server (a new [FileStorage] over the
    same disk), and the removal of a file by someone else. *)
Inductive Op :=
| Create (insertSong : InsertSong)
| Rename (input : RenameSongInput)
| Delete (input : DeleteSongInput)
| Restart
| RemovedOutside (p : string).

Definition removeOutside (p : string) (d : Disk) : Disk :=
  mkDisk (filter (fun q => q ≠ p) (files d)) (undeletable d) (metadata d)
         (writable d).

(** One operation; the ids it issued, if any. *)
Definition apply (w : World) (o : Op) : list Z * World :=
  match o with
  | Create insertSong =>
      let (song, w') := createSong insertSong w in ([id song], w')
  | Rename input => ([], snd (renameSong input w))
  | Delete input => ([], snd (deleteSong input w))
  | Restart => ([], boot (snd w))
  | RemovedOutside p => ([], (fst w, removeOutside p (snd w)))
  end.

(** A history; the ids issued along it, oldest first. *)
Fixpoint history (ops : list Op) (w : World) : list Z * World :=
  match ops with
  | [] => ([], w)
  | o :: ops' =>
      let (issued, w') := apply w o in
      let (later, w'') := history ops' w' in
      (issued ++ later, w'')
  end.

(** Every key of the map is the id of its record, and no key occurs
    twice. *)
Definition keyed (m : SongMap) : Prop :=
  Forall (fun e => fst e = id (snd e)) m /\ NoDup (map_keys m).

Definition reachable (w : World) : Prop :=
  exists d ops, w = snd (history ops (boot d)).

(** The backing file of an entry is on the disk. *)
Definition on_disk (d : Disk) (e : Z * Song) : Prop :=
  existsSync d (path (snd e)) = true.

Global Instance on_disk_dec d e : Decision (on_disk d e).
Proof. unfold on_disk. apply _. Defined.

(** The counter a store started on this disk would begin with. *)
Definition counter_on_disk (d : Disk) : Z := currentId (fst (boot d)).

(** The sidecar agrees with the store on the counter, and can be
    written. *)
Definition counter_saved (w : World) : Prop :=
  writable (snd w) = true /\ counter_on_disk (snd w) = currentId (fst w).

End Storage.

(** ** client/src/lib/audioPlayer.ts *)

Module AudioPlayer.

(** The part of the [HTMLAudioElement] the class reads and writes; a
    [duration] of [None] is the element's [NaN]. *)
Record Audio := mkAudio {
  currentTime : Q;
  duration : option Q;
  paused : bool
}.

(** The methods the hook's handlers call on the singleton. *)
Inductive Call :=
| Play
| Pause
| Stop
| Seek (time : Q).

(** [play()], when the promise it returns resolves. *)
Definition play (a : Audio) : Audio :=
  mkAudio (currentTime a) (duration a) false.

Definition pause (a : Audio) : Audio :=
  mkAudio (currentTime a) (duration a) true.

Definition stop (a : Audio) : Audio :=
  mkAudio 0 (duration a) true.

(** [if (time >= 0 && time <= this.audio.duration)]: every comparison
    with [NaN] is false. *)
Definition seek (time : Q) (a : Audio) : Audio :=
  match duration a with
  | Some d =>
      if Qle_bool 0 time && Qle_bool time d
      then mkAudio time (duration a) (paused a)
      else a
  | None => a
  end.

Definition perform (c : Call) (a : Audio) : Audio :=
  match c with
  | Play => play a
  | Pause => pause a
  | Stop => stop a
  | Seek time => seek time a
  end.

End AudioPlayer.

(** ** The [useMusicPlayer] hook *)

Module Player.

Inductive RepeatMode := repeat_none | repeat_all | repeat_one.

(** The hook's [useState] cells, its refs, the [songs] argument of the
    latest render, and the calls made on [audioPlayer] so far. *)
Record State := mkState {
  songs : list Song;
  currentSong : option Song;
  isPlaying : bool;
  isShuffle : bool;
  repeatMode : RepeatMode;
  currentTime : Q;
  duration : Q;
  playlistRef : list Song;
  currentIndexRef : Z;
  shuffledPlaylistRef : list Song;
  lastEndedRef : option Z;
  audioCalls : list AudioPlayer.Call
}.

Definition initial : State :=
  mkState [] None false false repeat_none 0 0 [] (-1) [] None [].

Definition set_songs v s :=
  mkState v (currentSong s) (isPlaying s) (isShuffle s) (repeatMode s)
    (currentTime s) (duration s) (playlistRef s) (currentIndexRef s)
    (shuffledPlaylistRef s) (lastEndedRef s) (audioCalls s).
Definition setCurrentSong v s :=
  mkState (songs s) v (isPlaying s) (isShuffle s) (repeatMode s)
    (currentTime s) (duration s) (playlistRef s) (currentIndexRef s)
    (shuffledPlaylistRef s) (lastEndedRef s) (audioCalls s).
Definition setIsPlaying v s :=
  mkState (songs s) (currentSong s) v (isShuffle s) (repeatMode s)
    (currentTime s) (duration s) (playlistRef s) (currentIndexRef s)
    (shuffledPlaylistRef s) (lastEndedRef s) (audioCalls s).
Definition setIsShuffle v s :=
  mkState (songs s) (currentSong s) (isPlaying s) v (repeatMode s)
    (currentTime s) (duration s) (playlistRef s) (currentIndexRef s)
    (shuffledPlaylistRef s) (lastEndedRef s) (audioCalls s).
Definition setRepeatMode v s :=
  mkState (songs s) (currentSong s) (isPlaying s) (isShuffle s) v
    (currentTime s) (duration s) (playlistRef s) (currentIndexRef s)
    (shuffledPlaylistRef s) (lastEndedRef s) (audioCalls s).
Definition setCurrentTime v s :=
  mkState (songs s) (currentSong s) (isPlaying s) (isShuffle s) (repeatMode s)
    v (duration s) (playlistRef s) (currentIndexRef s)
    (shuffledPlaylistRef s) (lastEndedRef s) (audioCalls s).
Definition setDuration v s :=
  mkState (songs s) (currentSong s) (isPlaying s) (isShuffle s) (repeatMode s)
    (currentTime s) v (playlistRef s) (currentIndexRef s)
    (shuffledPlaylistRef s) (lastEndedRef s) (audioCalls s).
Definition set_playlistRef v s :=
  mkState (songs s) (currentSong s) (isPlaying s) (isShuffle s) (repeatMode s)
    (currentTime s) (duration s) v (currentIndexRef s)
    (shuffledPlaylistRef s) (lastEndedRef s) (audioCalls s).
Definition set_currentIndexRef v s :=
  mkState (songs s) (currentSong s) (isPlaying s) (isShuffle s) (repeatMode s)
    (currentTime s) (duration s) (playlistRef s) v
    (shuffledPlaylistRef s) (lastEndedRef s) (audioCalls s).
Definition set_shuffledPlaylistRef v s :=
  mkState (songs s) (currentSong s) (isPlaying s) (isShuffle s) (repeatMode s)
    (currentTime s) (duration s) (playlistRef s) (currentIndexRef s)
    v (lastEndedRef s) (audioCalls s).
Definition set_lastEndedRef v s :=
  mkState (songs s) (currentSong s) (isPlaying s) (isShuffle s) (repeatMode s)
    (currentTime s) (duration s) (playlistRef s) (currentIndexRef s)
    (shuffledPlaylistRef s) v (audioCalls s).

(** A call on the [audioPlayer] singleton. *)
Definition audio (c : AudioPlayer.Call) s :=
  mkState (songs s) (currentSong s) (isPlaying s) (isShuffle s) (repeatMode s)
    (currentTime s) (duration s) (playlistRef s) (currentIndexRef s)
    (shuffledPlaylistRef s) (lastEndedRef s) (audioCalls s ++ [c]).

(** [Array.prototype.findIndex] with the predicate [s => s.id === k]. *)
Definition findIndex (k : Z) (l : list Song) : Z :=
  match list_find (fun s => id s = k) l with
  | Some (i, _) => Z.of_nat i
  | None => -1
  end.

(** [[a[i], a[j]] = [a[j], a[i]]]. *)
Definition swap (i j : nat) (l : list Song) : list Song :=
  match l !! i, l !! j with
  | Some x, Some y => <[j:=x]> (<[i:=y]> l)
  | _, _ => l
  end.

(** The Fisher-Yates loop, [i] running down to 1; [random i] is the
    value drawn at iteration [i], brought into [0..i] as
    [Math.floor(Math.random() * (i + 1))] is. *)
Fixpoint fisher_yates (random : nat -> nat) (i : nat) (l : list Song)
  : list Song :=
  match i with
  | O => l
  | S i' => fisher_yates random i' (swap i (random i mod (i + 1))%nat l)
  end.

Definition updateShuffledPlaylist (random : nat -> nat) (s : State) : State :=
  let playlist := playlistRef s in
  set_shuffledPlaylistRef
    (fisher_yates random (length playlist - 1)%nat playlist) s.

Definition getCurrentPlaylist (s : State) : list Song :=
  if isShuffle s then shuffledPlaylistRef s else playlistRef s.

(** The effect that runs when the [songs] argument changes. *)
Definition songsChanged (random : nat -> nat) (new : list Song) (s : State)
  : State :=
  let s := set_playlistRef new (set_songs new s) in
  let s := updateShuffledPlaylist random s in
  match currentSong s with
  | Some cur =>
      let newIndex := findIndex (id cur) new in
      if negb (newIndex =? -1) then set_currentIndexRef newIndex s
      else if 0 <? Z.of_nat (length new) then
        setIsPlaying false
          (audio AudioPlayer.Stop
             (set_currentIndexRef 0 (setCurrentSong (new !! 0%nat) s)))
      else
        setIsPlaying false
          (audio AudioPlayer.Stop
             (set_currentIndexRef (-1) (setCurrentSong None s)))
  | None => s
  end.

Definition playSong (song : Song) (s : State) : State :=
  let playlist := getCurrentPlaylist s in
  let index := findIndex (id song) playlist in
  if negb (index =? -1) then
    setIsPlaying true (setCurrentSong (Some song) (set_currentIndexRef index s))
  else s.

Definition togglePlay (s : State) : State :=
  match currentSong s with
  | None =>
      if 0 <? Z.of_nat (length (songs s)) then
        let playlist := getCurrentPlaylist s in
        setIsPlaying true
          (setCurrentSong (playlist !! 0%nat) (set_currentIndexRef 0 s))
      else s
  | Some _ =>
      if isPlaying s then setIsPlaying false (audio AudioPlayer.Pause s)
      else setIsPlaying true (audio AudioPlayer.Play s)
  end.

Definition playNext (s : State) : State :=
  if Z.of_nat (length (songs s)) =? 0 then s
  else
    let playlist := getCurrentPlaylist s in
    let nextIndex := currentIndexRef s + 1 in
    let nextIndex :=
      if nextIndex >=? Z.of_nat (length playlist) then 0 else nextIndex in
    if (nextIndex <? 0) || (nextIndex >=? Z.of_nat (length playlist)) then s
    else
      setIsPlaying true
        (setCurrentSong (playlist !! Z.to_nat nextIndex)
           (set_currentIndexRef nextIndex s)).

(** [currentTime > 3]. *)
Definition past_three_seconds (t : Q) : bool := negb (Qle_bool t 3).

Definition playPrevious (s : State) : State :=
  if Z.of_nat (length (songs s)) =? 0 then s
  else if past_three_seconds (currentTime s) then audio (AudioPlayer.Seek 0) s
  else
    let playlist := getCurrentPlaylist s in
    let prevIndex := currentIndexRef s - 1 in
    let prevIndex :=
      if prevIndex <? 0 then Z.of_nat (length playlist) - 1 else prevIndex in
    if (prevIndex <? 0) || (prevIndex >=? Z.of_nat (length playlist)) then s
    else
      setIsPlaying true
        (setCurrentSong (playlist !! Z.to_nat prevIndex)
           (set_currentIndexRef prevIndex s)).

Definition toggleShuffle (random : nat -> nat) (s : State) : State :=
  let was := isShuffle s in
  let s := setIsShuffle (negb was) s in
  if negb was then
    let s := updateShuffledPlaylist random s in
    match currentSong s with
    | Some cur =>
        set_currentIndexRef (findIndex (id cur) (shuffledPlaylistRef s)) s
    | None => s
    end
  else
    match currentSong s with
    | Some cur => set_currentIndexRef (findIndex (id cur) (playlistRef s)) s
    | None => s
    end.

Definition toggleRepeat (s : State) : State :=
  match repeatMode s with
  | repeat_none => setRepeatMode repeat_all s
  | repeat_all => setRepeatMode repeat_one s
  | repeat_one => setRepeatMode repeat_none s
  end.

(** [lastEndedRef.current && now - lastEndedRef.current < 1000]: [null]
    and [0] are falsy. *)
Definition debounced (now : Z) (s : State) : bool :=
  match lastEndedRef s with
  | Some last => negb (last =? 0) && (now - last <? 1000)
  | None => false
  end.

(** [now] is the value of [Date.now()] at the call. *)
Definition handleSongEnd (now : Z) (s : State) : State :=
  if debounced now s then s
  else
    let s := set_lastEndedRef (Some now) s in
    match repeatMode s with
    | repeat_one => audio AudioPlayer.Play (audio (AudioPlayer.Seek 0) s)
    | _ => playNext s
    end.

(** [duration > 0 && time >= duration - 0.5]. *)
Definition near_end (dur time : Q) : bool :=
  negb (Qle_bool dur 0) && Qle_bool (dur - (1 # 2)) time.

Definition handleTimeUpdate (now : Z) (time : Q) (s : State) : State :=
  let s' := setCurrentTime time s in
  if near_end (duration s) time then handleSongEnd now s' else s'.

Definition handleDurationChange (newDuration : Q) (s : State) : State :=
  setDuration newDuration s.

Definition setSeekPosition (position : Q) (s : State) : State :=
  setCurrentTime position (audio (AudioPlayer.Seek position) s).

(** What can happen to the hook: a new [songs] argument, a transport
    command from the user interface, or a notification of the audio
    element. *)
Inductive Event :=
| SongsChanged (random : nat -> nat) (new : list Song)
| PlaySong (song : Song)
| TogglePlay
| PlayNext
| PlayPrevious
| ToggleShuffle (random : nat -> nat)
| ToggleRepeat
| Ended (now : Z)
| TimeUpdate (now : Z) (time : Q)
| DurationChange (newDuration : Q)
| SetSeekPosition (position : Q).

Definition step (s : State) (e : Event) : State :=
  match e with
  | SongsChanged random new => songsChanged random new s
  | PlaySong song => playSong song s
  | TogglePlay => togglePlay s
  | PlayNext => playNext s
  | PlayPrevious => playPrevious s
  | ToggleShuffle random => toggleShuffle random s
  | ToggleRepeat => toggleRepeat s
  | Ended now => handleSongEnd now s
  | TimeUpdate now time => handleTimeUpdate now time s
  | DurationChange newDuration => handleDurationChange newDuration s
  | SetSeekPosition position => setSeekPosition position s
  end.

Definition run (es : list Event) (s : State) : State := fold_left step es s.

Definition reachable (s : State) : Prop := exists es, s = run es initial.

(** *** Invariants of the hook *)

(** The hook tells tracks apart by id. *)
Definition same_track (a b : Song) : Prop := id a = id b.

(** The refs follow the [songs] argument, and the current track, if
    any, is a track of the list at an index within it. *)
Definition coherent (s : State) : Prop :=
  playlistRef s = songs s /\
  shuffledPlaylistRef s ≡ₚ songs s /\
  match currentSong s with
  | Some cur =>
      0 <= currentIndexRef s < Z.of_nat (length (songs s)) /\
      exists t, t ∈ songs s /\ same_track t cur
  | None => currentIndexRef s = -1
  end.

(** The current index, when it is not negative, is the place of the
    current track in the active sequence. *)
Definition indexed (s : State) : Prop :=
  0 <= currentIndexRef s ->
  exists t cur,
    getCurrentPlaylist s !! Z.to_nat (currentIndexRef s) = Some t /\
    currentSong s = Some cur /\ same_track t cur.

(** With an empty list there is no current track. *)
Definition cleared (s : State) : Prop :=
  songs s = [] -> currentSong s = None /\ currentIndexRef s = -1.

Definition index_invariant (s : State) : Prop := indexed s /\ cleared s.

(** What the specification says of [playPrevious], for a state [s]
    with a non-empty active sequence. *)
Definition playPrevious_as_specified (s : State) : Prop :=
  let playlist := getCurrentPlaylist s in
  playlist <> [] ->
  if past_three_seconds (currentTime s) then
    playPrevious s = audio (AudioPlayer.Seek 0) s
  else
    currentIndexRef (playPrevious s) =
      (currentIndexRef s - 1) mod Z.of_nat (length playlist).

(** No new list arrives while shuffle is on. *)
Fixpoint lists_arrive_unshuffled (es : list Event) (s : State) : Prop :=
  match es with
  | [] => True
  | e :: es' =>
      match e with
      | SongsChanged _ _ => isShuffle s = false
      | _ => True
      end /\ lists_arrive_unshuffled es' (step s e)
  end.

End Player.

(** ** The rename dialog *)

Module RenameDialog.

Section Submit.

(** [String.prototype.trim]. *)
Variable trim : string -> string.

(** The body [handleSubmit] sends with its PATCH request, if it sends
    one: nothing when the trimmed title is empty, otherwise the trimmed
    title and [artist?.trim() ?? ""], so always some artist string. *)
Definition handleSubmit (song : Song) (title : string)
    (artist : option string) : option RenameSongInput :=
  if String.eqb (trim title) "" then None
  else Some (mkRenameSongInput (id song) (trim title)
               (Some (match artist with
                      | Some a => trim a
                      | None => ""%string
                      end))).

End Submit.

End RenameDialog.

(** ** Sample data *)

Module Samples.

Definition songA : Song := mkSong 1 "A" (Some "Ann") (Some 180) "mp3" "/u/a.mp3" "a.mp3".
Definition songB : Song := mkSong 2 "B" (Some "Bob") (Some 200) "mp3" "/u/b.mp3" "b.mp3".
Definition songC : Song := mkSong 3 "C" (Some "Cy") (Some 220) "wav" "/u/c.wav" "c.wav".
Definition songD : Song := mkSong 4 "D" (Some "Di") (Some 240) "flac" "/u/d.flac" "d.flac".

Definition draftA : InsertSong := mkInsertSong "A" (Some "Ann") (Some 180) "mp3" "/u/a.mp3" "a.mp3".
Definition draftB : InsertSong := mkInsertSong "B" None None "mp3" "/u/b.mp3" "b.mp3".
Definition draftC : InsertSong := mkInsertSong "C" (Some "") (Some 0) "wav" "/u/c.wav" "c.wav".

(** A first start: the three uploads are on the disk, there is no
    sidecar yet. *)
Definition disk0 : Storage.Disk :=
  Storage.mkDisk ["/u/a.mp3"; "/u/b.mp3"; "/u/c.wav"] [] Storage.NoFile true.

Definition uploads : list Storage.Op :=
  [Storage.Create draftA; Storage.Create draftB; Storage.Create draftC].

(** The store after the three uploads. *)
Definition world3 : Storage.World :=
  snd (Storage.history uploads (Storage.boot disk0)).

(** The draws of a shuffle that always picks position 0. *)
Definition always_first : nat -> nat := fun _ => 0%nat.

(** The library of three tracks has arrived; nothing is selected. *)
Definition loaded : Player.State :=
  Player.run [Player.SongsChanged always_first [songA; songB; songC]]
    Player.initial.

(** Track A is playing in the straight order. *)
Definition playingA : Player.State :=
  Player.run [Player.SongsChanged always_first [songA; songB; songC];
              Player.PlaySong songA] Player.initial.

(** Shuffle is switched on, track A is played, then a fourth track is
    uploaded and the list arrives again. *)
Definition shuffled_then_uploaded : list Player.Event :=
  [Player.SongsChanged always_first [songA; songB; songC];
   Player.ToggleShuffle always_first;
   Player.PlaySong songA;
   Player.SongsChanged always_first [songA; songB; songC; songD]].

End Samples.

(** ** server/routes.ts *)

Module Routes.

(** A key of a parsed JSON body, as a schema sees it: not there, there
    with a value of another type, or there with a value of the type. *)
Inductive Field (A : Type) :=
| Absent
| Malformed
| Given (a : A).

Arguments Absent {A}.
Arguments Malformed {A}.
Arguments Given {A} a.

(** The keys of [req.body] the rename schema looks at. *)
Record PatchBody := mkPatchBody {
  body_id : Field Z;
  body_title : Field string;
  body_artist : Field string
}.

Inductive Body :=
| NoBody
| OneSong (song : Song)
| SongList (songs : list Song)
| NotFoundMessage
| ValidationMessage.

Record Response := mkResponse {
  status : Z;
  body : Body
}.

(** [{ id: parseInt(req.params.id), ...req.body }]: a key [id] of the
    body replaces the one read from the URL; [parseInt] gives [NaN],
    here [None], on a parameter that does not start with a number. *)
Definition patch_id (url_id : option Z) (b : PatchBody) : Field Z :=
  match body_id b with
  | Absent => match url_id with Some k => Given k | None => Malformed end
  | given => given
  end.

(** [renameSongSchema.parse]: [None] stands for the [ZodError]. *)
Definition parseRename (url_id : option Z) (b : PatchBody)
  : option RenameSongInput :=
  match patch_id url_id b, body_title b, body_artist b with
  | Given k, Given t, Absent =>
      if String.eqb t "" then None else Some (mkRenameSongInput k t None)
  | Given k, Given t, Given a =>
      if String.eqb t "" then None else Some (mkRenameSongInput k t (Some a))
  | _, _, _ => None
  end.

(** [deleteSongSchema.parse({ id: parseInt(req.params.id) })]. *)
Definition parseDelete (url_id : option Z) : option DeleteSongInput :=
  match url_id with
  | Some k => Some (mkDeleteSongInput k)
  | None => None
  end.

(** [GET /api/songs]. *)
Definition getSongs (w : Storage.World) : Response * Storage.World :=
  (mkResponse 200 (SongList (Storage.getAllSongs (fst w))), w).

(** [PATCH /api/songs/:id]. *)
Definition patchSong (url_id : option Z) (b : PatchBody) (w : Storage.World)
  : Response * Storage.World :=
  match parseRename url_id b with
  | None => (mkResponse 400 ValidationMessage, w)
  | Some input =>
      match Storage.renameSong input w with
      | (None, w') => (mkResponse 404 NotFoundMessage, w')
      | (Some updatedSong, w') => (mkResponse 200 (OneSong updatedSong), w')
      end
  end.

(** [DELETE /api/songs/:id]. *)
Definition deleteSong (url_id : option Z) (w : Storage.World)
  : Response * Storage.World :=
  match parseDelete url_id with
  | None => (mkResponse 400 ValidationMessage, w)
  | Some input =>
      match Storage.deleteSong input w with
      | (false, w') => (mkResponse 404 NotFoundMessage, w')
      | (true, w') => (mkResponse 204 NoBody, w')
      end
  end.

(** The body the rename dialog sends: [title] and [artist], no [id]. *)
Definition dialog_body (input : RenameSongInput) : PatchBody :=
  mkPatchBody Absent (Given (rn_title input))
    (match rn_artist input with Some a => Given a | None => Absent end).

End Routes.

(** ** dist/index.js: the store of the bundled build *)

Module MemStorage.

Record MemStorage := mkMemStorage {
  songs : Storage.SongMap;
  currentId : Z
}.

Definition new_storage : MemStorage := mkMemStorage [] 1.

Definition getAllSongs (st : MemStorage) : list Song :=
  Storage.map_values (songs st).

Definition getSong (k : Z) (st : MemStorage) : option Song :=
  Storage.map_get k (songs st).

Definition createSong (insertSong : InsertSong) (st : MemStorage)
  : Song * MemStorage :=
  let i := currentId st in
  let song := mkSong i (ins_title insertSong)
                (or_string (ins_artist insertSong) (Some "Unknown"%string))
                (Some (or_zero (ins_duration insertSong)))
                (ins_format insertSong) (ins_path insertSong)
                (ins_filename insertSong) in
  (song, mkMemStorage (Storage.map_set i song (songs st)) (i + 1)).

Definition renameSong (input : RenameSongInput) (st : MemStorage)
  : option Song * MemStorage :=
  match Storage.map_get (rn_id input) (songs st) with
  | None => (None, st)
  | Some song =>
      let updatedSong :=
        mkSong (id song) (rn_title input)
               (or_string (rn_artist input) (artist song))
               (duration song) (format song) (path song) (filename song) in
      (Some updatedSong,
       mkMemStorage (Storage.map_set (rn_id input) updatedSong (songs st))
                    (currentId st))
  end.

(** [fs.unlink] called without a test for the file: it rejects on a
    path that is not there. *)
Definition unlink (p : string) (d : Storage.Disk) : option Storage.Disk :=
  if Storage.existsSync d p then Storage.unlink p d else None.

Definition deleteSong (input : DeleteSongInput)
    (w : MemStorage * Storage.Disk) : bool * (MemStorage * Storage.Disk) :=
  let (st, d) := w in
  match Storage.map_get (del_id input) (songs st) with
  | None => (false, w)
  | Some song =>
      match unlink (path song) d with
      | None => (false, w)
      | Some d1 =>
          let (result, m') := Storage.map_delete (del_id input) (songs st) in
          (result, (mkMemStorage m' (currentId st), d1))
      end
  end.

End MemStorage.

(** ** server/index.ts (in dist/index.js) *)

Module Server.

(** An entry of [os.networkInterfaces()]. *)
Record NetworkInterfaceInfo := mkInfo {
  address : string;
  family : string;
  internal : bool
}.

(** [nets[name]]. *)
Fixpoint nets_get (name : string) (nets : list (string * list NetworkInterfaceInfo))
  : option (list NetworkInterfaceInfo) :=
  match nets with
  | [] => None
  | (name', infos) :: nets' =>
      if String.eqb name name' then Some infos else nets_get name nets'
  end.

Definition external_IPv4 (net : NetworkInterfaceInfo) : bool :=
  String.eqb (family net) "IPv4" && negb (internal net).

Fixpoint first_external (infos : list NetworkInterfaceInfo) : option string :=
  match infos with
  | [] => None
  | net :: infos' =>
      if external_IPv4 net then Some (address net) else first_external infos'
  end.

Fixpoint scan (names : list string) (nets : list (string * list NetworkInterfaceInfo))
  : option string :=
  match names with
  | [] => None
  | name :: names' =>
      match first_external (default [] (nets_get name nets)) with
      | Some a => Some a
      | None => scan names' nets
      end
  end.

(** The two nested loops over [Object.keys(nets)] and [nets[name] || []],
    left at the first hit. *)
Definition getLocalIpAddress (nets : list (string * list NetworkInterfaceInfo))
  : option string :=
  scan (map fst nets) nets.

(** [getLocalIpAddress() || "localhost"]. *)
Definition localIp (nets : list (string * list NetworkInterfaceInfo)) : string :=
  match or_string (getLocalIpAddress nets) (Some "localhost"%string) with
  | Some a => a
  | None => "localhost"%string
  end.

(** [if (logLine.length > 80) logLine = logLine.slice(0, 79) + "…"], on
    a line given as its sequence of code units. *)
Definition clip {A : Type} (ellipsis : A) (logLine : list A) : list A :=
  if (80 <? length logLine)%nat then take 79 logLine ++ [ellipsis]
  else logLine.

(** [log(message, source = "express")]: the line it writes to the
    console, [`${formattedTime} [${source}] ${message}`], as a sequence
    of UTF-16 code units; the time of day, as [toLocaleTimeString]
    formats it, is an argument. 32 is the space, 91 and 93 are the
    brackets. *)
Definition log (formattedTime message source : list Z) : list Z :=
  formattedTime ++ [32; 91] ++ source ++ [93; 32] ++ message.

(** The default source, "express". *)
Definition express : list Z := [101; 120; 112; 114; 101; 115; 115].

(** The ellipsis, U+2026. *)
Definition ellipsis : Z := 8230.

(** What the request logger writes for the line it has built: the cut,
    then [log(logLine)]. *)
Definition logRequest (formattedTime logLine : list Z) : list Z :=
  log formattedTime (clip ellipsis logLine) express.

End Server.

(** ** The listeners of the [AudioPlayer] class *)

Module AudioListeners.

(** The object: the element and the three arrays of callbacks; a
    callback is known by its reference, here a number. *)
Record Player := mkPlayer {
  audio : AudioPlayer.Audio;
  timeUpdateCallbacks : list nat;
  durationChangeCallbacks : list nat;
  endedCallbacks : list nat
}.

(** A call of a callback, with its argument; a duration of [None] is
    [NaN]. *)
Inductive Notification :=
| TimeUpdate (callback : nat) (time : Q)
| DurationChange (callback : nat) (duration : option Q)
| Ended (callback : nat).

Definition onTimeUpdate (callback : nat) (p : Player) : Player :=
  mkPlayer (audio p) (timeUpdateCallbacks p ++ [callback])
    (durationChangeCallbacks p) (endedCallbacks p).

Definition offTimeUpdate (callback : nat) (p : Player) : Player :=
  mkPlayer (audio p) (filter (fun cb => cb <> callback) (timeUpdateCallbacks p))
    (durationChangeCallbacks p) (endedCallbacks p).

Definition onDurationChange (callback : nat) (p : Player) : Player :=
  mkPlayer (audio p) (timeUpdateCallbacks p)
    (durationChangeCallbacks p ++ [callback]) (endedCallbacks p).

Definition offDurationChange (callback : nat) (p : Player) : Player :=
  mkPlayer (audio p) (timeUpdateCallbacks p)
    (filter (fun cb => cb <> callback) (durationChangeCallbacks p))
    (endedCallbacks p).

Definition onEnded (callback : nat) (p : Player) : Player :=
  mkPlayer (audio p) (timeUpdateCallbacks p) (durationChangeCallbacks p)
    (endedCallbacks p ++ [callback]).

Definition offEnded (callback : nat) (p : Player) : Player :=
  mkPlayer (audio p) (timeUpdateCallbacks p) (durationChangeCallbacks p)
    (filter (fun cb => cb <> callback) (endedCallbacks p)).

(** What a callback does to the element while it runs, before the
    next callback is called. *)
Definition Reaction : Type :=
  Notification -> AudioPlayer.Audio -> AudioPlayer.Audio.

Definition with_audio (a : AudioPlayer.Audio) (p : Player) : Player :=
  mkPlayer a (timeUpdateCallbacks p) (durationChangeCallbacks p)
    (endedCallbacks p).

(** [callbacks.forEach(cb => cb(argument))]: the argument is read from
    the element anew for each call. *)
Fixpoint forEach (react : Reaction)
    (call : nat -> AudioPlayer.Audio -> Notification)
    (callbacks : list nat) (a : AudioPlayer.Audio)
  : list Notification * AudioPlayer.Audio :=
  match callbacks with
  | [] => ([], a)
  | cb :: callbacks' =>
      let n := call cb a in
      let (ns, a') := forEach react call callbacks' (react n a) in
      (n :: ns, a')
  end.

(** [duration > 0 && !isNaN(duration) && currentTime >= duration - 0.1]. *)
Definition at_end (a : AudioPlayer.Audio) : bool :=
  match AudioPlayer.duration a with
  | Some d =>
      negb (Qle_bool d 0) && Qle_bool (d - (1 # 10)) (AudioPlayer.currentTime a)
  | None => false
  end.

(** The listener of the element's [timeupdate] event: the calls it
    makes, and the player after them. *)
Definition timeupdate (react : Reaction) (p : Player)
  : list Notification * Player :=
  let (ns, a) :=
    forEach react (fun cb a => TimeUpdate cb (AudioPlayer.currentTime a))
      (timeUpdateCallbacks p) (audio p) in
  if at_end a then
    let (ns', a') :=
      forEach react (fun cb _ => Ended cb) (endedCallbacks p) a in
    (ns ++ ns', with_audio a' p)
  else (ns, with_audio a p).

(** The listener of [durationchange]: [duration && !isNaN(duration)]
    holds of a number that is neither 0 nor [NaN]. *)
Definition durationchange (react : Reaction) (p : Player)
  : list Notification * Player :=
  match AudioPlayer.duration (audio p) with
  | Some d =>
      if Qeq_bool d 0 then ([], p)
      else
        let (ns, a) :=
          forEach react (fun cb a => DurationChange cb (AudioPlayer.duration a))
            (durationChangeCallbacks p) (audio p) in
        (ns, with_audio a p)
  | None => ([], p)
  end.

(** The listener of the native [ended] event. *)
Definition ended (react : Reaction) (p : Player)
  : list Notification * Player :=
  let (ns, a) :=
    forEach react (fun cb _ => Ended cb) (endedCallbacks p) (audio p) in
  (ns, with_audio a p).

(** The callback a notification goes to. *)
Definition receiver (n : Notification) : nat :=
  match n with
  | TimeUpdate cb _ => cb
  | DurationChange cb _ => cb
  | Ended cb => cb
  end.


(** The notification is an end signal for this callback. *)
Definition ended_for (callback : nat) (n : Notification) : bool :=
  match n with
  | Ended cb => Nat.eqb cb callback
  | _ => false
  end.

(** The notification is a time update for this callback. *)
Definition time_update_for (callback : nat) (n : Notification) : bool :=
  match n with
  | TimeUpdate cb _ => Nat.eqb cb callback
  | _ => false
  end.

End AudioListeners.

(** ** Further notions for the store *)

Module StoreNotions.

(** The records are listed by rising id, each under its id, all below
    the counter. *)
Definition ordered (st : Storage.FileStorage) : Prop :=
  Forall (fun e => fst e = id (snd e)) (Storage.songs st) /\
  StronglySorted Z.lt (Storage.map_keys (Storage.songs st)) /\
  Forall (fun k => k < Storage.currentId st) (Storage.map_keys (Storage.songs st)).

(** A sidecar that is absent, unreadable, or lists its records by rising
    id, all below its counter. *)
Definition ordered_sidecar (c : Storage.Sidecar) : Prop :=
  match c with
  | Storage.Saved l n =>
      StronglySorted Z.lt (map id l) /\ Forall (fun s => id s < n) l
  | _ => True
  end.

(** The same disk with a sidecar that can, or cannot, be written. *)
Definition with_writable (b : bool) (d : Storage.Disk) : Storage.Disk :=
  Storage.mkDisk (Storage.files d) (Storage.undeletable d)
    (Storage.metadata d) b.

End StoreNotions.

(** ** More sample data *)

Module MoreSamples.

(** A sidecar edited by hand: its counter is the id of a record it
    lists. *)
Definition disk_with_stale_counter : Storage.Disk :=
  Storage.mkDisk ["/u/a.mp3"; "/u/b.mp3"] []
    (Storage.Saved [Samples.songA; Samples.songB] 2) true.

(** The sample library on a disk that refuses the sidecar. *)
Definition unwritable_world : Storage.World :=
  (fst Samples.world3,
   Storage.mkDisk ["/u/a.mp3"; "/u/b.mp3"; "/u/c.wav"] [] Storage.NoFile false).

(** The file of song 2 cannot be unlinked. *)
Definition world_with_protected_file : Storage.World :=
  (fst Samples.world3,
   Storage.mkDisk ["/u/a.mp3"; "/u/b.mp3"; "/u/c.wav"] ["/u/b.mp3"]
     (Storage.metadata (snd Samples.world3)) true).

(** The file of song 2 has gone. *)
Definition world_with_missing_file : Storage.World :=
  (fst Samples.world3,
   Storage.removeOutside "/u/b.mp3" (snd Samples.world3)).

Definition interfaces : list (string * list Server.NetworkInterfaceInfo) :=
  [("lo"%string, [Server.mkInfo "127.0.0.1" "IPv4" true;
                  Server.mkInfo "::1" "IPv6" true]);
   ("eth0"%string, [Server.mkInfo "fe80::1" "IPv6" false;
                    Server.mkInfo "192.168.1.20" "IPv4" false])].

(** One time listener, 7, and one end listener, 9, on an element five
    hundredths of a second before the end of a three-minute track. *)
Definition player_near_end : AudioListeners.Player :=
  AudioListeners.mkPlayer (AudioPlayer.mkAudio (17995 # 100) (Some (180 # 1)%Q) false)
    [7%nat] [] [9%nat].

(** Track A of the sample library plays; its duration, 180 s, is
    known to the hook. *)
Definition playingA_180 : Player.State :=
  Player.run [Player.SongsChanged Samples.always_first
                [Samples.songA; Samples.songB; Samples.songC];
              Player.PlaySong Samples.songA;
              Player.DurationChange 180] Player.initial.

(** A history in which the list arrives only while shuffle is off. *)
Definition calm_history : list Player.Event :=
  [Player.SongsChanged Samples.always_first
     [Samples.songA; Samples.songB; Samples.songC];
   Player.ToggleShuffle Samples.always_first;
   Player.PlaySong Samples.songC;
   Player.PlayNext;
   Player.ToggleShuffle Samples.always_first;
   Player.SongsChanged Samples.always_first
     [Samples.songA; Samples.songB; Samples.songC; Samples.songD];
   Player.PlayPrevious].

(** The state in which the index has lost the current track. *)
Definition off_track : Player.State :=
  Player.run Samples.shuffled_then_uploaded Player.initial.

(** Song A as the list had it before a rename. *)
Definition songA_renamed : Song :=
  mkSong 1 "A (live)" (Some "Ann"%string) (Some 180) "mp3" "/u/a.mp3" "a.mp3".

End MoreSamples.

(** * Properties of the metadata store *)

Section StorageProperties.
Import Storage.

(** *** The insertion-ordered map *)

Lemma map_get_set_eq k v m : map_get k (map_set k v m) = Some v.
Proof.
  induction m as [|[k' v'] m IH]; simpl.
  - by rewrite Z.eqb_refl.
  - destruct (k =? k') eqn:E; simpl; rewrite ?Z.eqb_refl, ?E; done.
Qed.

Lemma map_get_set_ne k k' v m :
  k <> k' -> map_get k' (map_set k v m) = map_get k' m.
Proof.
  intros Hne. induction m as [|[k0 v0] m IH]; simpl.
  - destruct (k' =? k) eqn:E; [apply Z.eqb_eq in E; congruence | done].
  - destruct (k =? k0) eqn:E; simpl.
    + apply Z.eqb_eq in E. subst k0.
      destruct (k' =? k) eqn:E'; [apply Z.eqb_eq in E'; congruence | done].
    + by rewrite IH.
Qed.

Lemma map_get_None k m : map_get k m = None <-> k ∉ map_keys m.
Proof.
  induction m as [|[k' v'] m IH]; simpl.
  - split; [intros _; apply not_elem_of_nil | done].
  - rewrite not_elem_of_cons. destruct (k =? k') eqn:E.
    + apply Z.eqb_eq in E. split; [done | intros [? _]; done].
    + apply Z.eqb_neq in E. rewrite IH. tauto.
Qed.

Lemma map_get_Some_elem k v m : map_get k m = Some v -> (k, v) ∈ m.
Proof.
  induction m as [|[k' v'] m IH]; simpl; [done |].
  destruct (k =? k') eqn:E.
  - apply Z.eqb_eq in E. intros [= ->]. subst. apply list_elem_of_here.
  - intros H. apply list_elem_of_further. auto.
Qed.

Lemma map_set_fresh k v m :
  map_get k m = None -> map_set k v m = m ++ [(k, v)].
Proof.
  induction m as [|[k' v'] m IH]; simpl; [done |].
  destruct (k =? k'); [done |]. intros H. by rewrite IH.
Qed.

Lemma map_keys_set_present k v m :
  map_get k m <> None -> map_keys (map_set k v m) = map_keys m.
Proof.
  induction m as [|[k' v'] m IH]; simpl; [done |].
  destruct (k =? k') eqn:E; simpl.
  - apply Z.eqb_eq in E. by subst.
  - intros H. by rewrite IH.
Qed.

(** Setting a present key rewrites one slot of the value sequence and
    leaves every other slot, and the order, as they were. *)
Lemma map_values_set_present k v old m :
  map_get k m = Some old ->
  exists i : nat,
    map_values m !! i = Some old /\
    map_values (map_set k v m) = <[i:=v]> (map_values m).
Proof.
  induction m as [|[k' v'] m IH]; simpl; [done |].
  destruct (k =? k') eqn:E.
  - intros [= ->]. by exists 0%nat.
  - intros H. destruct (IH H) as (i & Hi & Hset).
    exists (S i). simpl. by rewrite Hset.
Qed.

Lemma map_get_delete k m : map_get k (snd (map_delete k m)) = None.
Proof.
  apply map_get_None. unfold map_delete, map_keys. simpl.
  intros Hin. apply list_elem_of_fmap in Hin as ([k' v'] & -> & Hin).
  apply list_elem_of_filter in Hin as [Hk _]. simpl in Hk.
  rewrite Z.eqb_refl in Hk. done.
Qed.

Lemma map_delete_absent k m :
  map_get k m = None -> map_delete k m = (false, m).
Proof.
  intros H. unfold map_delete, map_has. rewrite H. f_equal.
  apply map_get_None in H. induction m as [|[k' v'] m IH]; [done |].
  simpl in H. apply not_elem_of_cons in H as [Hne Hm].
  rewrite filter_cons. simpl.
  destruct (decide _) as [_|Hn].
  - by rewrite IH.
  - exfalso. apply Hn. apply Z.eqb_neq in Hne. by rewrite Hne.
Qed.

(** *** Keys are ids *)

Lemma keyed_nil : keyed [].
Proof. split; [constructor | apply NoDup_nil_2]. Qed.

Lemma keyed_set k v m : keyed m -> k = id v -> keyed (map_set k v m).
Proof.
  intros [Hid Hnd] ->. destruct (map_get (id v) m) as [old|] eqn:E.
  - split.
    + clear Hnd E. induction m as [|[k' v'] m IH]; simpl.
      * by constructor.
      * inversion Hid; subst. destruct (id v =? k'); constructor; auto.
    + rewrite map_keys_set_present; [done | by rewrite E].
  - rewrite map_set_fresh by done. split.
    + apply Forall_app. split; [done | by repeat constructor].
    + unfold map_keys. rewrite map_app. simpl.
      apply NoDup_app. split; [done |]. split.
      * intros x Hx Hx'. apply list_elem_of_singleton in Hx'. subst x.
        by apply map_get_None in E.
      * apply NoDup_singleton.
Qed.

Lemma keyed_delete k m : keyed m -> keyed (snd (map_delete k m)).
Proof.
  intros [Hid Hnd]. unfold map_delete. simpl. split.
  - apply Forall_forall. intros e He. apply list_elem_of_filter in He as [_ He].
    revert e He. by apply Forall_forall.
  - clear Hid. induction m as [|[k' v'] m IH]; [apply NoDup_nil_2 |].
    simpl in Hnd. apply NoDup_cons in Hnd as [Hk' Hnd].
    rewrite filter_cons. destruct (decide _); [| by apply IH].
    simpl. apply NoDup_cons. split; [| by apply IH].
    intros Hin. apply Hk'. apply list_elem_of_fmap in Hin as (e & -> & He).
    apply list_elem_of_filter in He as [_ He].
    apply list_elem_of_fmap. by exists e.
Qed.

Lemma keyed_restore d l acc : keyed acc -> keyed (fold_left (restore d) l acc).
Proof.
  revert acc. induction l as [|song l IH]; intros acc Hacc; simpl; [done |].
  apply IH. unfold restore. destruct (existsSync d (path song)); [| done].
  by apply keyed_set.
Qed.

Lemma keyed_get k v m : keyed m -> map_get k m = Some v -> k = id v.
Proof.
  intros [Hid _] H. apply map_get_Some_elem in H.
  rewrite Forall_forall in Hid. by apply Hid in H.
Qed.

Lemma keyed_boot d : keyed (songs (fst (boot d))).
Proof.
  unfold boot, loadSavedMetadata. simpl.
  destruct (metadata d); simpl; try apply keyed_nil.
  apply keyed_restore, keyed_nil.
Qed.

Lemma keyed_apply w o : keyed (songs (fst w)) -> keyed (songs (fst (snd (apply w o)))).
Proof.
  destruct w as [st d]. simpl. intros Hk. destruct o; simpl.
  - by apply keyed_set.
  - unfold renameSong. destruct (map_get _ _) as [song|] eqn:E; simpl; [| done].
    apply keyed_set; [done |]. simpl. by apply (keyed_get _ _ (songs st)).
  - unfold deleteSong. destruct (map_get _ _) as [song|] eqn:E; simpl; [| done].
    destruct (if existsSync d (path song) then _ else _); simpl; [| done].
    by apply keyed_delete.
  - apply keyed_boot.
  - done.
Qed.

Lemma keyed_history ops w :
  keyed (songs (fst w)) -> keyed (songs (fst (snd (history ops w)))).
Proof.
  revert w. induction ops as [|o ops IH]; intros w Hk; simpl; [done |].
  pose proof (keyed_apply w o Hk) as Hk'.
  destruct (apply w o) as [issued w'].
  specialize (IH w' Hk'). by destruct (history ops w').
Qed.

Lemma reachable_keyed st d : reachable (st, d) -> keyed (songs st).
Proof.
  intros (d0 & ops & Hw).
  pose proof (keyed_history ops (boot d0) (keyed_boot d0)) as Hk.
  by rewrite <- Hw in Hk.
Qed.

(** *** Saving and loading *)

Lemma restore_entries d m acc :
  Forall (fun e => fst e = id (snd e)) m ->
  NoDup (map_keys acc ++ map_keys m) ->
  fold_left (restore d) (map_values m) acc = acc ++ filter (on_disk d) m.
Proof.
  revert acc. induction m as [|[k v] m IH]; intros acc Hid Hnd; simpl.
  - by rewrite filter_nil, app_nil_r.
  - inversion Hid as [|? ? Hk Hid']; subst. simpl in Hk. subst k.
    simpl in Hnd.
    apply NoDup_app in Hnd as (Hacc & Hdisj & Hm).
    apply NoDup_cons in Hm as [Hv Hm].
    assert (Hfresh : map_get (id v) acc = None).
    { apply map_get_None. intros Hin. apply (Hdisj _ Hin), list_elem_of_here. }
    rewrite filter_cons. unfold restore at 2.
    destruct (decide (on_disk d (id v, v))) as [E|E]; unfold on_disk in E;
      simpl in E.
    + rewrite E.
      rewrite map_set_fresh by done. rewrite IH; [by rewrite <- app_assoc | done |].
      unfold map_keys. rewrite map_app. simpl. apply NoDup_app.
      split; [| split; [| done]].
      * apply NoDup_app. split; [done |]. split; [| apply NoDup_singleton].
        intros x Hx Hx'. apply list_elem_of_singleton in Hx'. subst x.
        apply (Hdisj _ Hx), list_elem_of_here.
      * intros x Hx Hx'. apply elem_of_app in Hx as [Hx | Hx].
        -- apply (Hdisj _ Hx). by apply list_elem_of_further.
        -- apply list_elem_of_singleton in Hx. by subst x.
    + apply not_true_is_false in E. rewrite E.
      apply IH; [done |]. apply NoDup_app. split; [done |]. split; [| done].
      intros x Hx Hx'. apply (Hdisj _ Hx). by apply list_elem_of_further.
Qed.

Lemma load_after_save st d d' :
  keyed (songs st) ->
  writable d = true ->
  metadata d' = metadata (saveMetadata st d) ->
  loadSavedMetadata (new_storage, d') =
    mkFileStorage (filter (on_disk d') (songs st)) (currentId st).
Proof.
  intros [Hid Hnd] Hw Hmeta. unfold loadSavedMetadata. rewrite Hmeta.
  unfold saveMetadata, writeFile. rewrite Hw. simpl. f_equal.
  by rewrite restore_entries.
Qed.

Lemma map_values_filter (P : Song -> Prop) `{!forall s, Decision (P s)}
    (m : SongMap) :
  map_values (filter (fun e => P (snd e)) m) = filter P (map_values m).
Proof.
  induction m as [|[k v] m IH]; [done |].
  simpl. rewrite !filter_cons. simpl. destruct (decide (P v)); simpl; by rewrite IH.
Qed.

(** C3. Persistence round-trip: for every state a store can reach, writing
    the sidecar with [saveMetadata] and loading it into a fresh store with
    [loadSavedMetadata], whatever files have disappeared in between, gives
    the records of the original store whose backing file is still on the
    disk, in the original order, and the id counter that was persisted. *)
Theorem persistence_round_trip st d d' :
  reachable (st, d) ->
  writable d = true ->
  metadata d' = metadata (saveMetadata st d) ->
  let st' := loadSavedMetadata (new_storage, d') in
  songs st' = filter (on_disk d') (songs st) /\
  getAllSongs st' =
    filter (fun s => existsSync d' (path s) = true) (getAllSongs st) /\
  metadata d' = Saved (getAllSongs st) (currentId st) /\
  currentId st' = currentId st.
Proof.
  intros Hr Hw Hmeta. apply reachable_keyed in Hr.
  cbv zeta. rewrite (load_after_save st d d') by done. simpl.
  split; [done |]. split; [| split; [| done]].
  - unfold getAllSongs. simpl.
    exact (map_values_filter (fun s => existsSync d' (path s) = true) (songs st)).
  - rewrite Hmeta. unfold saveMetadata, writeFile. by rewrite Hw.
Qed.

(** The round-trip on the sample store, after the file of song 2 has
    been removed by someone else. *)
Lemma persistence_round_trip_witness :
  let st := fst Samples.world3 in
  let d := snd Samples.world3 in
  let d' := removeOutside "/u/b.mp3" (saveMetadata st d) in
  map id (getAllSongs (loadSavedMetadata (new_storage, d'))) = [1; 3] /\
  currentId (loadSavedMetadata (new_storage, d')) = 4.
Proof.
  cbv zeta.
  destruct (persistence_round_trip (fst Samples.world3) (snd Samples.world3)
    (removeOutside "/u/b.mp3"
       (saveMetadata (fst Samples.world3) (snd Samples.world3))))
    as (_ & Hall & _ & Hid).
  - exists Samples.disk0, Samples.uploads. reflexivity.
  - reflexivity.
  - reflexivity.
  - rewrite Hall, Hid. split; reflexivity.
Defined.

(** *** Id allocation *)

Lemma counter_on_disk_Saved d l n :
  metadata d = Saved l n -> counter_on_disk d = n.
Proof.
  intros H. unfold counter_on_disk, boot, loadSavedMetadata. simpl.
  by rewrite H.
Qed.

Lemma counter_saved_boot d : writable d = true -> counter_saved (boot d).
Proof. intros H. by split. Qed.

Lemma counter_saved_save st d :
  writable d = true -> counter_saved (st, saveMetadata st d).
Proof.
  intros Hw. unfold counter_saved, saveMetadata, writeFile. rewrite Hw.
  simpl. split; [done |]. by erewrite counter_on_disk_Saved.
Qed.

Lemma unlink_writable p d d' : unlink p d = Some d' -> writable d' = writable d.
Proof.
  unfold unlink. destruct (bool_decide _); [done |]. by intros [= <-].
Qed.

(** One operation issues no id and keeps the counter, or issues the
    counter and advances it by one. *)
Lemma apply_counter w o :
  counter_saved w ->
  counter_saved (snd (apply w o)) /\
  ((fst (apply w o) = [] /\
    currentId (fst (snd (apply w o))) = currentId (fst w)) \/
   (fst (apply w o) = [currentId (fst w)] /\
    currentId (fst (snd (apply w o))) = currentId (fst w) + 1)).
Proof.
  destruct w as [st d]. intros [Hw Hc]. simpl in Hw, Hc.
  destruct o; simpl.
  - split; [by apply counter_saved_save | by right].
  - unfold renameSong. destruct (map_get _ _); simpl.
    + split; [by apply counter_saved_save | by left].
    + split; [by split | by left].
  - unfold deleteSong. destruct (map_get _ _) as [song|]; simpl.
    + destruct (existsSync d (path song)).
      * destruct (unlink (path song) d) as [d1|] eqn:E; simpl.
        -- split; [| by left]. apply counter_saved_save.
           by rewrite (unlink_writable _ _ _ E).
        -- split; [by split | by left].
      * simpl. split; [by apply counter_saved_save | by left].
    + split; [by split | by left].
  - split; [by apply counter_saved_boot |]. left. split; [done |].
    exact Hc.
  - split; [| by left]. split; [done |]. simpl. rewrite <- Hc.
    unfold counter_on_disk, boot, loadSavedMetadata. simpl.
    by destruct (metadata d).
Qed.

Lemma history_counter ops w :
  counter_saved w ->
  let r := history ops w in
  counter_saved (snd r) /\
  StronglySorted Z.lt (fst r) /\
  Forall (fun i => currentId (fst w) <= i < currentId (fst (snd r))) (fst r) /\
  currentId (fst w) <= currentId (fst (snd r)).
Proof.
  revert w. induction ops as [|o ops IH]; intros w Hs; simpl.
  - repeat split; try apply Hs; try constructor. lia.
  - destruct (apply_counter w o Hs) as [Hs' Hcase].
    destruct (apply w o) as [issued w']. simpl in Hs', Hcase.
    destruct (IH w' Hs') as (Hs'' & Hsorted & Hrange & Hle).
    destruct (history ops w') as [later w'']. simpl in *.
    destruct Hcase as [[-> Hc] | [-> Hc]]; simpl; rewrite Hc in *.
    + done.
    + repeat split; try apply Hs''; [| | lia].
      * constructor; [done |]. eapply Forall_impl; [exact Hrange |].
        simpl. lia.
      * constructor; [lia |]. eapply Forall_impl; [exact Hrange |].
        simpl. lia.
Qed.

Lemma StronglySorted_lookup (l : list Z) (i j : nat) a b :
  StronglySorted Z.lt l -> l !! i = Some a -> l !! j = Some b ->
  (i < j)%nat -> a < b.
Proof.
  intros Hs. revert i j. induction Hs as [|x l Hs IH Hall]; intros i j Hi Hj Hlt.
  - done.
  - destruct j as [|j]; [lia |]. simpl in Hj. destruct i as [|i]; simpl in Hi.
    + injection Hi as <-. rewrite Forall_forall in Hall. apply Hall.
      by apply list_elem_of_lookup_2 in Hj.
    + apply (IH i j); [done | done | lia].
Qed.

(** C2. Id allocation: along every history of creations, renames,
    deletions, restarts of the server and removals of files by others,
    begun on any disk whose sidecar can be written, each id that
    [createSong] returns is strictly greater than every id it returned
    before, so no id is issued twice, also after a deletion; the ids
    issued stay below the counter; and a store started on a disk takes
    its counter from the [nextId] of the sidecar, whatever records the
    sidecar lists. *)
Theorem id_allocation d ops :
  writable d = true ->
  let issued := fst (history ops (boot d)) in
  let w := snd (history ops (boot d)) in
  (forall (i j : nat) a b,
     issued !! i = Some a -> issued !! j = Some b -> (i < j)%nat -> a < b) /\
  NoDup issued /\
  Forall (fun i => i < currentId (fst w)) issued /\
  counter_on_disk (snd w) = currentId (fst w) /\
  (forall d1 l n, metadata d1 = Saved l n -> currentId (fst (boot d1)) = n).
Proof.
  intros Hw. cbv zeta.
  destruct (history_counter ops (boot d) (counter_saved_boot d Hw))
    as ([_ Hc] & Hsorted & Hrange & _).
  split; [| split; [| split; [| split]]].
  - intros i j a b. by apply StronglySorted_lookup.
  - apply NoDup_alt. intros i j a Hi Hj.
    destruct (Nat.lt_trichotomy i j) as [Hlt | [-> | Hlt]]; [| done |].
    + pose proof (StronglySorted_lookup _ _ _ _ _ Hsorted Hi Hj Hlt). lia.
    + pose proof (StronglySorted_lookup _ _ _ _ _ Hsorted Hj Hi Hlt). lia.
  - eapply Forall_impl; [exact Hrange |]. simpl. lia.
  - exact Hc.
  - intros d1 l n H. exact (counter_on_disk_Saved d1 l n H).
Qed.

(** A history with a deletion, a file removed by someone else and a
    restart: song 3 no longer survives, yet the next id is 4. *)
Lemma id_allocation_witness :
  let ops := Samples.uploads ++
             [Delete (mkDeleteSongInput 1); RemovedOutside "/u/c.wav";
              Restart; Create Samples.draftA] in
  fst (history ops (boot Samples.disk0)) = [1; 2; 3; 4] /\
  map id (getAllSongs (fst (snd (history ops (boot Samples.disk0))))) = [2; 4] /\
  NoDup (fst (history ops (boot Samples.disk0))).
Proof.
  cbv zeta. split; [reflexivity |]. split; [reflexivity |].
  apply (id_allocation Samples.disk0). reflexivity.
Defined.

(** *** Deleting *)

Lemma map_get_delete_ne k k' m :
  k' <> k -> map_get k' (snd (map_delete k m)) = map_get k' m.
Proof.
  intros Hne. unfold map_delete. simpl.
  induction m as [|[k0 v0] m IH]; [done |].
  rewrite filter_cons. simpl. destruct (decide _) as [Hk|Hk]; simpl.
  - by rewrite IH.
  - rewrite IH. destruct (k' =? k0) eqn:E; [| done].
    apply Z.eqb_eq in E. subst k0. exfalso. apply Hk.
    apply Z.eqb_neq in Hne. rewrite Z.eqb_sym in Hne. by rewrite Hne.
Qed.

Lemma unlink_removes p d d' : unlink p d = Some d' -> existsSync d' p = false.
Proof.
  unfold unlink. destruct (bool_decide _); [done |]. intros [= <-].
  unfold existsSync. simpl. apply bool_decide_eq_false.
  intros Hin. by apply list_elem_of_filter in Hin as [Hne _].
Qed.

(** C5. [deleteSong]: on an absent id it returns [false] and leaves store
    and disk as they are; on a present id whose backing file is missing
    it removes the record, persists and returns [true], and so it does
    when the file is there and [unlink] removes it (the one failure left
    is an [unlink] that rejects: [false], nothing changed); the record
    removed is the one with that id and no other; and after a delete that
    returned [true], a second delete of the same id returns [false] and
    changes nothing. The function is total: no outcome is an exception. *)
Theorem deleteSong_spec input st d :
  let k := del_id input in
  let st' := mkFileStorage (snd (map_delete k (songs st))) (currentId st) in
  (getSong k st = None -> deleteSong input (st, d) = (false, (st, d))) /\
  (forall song, getSong k st = Some song ->
     existsSync d (path song) = false ->
     deleteSong input (st, d) = (true, (st', saveMetadata st' d))) /\
  (forall song d1, getSong k st = Some song ->
     existsSync d (path song) = true -> unlink (path song) d = Some d1 ->
     deleteSong input (st, d) = (true, (st', saveMetadata st' d1)) /\
     existsSync d1 (path song) = false) /\
  (forall song, getSong k st = Some song ->
     existsSync d (path song) = true -> unlink (path song) d = None ->
     deleteSong input (st, d) = (false, (st, d))) /\
  (getSong k st' = None /\
   forall k', k' <> k -> getSong k' st' = getSong k' st) /\
  (forall d1, writable d1 = true ->
     metadata (saveMetadata st' d1) = Saved (getAllSongs st') (currentId st')) /\
  (forall w', deleteSong input (st, d) = (true, w') ->
     deleteSong input w' = (false, w')).
Proof.
  cbv zeta. unfold getSong. simpl.
  split; [| split; [| split; [| split; [| split; [| split]]]]].
  - intros H. unfold deleteSong. by rewrite H.
  - intros song H Hfile. unfold deleteSong. rewrite H, Hfile.
    unfold map_delete, map_has. by rewrite H.
  - intros song d1 H Hfile Hun. unfold deleteSong. rewrite H, Hfile, Hun.
    unfold map_delete, map_has. rewrite H. split; [done |].
    by apply unlink_removes in Hun.
  - intros song H Hfile Hun. unfold deleteSong. by rewrite H, Hfile, Hun.
  - split; [apply map_get_delete |]. intros k' Hne. by apply map_get_delete_ne.
  - intros d1 Hw. unfold saveMetadata, writeFile. by rewrite Hw.
  - intros w'. unfold deleteSong at 1.
    destruct (map_get (del_id input) (songs st)) as [song|] eqn:E; [| done].
    destruct (if existsSync d (path song) then _ else _) as [d1|]; [| done].
    unfold map_delete. intros [= _ <-]. unfold deleteSong. simpl.
    change (filter _ (songs st)) with (snd (map_delete (del_id input) (songs st))).
    by rewrite map_get_delete.
Qed.

(** Deleting song 2 of the sample store after its file has gone, then
    deleting it again. *)
Lemma deleteSong_spec_witness :
  let input := mkDeleteSongInput 2 in
  let w := (fst Samples.world3, removeOutside "/u/b.mp3" (snd Samples.world3)) in
  fst (deleteSong input w) = true /\
  map id (getAllSongs (fst (snd (deleteSong input w)))) = [1; 3] /\
  deleteSong input (snd (deleteSong input w)) = (false, snd (deleteSong input w)).
Proof.
  cbv zeta. split; [reflexivity |]. split; [reflexivity |].
  destruct (deleteSong_spec (mkDeleteSongInput 2) (fst Samples.world3)
              (removeOutside "/u/b.mp3" (snd Samples.world3)))
    as (_ & _ & _ & _ & _ & _ & Hagain).
  apply Hagain. reflexivity.
Defined.

(** *** Renaming *)

(** C8. [renameSong]: on an absent id it returns [undefined] and leaves
    store and disk as they are; on a present id it returns the updated
    record, stores it under the same id and persists; the updated record
    has the new title, the artist given (the prior artist when none is
    given) and the id, duration, format, path and filename of the old
    one; every other record, the counter, and the place of the record in
    the sequence [getAllSongs] returns are as before. *)
Theorem renameSong_spec input st d :
  (getSong (rn_id input) st = None ->
     renameSong input (st, d) = (None, (st, d))) /\
  (forall song, getSong (rn_id input) st = Some song ->
     exists updated st',
       renameSong input (st, d) = (Some updated, (st', saveMetadata st' d)) /\
       title updated = rn_title input /\
       (rn_artist input = None -> artist updated = artist song) /\
       (forall a, rn_artist input = Some a -> a <> ""%string ->
          artist updated = Some a) /\
       id updated = id song /\
       duration updated = duration song /\
       format updated = format song /\
       path updated = path song /\
       filename updated = filename song /\
       getSong (rn_id input) st' = Some updated /\
       (forall k', k' <> rn_id input -> getSong k' st' = getSong k' st) /\
       currentId st' = currentId st /\
       exists i : nat,
         getAllSongs st !! i = Some song /\
         getAllSongs st' = <[i:=updated]> (getAllSongs st)).
Proof.
  unfold getSong. split.
  - intros H. unfold renameSong. by rewrite H.
  - intros song H. unfold renameSong. rewrite H.
    eexists _, _. split; [reflexivity |]. simpl.
    repeat match goal with |- _ /\ _ => split end; try done.
    + intros Hnone. by rewrite Hnone.
    + intros a Ha Hne. rewrite Ha. unfold or_string. simpl.
      destruct (String.eqb a "") eqn:E; [| done].
      by apply String.eqb_eq in E.
    + apply map_get_set_eq.
    + intros k' Hne. apply map_get_set_ne. congruence.
    + unfold getAllSongs. simpl. by apply map_values_set_present.
Qed.

(** Renaming song 2 of the sample store without giving an artist. *)
Lemma renameSong_spec_witness :
  let input := mkRenameSongInput 2 "B2" None in
  exists updated w',
    renameSong input Samples.world3 = (Some updated, w') /\
    title updated = "B2"%string /\ artist updated = Some "Unknown"%string /\
    map id (getAllSongs (fst w')) = [1; 2; 3].
Proof.
  cbv zeta.
  destruct (renameSong_spec (mkRenameSongInput 2 "B2" None)
              (fst Samples.world3) (snd Samples.world3)) as [_ Hpresent].
  destruct (Hpresent (mkSong 2 "B" (Some "Unknown"%string) (Some 0) "mp3"
                        "/u/b.mp3" "b.mp3") eq_refl)
    as (updated & st' & Heq & Htitle & Hart & _).
  exists updated, (st', saveMetadata st' (snd Samples.world3)).
  split; [exact Heq |]. split; [exact Htitle |].
  split; [exact (Hart eq_refl) |].
  vm_compute in Heq. injection Heq as _ <-. reflexivity.
Defined.

(** C10. An empty artist string is an omitted artist: [renameSong] with
    [artist: ""] does what it does with no artist at all, and on a stored
    song it returns a record whose artist is the song's prior artist. *)
Theorem renameSong_empty_artist k newTitle st d :
  renameSong (mkRenameSongInput k newTitle (Some ""%string)) (st, d) =
  renameSong (mkRenameSongInput k newTitle None) (st, d) /\
  (forall song, getSong k st = Some song ->
     exists updated w',
       renameSong (mkRenameSongInput k newTitle (Some ""%string)) (st, d) =
         (Some updated, w') /\
       artist updated = artist song /\
       getSong k (fst w') = Some updated).
Proof.
  split; [reflexivity |].
  intros song H. unfold getSong in H. unfold renameSong. simpl. rewrite H.
  eexists _, _. split; [reflexivity |]. simpl. split; [done |].
  apply map_get_set_eq.
Qed.

(** Clearing the artist of song 1 of the sample store keeps "Ann". *)
Lemma renameSong_empty_artist_witness :
  exists updated w',
    renameSong (mkRenameSongInput 1 "A2" (Some ""%string)) Samples.world3 =
      (Some updated, w') /\
    artist updated = Some "Ann"%string.
Proof.
  destruct (renameSong_empty_artist 1 "A2" (fst Samples.world3)
              (snd Samples.world3)) as [_ Hpresent].
  destruct (Hpresent Samples.songA eq_refl) as (updated & w' & Heq & Hart & _).
  exists updated, w'. split; [exact Heq | exact Hart].
Defined.

(** The dialog never omits the artist: a cleared field reaches
    [renameSong] as the empty string, which keeps the prior artist. *)
Lemma cleared_artist_field_keeps_artist trim song title st d :
  trim ""%string = ""%string ->
  trim title <> ""%string ->
  getSong (id song) st = Some song ->
  exists input updated w',
    RenameDialog.handleSubmit trim song title (Some ""%string) = Some input /\
    rn_artist input = Some ""%string /\
    renameSong input (st, d) = (Some updated, w') /\
    artist updated = artist song.
Proof.
  intros Hempty Htitle Hget. unfold RenameDialog.handleSubmit.
  destruct (String.eqb (trim title) "") eqn:E.
  { by apply String.eqb_eq in E. }
  rewrite Hempty. eexists _, _, _. split; [reflexivity |]. split; [done |].
  unfold renameSong. simpl. unfold getSong in Hget. rewrite Hget.
  split; reflexivity.
Qed.

(** What the hypothesis on the sidecar buys: when it cannot be written,
    a restart forgets the counter and an id is issued twice. *)
Example ids_repeat_when_unwritable :
  fst (history [Create Samples.draftA; Restart; Create Samples.draftB]
         (boot (mkDisk ["/u/a.mp3"; "/u/b.mp3"] [] NoFile false))) = [1; 1].
Proof. reflexivity. Qed.

End StorageProperties.

(** * Properties of the playlist controller *)

Section PlayerProperties.
Import Player.

(** The guard [index < 0 || index >= playlist.length] lets an index of
    the range through. *)
Ltac index_in_range :=
  apply orb_false_iff; split;
  [apply Z.ltb_ge; lia | rewrite Z.geb_leb; apply Z.leb_gt; lia].

(** *** Searching and shuffling *)

Lemma findIndex_range k l : -1 <= findIndex k l < Z.of_nat (length l).
Proof.
  unfold findIndex. destruct (list_find _ l) as [[i x]|] eqn:E; [| lia].
  apply list_find_Some in E as (Hi & _). apply lookup_lt_Some in Hi. lia.
Qed.

Lemma findIndex_found k l :
  findIndex k l <> -1 ->
  0 <= findIndex k l /\
  exists t, l !! Z.to_nat (findIndex k l) = Some t /\ id t = k.
Proof.
  unfold findIndex. destruct (list_find _ l) as [[i x]|] eqn:E; [| done].
  intros _. apply list_find_Some in E as (Hi & Hx & _).
  split; [lia |]. exists x. by rewrite Nat2Z.id.
Qed.

Lemma findIndex_elem k l t : t ∈ l -> id t = k -> findIndex k l <> -1.
Proof.
  intros Hin Hid. unfold findIndex.
  destruct (list_find_elem_of (fun s => id s = k) l t Hin Hid) as [[i x] ->].
  lia.
Qed.

Lemma swap_Permutation i j l : swap i j l ≡ₚ l.
Proof.
  unfold swap. destruct (l !! i) as [x|] eqn:Hi; [| done].
  destruct (l !! j) as [y|] eqn:Hj; [| done].
  by apply Permutation_insert_swap.
Qed.

Lemma fisher_yates_Permutation random i l : fisher_yates random i l ≡ₚ l.
Proof.
  revert l. induction i as [|i IH]; intros l; simpl; [done |].
  rewrite IH. apply swap_Permutation.
Qed.

(** *** The refs follow the list *)

Lemma coherent_frame s s' :
  songs s' = songs s -> playlistRef s' = playlistRef s ->
  shuffledPlaylistRef s' = shuffledPlaylistRef s ->
  currentSong s' = currentSong s -> currentIndexRef s' = currentIndexRef s ->
  coherent s -> coherent s'.
Proof. unfold coherent. by intros -> -> -> -> ->. Qed.

Lemma active_Permutation s : coherent s -> getCurrentPlaylist s ≡ₚ songs s.
Proof.
  intros (Hp & Hs & _). unfold getCurrentPlaylist.
  destruct (isShuffle s); [done | by rewrite Hp].
Qed.

Lemma active_length s :
  coherent s -> length (getCurrentPlaylist s) = length (songs s).
Proof. intros H. by rewrite (active_Permutation s H). Qed.

Lemma coherent_select s (i : Z) :
  coherent s -> 0 <= i < Z.of_nat (length (getCurrentPlaylist s)) ->
  coherent (setIsPlaying true
              (setCurrentSong (getCurrentPlaylist s !! Z.to_nat i)
                 (set_currentIndexRef i s))).
Proof.
  intros Hc Hi. pose proof (active_Permutation s Hc) as Hperm.
  pose proof (active_length s Hc) as Hlen.
  destruct Hc as (Hp & Hs & _). unfold coherent. simpl.
  split; [done |]. split; [done |].
  destruct (getCurrentPlaylist s !! Z.to_nat i) as [t|] eqn:E.
  - split; [lia |]. exists t. split; [| done].
    rewrite <- Hperm. by apply list_elem_of_lookup_2 in E.
  - apply lookup_ge_None in E. lia.
Qed.

Lemma coherent_songsChanged random new s :
  coherent s -> coherent (songsChanged random new s).
Proof.
  intros (_ & _ & Hcur). unfold songsChanged. simpl.
  destruct (currentSong s) as [cur|] eqn:Ecur.
  - destruct (findIndex (id cur) new =? -1) eqn:E; simpl.
    + destruct new as [|hd new']; simpl.
      * unfold coherent. by simpl.
      * unfold coherent. simpl. split; [done |].
        split; [apply fisher_yates_Permutation |]. split; [lia |].
        exists hd. split; [apply list_elem_of_here | done].
    + apply Z.eqb_neq in E. unfold coherent. simpl. rewrite Ecur.
      split; [done |]. split; [apply fisher_yates_Permutation |].
      pose proof (findIndex_range (id cur) new).
      destruct (findIndex_found _ _ E) as (? & t & Ht & Hid).
      split; [lia |]. exists t. split; [| done].
      by apply list_elem_of_lookup_2 in Ht.
  - unfold coherent. simpl. rewrite Ecur.
    split; [done |]. split; [apply fisher_yates_Permutation | done].
Qed.

Lemma coherent_playSong song s : coherent s -> coherent (playSong song s).
Proof.
  intros Hc. unfold playSong.
  destruct (findIndex (id song) (getCurrentPlaylist s) =? -1) eqn:E; [done |].
  apply Z.eqb_neq in E. simpl.
  pose proof (findIndex_range (id song) (getCurrentPlaylist s)) as Hr.
  destruct (findIndex_found _ _ E) as (Hpos & t & Ht & Hid).
  rewrite (active_length s Hc) in Hr.
  pose proof (active_Permutation s Hc) as Hperm.
  destruct Hc as (Hp & Hs & _). unfold coherent. simpl.
  split; [done |]. split; [done |]. split; [lia |].
  exists t. split; [| done]. rewrite <- Hperm.
  by apply list_elem_of_lookup_2 in Ht.
Qed.

Lemma coherent_togglePlay s : coherent s -> coherent (togglePlay s).
Proof.
  intros Hc. unfold togglePlay. destruct (currentSong s) eqn:Ecur.
  - destruct (isPlaying s); by apply (coherent_frame s).
  - destruct (0 <? Z.of_nat (length (songs s))) eqn:E; [| done].
    apply Z.ltb_lt in E. apply (coherent_select s 0 Hc).
    rewrite (active_length s Hc). lia.
Qed.

Lemma coherent_playNext s : coherent s -> coherent (playNext s).
Proof.
  intros Hc. unfold playNext.
  destruct (Z.of_nat (length (songs s)) =? 0); [done |].
  set (n := if _ >=? _ then 0 else _).
  destruct ((n <? 0) || (n >=? _)) eqn:E; [done |].
  apply orb_false_iff in E as [E1 E2]. apply (coherent_select s n Hc). lia.
Qed.

Lemma coherent_playPrevious s : coherent s -> coherent (playPrevious s).
Proof.
  intros Hc. unfold playPrevious.
  destruct (Z.of_nat (length (songs s)) =? 0); [done |].
  destruct (past_three_seconds (currentTime s)); [by apply (coherent_frame s) |].
  set (n := if _ <? 0 then _ else _).
  destruct ((n <? 0) || (n >=? _)) eqn:E; [done |].
  apply orb_false_iff in E as [E1 E2]. apply (coherent_select s n Hc). lia.
Qed.

Lemma coherent_relocate s l :
  coherent s -> l ≡ₚ songs s ->
  forall cur, currentSong s = Some cur ->
  0 <= findIndex (id cur) l < Z.of_nat (length (songs s)).
Proof.
  intros (_ & _ & Hcur) Hl cur Ecur. rewrite Ecur in Hcur.
  destruct Hcur as (_ & t & Ht & Hid).
  pose proof (findIndex_range (id cur) l) as Hr.
  pose proof (Permutation_length Hl) as Hlen.
  assert (findIndex (id cur) l <> -1); [| lia].
  apply (findIndex_elem _ _ t); [by rewrite Hl | done].
Qed.

Lemma coherent_toggleShuffle random s :
  coherent s -> coherent (toggleShuffle random s).
Proof.
  intros Hc. pose proof Hc as (Hp & Hs & Hcur).
  unfold toggleShuffle. destruct (isShuffle s); simpl.
  - destruct (currentSong s) as [cur|] eqn:Ecur; [| by apply (coherent_frame s)].
    unfold coherent. simpl. rewrite Ecur. split; [done |]. split; [done |].
    split; [apply (coherent_relocate s); [done | by rewrite Hp | done] |].
    apply Hcur.
  - assert (Hfy : fisher_yates random (length (playlistRef s) - 1)
                    (playlistRef s) ≡ₚ songs s).
    { rewrite fisher_yates_Permutation. by rewrite Hp. }
    destruct (currentSong s) as [cur|] eqn:Ecur.
    + unfold coherent. simpl. rewrite Ecur. split; [done |]. split; [done |].
      split; [by apply (coherent_relocate s) | apply Hcur].
    + unfold coherent. simpl. by rewrite Ecur.
Qed.

Lemma coherent_handleSongEnd now s : coherent s -> coherent (handleSongEnd now s).
Proof.
  intros Hc. unfold handleSongEnd. destruct (debounced now s); [done |].
  simpl. destruct (repeatMode s).
  - apply coherent_playNext. by apply (coherent_frame s).
  - apply coherent_playNext. by apply (coherent_frame s).
  - by apply (coherent_frame s).
Qed.

Lemma coherent_step s e : coherent s -> coherent (step s e).
Proof.
  intros Hc. destruct e; simpl.
  - by apply coherent_songsChanged.
  - by apply coherent_playSong.
  - by apply coherent_togglePlay.
  - by apply coherent_playNext.
  - by apply coherent_playPrevious.
  - by apply coherent_toggleShuffle.
  - unfold toggleRepeat. destruct (repeatMode s); by apply (coherent_frame s).
  - by apply coherent_handleSongEnd.
  - unfold handleTimeUpdate. destruct (near_end _ _).
    + apply coherent_handleSongEnd. by apply (coherent_frame s).
    + by apply (coherent_frame s).
  - by apply (coherent_frame s).
  - by apply (coherent_frame s).
Qed.

Lemma coherent_initial : coherent initial.
Proof. unfold coherent. by simpl. Qed.

Lemma coherent_run es s : coherent s -> coherent (run es s).
Proof.
  revert s. induction es as [|e es IH]; intros s Hc; simpl; [done |].
  apply IH. by apply coherent_step.
Qed.

Lemma reachable_coherent s : reachable s -> coherent s.
Proof. intros [es ->]. apply coherent_run, coherent_initial. Qed.

Lemma reachable_step s e : reachable s -> reachable (step s e).
Proof.
  intros [es ->]. exists (es ++ [e]). unfold run. by rewrite fold_left_app.
Qed.

Lemma coherent_cleared s : coherent s -> cleared s.
Proof.
  intros (_ & _ & Hcur) Hnil. rewrite Hnil in Hcur.
  destruct (currentSong s); [simpl in Hcur; lia | done].
Qed.

(** *** The index follows the current track *)

Lemma indexed_frame s s' :
  isShuffle s' = isShuffle s -> playlistRef s' = playlistRef s ->
  shuffledPlaylistRef s' = shuffledPlaylistRef s ->
  currentSong s' = currentSong s -> currentIndexRef s' = currentIndexRef s ->
  indexed s -> indexed s'.
Proof.
  unfold indexed, getCurrentPlaylist. by intros -> -> -> -> ->.
Qed.

Lemma indexed_select s (i : Z) :
  0 <= i < Z.of_nat (length (getCurrentPlaylist s)) ->
  indexed (setIsPlaying true
             (setCurrentSong (getCurrentPlaylist s !! Z.to_nat i)
                (set_currentIndexRef i s))).
Proof.
  intros Hi _. simpl.
  change (getCurrentPlaylist (setIsPlaying _ _)) with (getCurrentPlaylist s).
  destruct (getCurrentPlaylist s !! Z.to_nat i) as [t|] eqn:E.
  - by exists t, t.
  - apply lookup_ge_None in E. lia.
Qed.

Lemma indexed_songsChanged random new s :
  coherent s -> isShuffle s = false -> indexed (songsChanged random new s).
Proof.
  intros (_ & _ & Hcur) Hoff. unfold songsChanged. simpl.
  destruct (currentSong s) as [cur|] eqn:Ecur.
  - destruct (findIndex (id cur) new =? -1) eqn:E; simpl.
    + destruct new as [|hd new']; simpl.
      * intros Hneg. simpl in Hneg. lia.
      * intros _. unfold getCurrentPlaylist. simpl. rewrite Hoff.
        by exists hd, hd.
    + apply Z.eqb_neq in E.
      destruct (findIndex_found _ _ E) as (_ & t & Ht & Hid).
      intros _. unfold getCurrentPlaylist. simpl. rewrite Hoff.
      by exists t, cur.
  - intros Hneg. simpl in Hneg. lia.
Qed.

Lemma indexed_playSong song s : indexed s -> indexed (playSong song s).
Proof.
  intros Hi. unfold playSong.
  destruct (findIndex (id song) (getCurrentPlaylist s) =? -1) eqn:E; [done |].
  apply Z.eqb_neq in E. simpl.
  destruct (findIndex_found _ _ E) as (_ & t & Ht & Hid).
  intros _. simpl.
  change (getCurrentPlaylist (setIsPlaying _ _)) with (getCurrentPlaylist s).
  by exists t, song.
Qed.

Lemma indexed_togglePlay s : coherent s -> indexed s -> indexed (togglePlay s).
Proof.
  intros Hc Hi. unfold togglePlay. destruct (currentSong s) eqn:Ecur.
  - destruct (isPlaying s); by apply (indexed_frame s).
  - destruct (0 <? Z.of_nat (length (songs s))) eqn:E; [| done].
    apply Z.ltb_lt in E. apply (indexed_select s 0).
    rewrite (active_length s Hc). lia.
Qed.

Lemma indexed_playNext s : indexed s -> indexed (playNext s).
Proof.
  intros Hi. unfold playNext.
  destruct (Z.of_nat (length (songs s)) =? 0); [done |].
  set (n := if _ >=? _ then 0 else _).
  destruct ((n <? 0) || (n >=? _)) eqn:E; [done |].
  apply orb_false_iff in E as [E1 E2]. apply (indexed_select s n). lia.
Qed.

Lemma indexed_playPrevious s : indexed s -> indexed (playPrevious s).
Proof.
  intros Hi. unfold playPrevious.
  destruct (Z.of_nat (length (songs s)) =? 0); [done |].
  destruct (past_three_seconds (currentTime s)); [by apply (indexed_frame s) |].
  set (n := if _ <? 0 then _ else _).
  destruct ((n <? 0) || (n >=? _)) eqn:E; [done |].
  apply orb_false_iff in E as [E1 E2]. apply (indexed_select s n). lia.
Qed.

(** Toggling shuffle files the index in the sequence that becomes
    active, whatever it was before. *)
Lemma indexed_toggleShuffle random s :
  coherent s -> indexed (toggleShuffle random s).
Proof.
  intros Hc. pose proof Hc as (Hp & Hs & Hcur).
  unfold toggleShuffle. destruct (isShuffle s) eqn:Esh; simpl.
  - destruct (currentSong s) as [cur|] eqn:Ecur.
    + pose proof (coherent_relocate s (playlistRef s) Hc) as Hr.
      rewrite Hp in Hr. specialize (Hr (reflexivity _) cur Ecur).
      assert (Hne : findIndex (id cur) (songs s) <> -1) by lia.
      destruct (findIndex_found _ _ Hne) as (_ & t & Ht & Hid).
      intros _. unfold getCurrentPlaylist. simpl. rewrite Hp.
      by exists t, cur.
    + intros Hneg. simpl in Hneg. lia.
  - destruct (currentSong s) as [cur|] eqn:Ecur.
    + assert (Hfy : fisher_yates random (length (playlistRef s) - 1)
                      (playlistRef s) ≡ₚ songs s).
      { rewrite fisher_yates_Permutation. by rewrite Hp. }
      pose proof (coherent_relocate s _ Hc Hfy cur Ecur) as Hr.
      assert (Hne : findIndex (id cur) (fisher_yates random
                (length (playlistRef s) - 1) (playlistRef s)) <> -1) by lia.
      destruct (findIndex_found _ _ Hne) as (_ & t & Ht & Hid).
      intros _. unfold getCurrentPlaylist. simpl. by exists t, cur.
    + intros Hneg. simpl in Hneg. lia.
Qed.

Lemma indexed_handleSongEnd now s : indexed s -> indexed (handleSongEnd now s).
Proof.
  intros Hi. unfold handleSongEnd. destruct (debounced now s); [done |].
  simpl. destruct (repeatMode s).
  - apply indexed_playNext. by apply (indexed_frame s).
  - apply indexed_playNext. by apply (indexed_frame s).
  - by apply (indexed_frame s).
Qed.

(** Every event keeps the index on the current track, except a new list
    that arrives while shuffle is on. *)
Lemma indexed_step s e :
  coherent s -> indexed s ->
  (forall random new, e = SongsChanged random new -> isShuffle s = false) ->
  indexed (step s e).
Proof.
  intros Hc Hi Hoff. destruct e; simpl.
  - apply indexed_songsChanged; [done |]. by eapply Hoff.
  - by apply indexed_playSong.
  - by apply indexed_togglePlay.
  - by apply indexed_playNext.
  - by apply indexed_playPrevious.
  - by apply indexed_toggleShuffle.
  - unfold toggleRepeat. destruct (repeatMode s); by apply (indexed_frame s).
  - by apply indexed_handleSongEnd.
  - unfold handleTimeUpdate. destruct (near_end _ _).
    + apply indexed_handleSongEnd. by apply (indexed_frame s).
    + by apply (indexed_frame s).
  - by apply (indexed_frame s).
  - by apply (indexed_frame s).
Qed.

Lemma indexed_run es s :
  coherent s -> indexed s -> lists_arrive_unshuffled es s -> indexed (run es s).
Proof.
  revert s. induction es as [|e es IH]; intros s Hc Hi Hes; simpl; [done |].
  destruct Hes as [He Hes]. apply IH; [by apply coherent_step | | done].
  apply indexed_step; [done | done |]. by intros random new ->.
Qed.

(** The index invariant holds after every history in which no new list
    arrives while shuffle is on; its second half, that an empty list
    leaves no current track and index -1, holds after every history. *)
Lemma index_invariant_unshuffled es :
  lists_arrive_unshuffled es initial -> index_invariant (run es initial).
Proof.
  intros Hes. split.
  - apply indexed_run; [apply coherent_initial | | done].
    intros Hneg. simpl in Hneg. lia.
  - apply coherent_cleared, coherent_run, coherent_initial.
Qed.

Lemma reachable_cleared s : reachable s -> cleared s.
Proof. intros Hr. by apply coherent_cleared, reachable_coherent. Qed.

Example shuffle_first : fisher_yates Samples.always_first 2
    [Samples.songA; Samples.songB; Samples.songC] =
  [Samples.songB; Samples.songC; Samples.songA].
Proof. reflexivity. Qed.

Example next_three_times :
  map (fun n => id <$> currentSong (Nat.iter n playNext Samples.playingA))
    [0; 1; 2; 3]%nat = [Some 1; Some 2; Some 3; Some 1].
Proof. reflexivity. Qed.

(** C1. The index invariant does not hold in every reachable state: with
    shuffle on, the effect that follows a new list files the index of the
    current track in the straight order, while the active sequence is the
    fresh shuffle. After the events of [shuffled_then_uploaded] the
    current track is A (id 1), the index is 0, and position 0 of the
    active sequence holds B (id 2). *)
Theorem index_invariant_broken_under_shuffle :
  let s := run Samples.shuffled_then_uploaded initial in
  reachable s /\
  isShuffle s = true /\
  currentSong s = Some Samples.songA /\
  currentIndexRef s = 0 /\
  getCurrentPlaylist s !! 0%nat = Some Samples.songB /\
  ~ index_invariant s.
Proof.
  cbv zeta. split; [by exists Samples.shuffled_then_uploaded |].
  repeat (split; [reflexivity |]).
  intros [Hidx _]. destruct Hidx as (t & cur & Ht & Hcur & Hsame).
  - vm_compute. discriminate.
  - vm_compute in Ht, Hcur. injection Ht as <-. injection Hcur as <-.
    vm_compute in Hsame. discriminate.
Qed.

(** *** Next *)

Lemma playNext_empty_list s : songs s = [] -> playNext s = s.
Proof. intros H. unfold playNext. by rewrite H. Qed.

Lemma playNext_empty_sequence s : getCurrentPlaylist s = [] -> playNext s = s.
Proof.
  intros H. unfold playNext. rewrite H. simpl.
  destruct (Z.of_nat (length (songs s)) =? 0); [done |].
  change (Z.of_nat 0) with 0.
  destruct (currentIndexRef s + 1 >=? 0) eqn:E; simpl; [done |].
  assert ((currentIndexRef s + 1 <? 0) = true) as ->; [| done].
  apply Z.ltb_lt. rewrite Z.geb_leb in E. apply Z.leb_gt in E. lia.
Qed.

Lemma playNext_move s :
  songs s <> [] ->
  0 <= currentIndexRef s < Z.of_nat (length (getCurrentPlaylist s)) ->
  playNext s =
    let next := (currentIndexRef s + 1)
                  mod Z.of_nat (length (getCurrentPlaylist s)) in
    setIsPlaying true
      (setCurrentSong (getCurrentPlaylist s !! Z.to_nat next)
         (set_currentIndexRef next s)).
Proof.
  intros Hsongs Hi. unfold playNext.
  destruct (Z.of_nat (length (songs s)) =? 0) eqn:E.
  { apply Z.eqb_eq in E. destruct (songs s); [done | simpl in E; lia]. }
  set (N := Z.of_nat (length (getCurrentPlaylist s))) in *.
  destruct (currentIndexRef s + 1 >=? N) eqn:Ewrap.
  - rewrite Z.geb_leb in Ewrap. apply Z.leb_le in Ewrap.
    assert (currentIndexRef s + 1 = N) as -> by lia.
    rewrite Z_mod_same_full.
    assert (((0 <? 0) || (0 >=? N)) = false) as -> by index_in_range.
    done.
  - rewrite Z.geb_leb in Ewrap. apply Z.leb_gt in Ewrap.
    rewrite Z.mod_small by lia.
    assert (((currentIndexRef s + 1 <? 0) || (currentIndexRef s + 1 >=? N))
            = false) as -> by index_in_range.
    done.
Qed.

Lemma playNext_iter s (k : nat) :
  songs s <> [] ->
  0 <= currentIndexRef s < Z.of_nat (length (getCurrentPlaylist s)) ->
  let N := Z.of_nat (length (getCurrentPlaylist s)) in
  let sk := Nat.iter k playNext s in
  songs sk = songs s /\
  getCurrentPlaylist sk = getCurrentPlaylist s /\
  currentIndexRef sk = (currentIndexRef s + Z.of_nat k) mod N /\
  ((0 < k)%nat ->
   currentSong sk =
     getCurrentPlaylist s !! Z.to_nat ((currentIndexRef s + Z.of_nat k) mod N)).
Proof.
  intros Hsongs Hi. cbv zeta. induction k as [|k IH].
  - simpl. rewrite Z.add_0_r, Z.mod_small by lia. repeat split; try done; lia.
  - destruct IH as (Hs & Hp & Hidx & _). rewrite Nat.iter_succ.
    set (sk := Nat.iter k playNext s) in *.
    assert (Hrange : 0 <= currentIndexRef sk
                     < Z.of_nat (length (getCurrentPlaylist sk))).
    { rewrite Hp, Hidx. apply Z.mod_pos_bound. lia. }
    rewrite (playNext_move sk); [| by rewrite Hs | done].
    cbv zeta. rewrite Hp, Hidx. rewrite Zplus_mod_idemp_l.
    replace (currentIndexRef s + Z.of_nat k + 1)
      with (currentIndexRef s + Z.of_nat (S k)) by lia.
    simpl. repeat split; done.
Qed.

Lemma playNext_repeatMode mode s :
  playNext (setRepeatMode mode s) = setRepeatMode mode (playNext s).
Proof.
  unfold playNext. simpl.
  change (getCurrentPlaylist (setRepeatMode mode s)) with (getCurrentPlaylist s).
  destruct (Z.of_nat (length (songs s)) =? 0); [done |].
  by destruct (_ || _).
Qed.

Lemma coherent_nonempty s :
  coherent s -> getCurrentPlaylist s <> [] -> songs s <> [].
Proof.
  intros Hc Hne Hnil. apply Hne. apply length_zero_iff_nil.
  by rewrite (active_length s Hc), Hnil.
Qed.

(** What [playNext] does in every reachable state: with an active
    sequence of length N > 0 and the current index i in [0, N), it sets
    the index to (i + 1) mod N and the current track to the element of
    the sequence at that index, leaving the sequence as it is; the
    repeat mode plays no part; with an empty list, or an empty active
    sequence, it changes nothing; and N calls in a row bring the index
    back to i and the current track to the element at i, which is the
    track they started from when the index was on that track. *)
Theorem playNext_spec s :
  reachable s ->
  let playlist := getCurrentPlaylist s in
  let N := Z.of_nat (length playlist) in
  let i := currentIndexRef s in
  (songs s = [] -> playNext s = s) /\
  (playlist = [] -> playNext s = s) /\
  (forall mode, playNext (setRepeatMode mode s) = setRepeatMode mode (playNext s)) /\
  (0 <= i < N ->
     let next := (i + 1) mod N in
     0 <= next < N /\
     currentIndexRef (playNext s) = next /\
     currentSong (playNext s) = playlist !! Z.to_nat next /\
     is_Some (playlist !! Z.to_nat next) /\
     getCurrentPlaylist (playNext s) = playlist) /\
  (0 <= i < N ->
     let back := Nat.iter (length playlist) playNext s in
     currentIndexRef back = i /\
     currentSong back = playlist !! Z.to_nat i /\
     (currentSong s = playlist !! Z.to_nat i -> currentSong back = currentSong s)).
Proof.
  intros Hr. apply reachable_coherent in Hr. cbv zeta.
  split; [apply playNext_empty_list |].
  split; [apply playNext_empty_sequence |].
  split; [intros mode; apply playNext_repeatMode |].
  assert (Hsongs : 0 <= currentIndexRef s
                   < Z.of_nat (length (getCurrentPlaylist s)) -> songs s <> []).
  { intros Hi. apply (coherent_nonempty s Hr).
    destruct (getCurrentPlaylist s); [simpl in Hi; lia | done]. }
  split.
  - intros Hi. rewrite (playNext_move s (Hsongs Hi) Hi). cbv zeta. simpl.
    assert (Hnext : 0 <= (currentIndexRef s + 1)
                      mod Z.of_nat (length (getCurrentPlaylist s))
                    < Z.of_nat (length (getCurrentPlaylist s))).
    { apply Z.mod_pos_bound. lia. }
    repeat split; try done; try lia.
    apply lookup_lt_is_Some. lia.
  - intros Hi.
    destruct (playNext_iter s (length (getCurrentPlaylist s)) (Hsongs Hi) Hi)
      as (_ & _ & Hidx & Hcur).
    assert (Hback : (currentIndexRef s +
                       Z.of_nat (length (getCurrentPlaylist s)))
                    mod Z.of_nat (length (getCurrentPlaylist s)) =
                    currentIndexRef s).
    { rewrite <- (Z.mul_1_l (Z.of_nat (length (getCurrentPlaylist s)))) at 1.
      rewrite Z_mod_plus_full. apply Z.mod_small. lia. }
    rewrite Hback in Hidx, Hcur. split; [done |].
    assert (Hsome : currentSong (Nat.iter (length (getCurrentPlaylist s))
                                   playNext s) =
                    getCurrentPlaylist s !! Z.to_nat (currentIndexRef s)).
    { apply Hcur. lia. }
    split; [done |]. intros Hstart. by rewrite Hsome.
Qed.

(** From track A of the sample library: one call moves to B, three calls
    come back to A. *)
Lemma playNext_spec_witness :
  currentIndexRef (playNext Samples.playingA) = 1 /\
  currentSong (playNext Samples.playingA) = Some Samples.songB /\
  currentSong (Nat.iter 3 playNext Samples.playingA) = Some Samples.songA.
Proof.
  assert (Hr : reachable Samples.playingA) by (by eexists).
  destruct (playNext_spec Samples.playingA Hr) as (_ & _ & _ & Hmove & Hback).
  assert (Hi : 0 <= currentIndexRef Samples.playingA
               < Z.of_nat (length (getCurrentPlaylist Samples.playingA)))
    by (vm_compute; split; [discriminate | reflexivity]).
  destruct (Hmove Hi) as (_ & Hidx & Hcur & _).
  destruct (Hback Hi) as (_ & Hsong & _).
  split; [exact Hidx |]. split; [exact Hcur | exact Hsong].
Defined.

(** C4. The code at the failing input. After the events of C1 (the
    list arrives, shuffle is switched on, A is clicked, the list arrives
    again with one more track) the current track is A and the index is
    0, within the active sequence of length 4, whose position 0 holds B.
    [playNext] moves by the index alone: four calls in a row bring the
    index back to 0 and end on B, not on the track they started from. *)
Theorem playNext_returns_to_another_track :
  let s := MoreSamples.off_track in
  reachable s /\
  isShuffle s = true /\
  length (getCurrentPlaylist s) = 4%nat /\
  currentIndexRef s = 0 /\
  currentSong s = Some Samples.songA /\
  getCurrentPlaylist s !! 0%nat = Some Samples.songB /\
  currentIndexRef (Nat.iter 4 playNext s) = 0 /\
  currentSong (Nat.iter 4 playNext s) = Some Samples.songB /\
  id Samples.songB <> id Samples.songA.
Proof.
  cbv zeta. split; [by exists Samples.shuffled_then_uploaded |].
  repeat split; try reflexivity. vm_compute. discriminate.
Qed.

(** *** Previous *)

Lemma past_three_seconds_spec t : past_three_seconds t = true <-> (3 < t)%Q.
Proof.
  unfold past_three_seconds. rewrite negb_true_iff.
  split.
  - intros H. apply Qnot_le_lt. intros Hle.
    apply Qle_bool_iff in Hle. congruence.
  - intros H. destruct (Qle_bool t 3) eqn:E; [| done].
    apply Qle_bool_iff in E. by apply Qlt_not_le in H.
Qed.

Lemma past_three_seconds_not t : past_three_seconds t = false <-> (t <= 3)%Q.
Proof.
  unfold past_three_seconds. rewrite negb_false_iff. apply Qle_bool_iff.
Qed.

Lemma playPrevious_move s :
  songs s <> [] -> past_three_seconds (currentTime s) = false ->
  -1 <= currentIndexRef s < Z.of_nat (length (getCurrentPlaylist s)) ->
  0 < Z.of_nat (length (getCurrentPlaylist s)) ->
  playPrevious s =
    let prev := if currentIndexRef s <=? 0
                then Z.of_nat (length (getCurrentPlaylist s)) - 1
                else currentIndexRef s - 1 in
    setIsPlaying true
      (setCurrentSong (getCurrentPlaylist s !! Z.to_nat prev)
         (set_currentIndexRef prev s)).
Proof.
  intros Hsongs Htime Hi HN. unfold playPrevious. rewrite Htime.
  destruct (Z.of_nat (length (songs s)) =? 0) eqn:E.
  { apply Z.eqb_eq in E. destruct (songs s); [done | simpl in E; lia]. }
  set (N := Z.of_nat (length (getCurrentPlaylist s))) in *. cbv zeta.
  destruct (currentIndexRef s <=? 0) eqn:Elow.
  - apply Z.leb_le in Elow.
    assert ((currentIndexRef s - 1 <? 0) = true) as -> by (apply Z.ltb_lt; lia).
    assert (((N - 1 <? 0) || (N - 1 >=? N)) = false) as -> by index_in_range.
    done.
  - apply Z.leb_gt in Elow.
    assert ((currentIndexRef s - 1 <? 0) = false) as -> by (apply Z.ltb_ge; lia).
    assert (((currentIndexRef s - 1 <? 0) || (currentIndexRef s - 1 >=? N))
            = false) as -> by index_in_range.
    done.
Qed.

Lemma coherent_index_range s :
  coherent s -> -1 <= currentIndexRef s < Z.of_nat (length (songs s)) \/
                (songs s = [] /\ currentIndexRef s = -1).
Proof.
  intros (_ & _ & Hcur). destruct (currentSong s).
  - left. lia.
  - destruct (songs s); [by right | left; simpl; lia].
Qed.

(** The hook's function can also be called with no track selected,
    which the interface never does, its Previous button being disabled
    then: the index is -1, [playPrevious] selects the last track, index
    2, while (-1 - 1) mod 3 is 1. *)
Lemma playPrevious_without_track :
  reachable Samples.loaded /\ currentSong Samples.loaded = None /\
  ~ playPrevious_as_specified Samples.loaded.
Proof.
  split; [by eexists |]. split; [reflexivity |].
  unfold playPrevious_as_specified. intros H.
  assert (Hne : getCurrentPlaylist Samples.loaded <> []) by (vm_compute; discriminate).
  specialize (H Hne). vm_compute in H. discriminate.
Qed.

(** C6. [playPrevious], in every reachable state with a current track,
    the states in which the interface enables Previous: the active
    sequence is not empty, of length N, and the index i lies in [0, N);
    what the specification says holds; if the elapsed time is over 3
    seconds it calls [seek(0)] on the player and changes neither index
    nor track (and [seek(0)] puts an element of known duration at
    position 0); otherwise it moves the index to (i - 1) mod N and the
    current track to the element there, so from index 0 to the last
    track. *)
Theorem playPrevious_spec s :
  reachable s ->
  is_Some (currentSong s) ->
  let playlist := getCurrentPlaylist s in
  let N := Z.of_nat (length playlist) in
  let i := currentIndexRef s in
  playlist <> [] /\
  0 <= i < N /\
  playPrevious_as_specified s /\
  ((3 < currentTime s)%Q ->
     playPrevious s = audio (AudioPlayer.Seek 0) s /\
     currentIndexRef (playPrevious s) = i /\
     currentSong (playPrevious s) = currentSong s /\
     audioCalls (playPrevious s) = audioCalls s ++ [AudioPlayer.Seek 0] /\
     forall a d, AudioPlayer.duration a = Some d -> (0 <= d)%Q ->
       AudioPlayer.currentTime (AudioPlayer.perform (AudioPlayer.Seek 0) a)
       = 0%Q) /\
  ((currentTime s <= 3)%Q ->
     let prev := (i - 1) mod N in
     0 <= prev < N /\
     (i = 0 -> prev = N - 1) /\
     currentIndexRef (playPrevious s) = prev /\
     currentSong (playPrevious s) = playlist !! Z.to_nat prev /\
     is_Some (playlist !! Z.to_nat prev)).
Proof.
  intros Hr [cur Hcur]. apply reachable_coherent in Hr. cbv zeta.
  pose proof (active_length s Hr) as Hlen.
  assert (Hi : 0 <= currentIndexRef s
               < Z.of_nat (length (getCurrentPlaylist s))).
  { destruct Hr as (_ & _ & Hc). rewrite Hcur in Hc. rewrite Hlen. apply Hc. }
  assert (Hne : getCurrentPlaylist s <> []).
  { intros Hnil. rewrite Hnil in Hi. simpl in Hi. lia. }
  pose proof (coherent_nonempty s Hr Hne) as Hsongs.
  assert (HN : 0 < Z.of_nat (length (getCurrentPlaylist s))) by lia.
  assert (Hrange : -1 <= currentIndexRef s
                   < Z.of_nat (length (getCurrentPlaylist s))) by lia.
  assert (Hrestart : past_three_seconds (currentTime s) = true ->
                     playPrevious s = audio (AudioPlayer.Seek 0) s).
  { intros Ht. unfold playPrevious. rewrite Ht.
    destruct (Z.of_nat (length (songs s)) =? 0) eqn:E; [| done].
    apply Z.eqb_eq in E. lia. }
  assert (Hprev : (if currentIndexRef s <=? 0
           then Z.of_nat (length (getCurrentPlaylist s)) - 1
           else currentIndexRef s - 1) =
          (currentIndexRef s - 1) mod Z.of_nat (length (getCurrentPlaylist s))).
  { destruct (currentIndexRef s <=? 0) eqn:E.
    - apply Z.leb_le in E. assert (currentIndexRef s = 0) as -> by lia.
      apply Z.mod_unique_pos with (q := -1); lia.
    - apply Z.leb_gt in E. symmetry. apply Z.mod_small. lia. }
  assert (Hmove : past_three_seconds (currentTime s) = false ->
            currentIndexRef (playPrevious s) =
              (currentIndexRef s - 1) mod Z.of_nat (length (getCurrentPlaylist s)) /\
            currentSong (playPrevious s) =
              getCurrentPlaylist s !!
                Z.to_nat ((currentIndexRef s - 1)
                            mod Z.of_nat (length (getCurrentPlaylist s)))).
  { intros Ht. rewrite (playPrevious_move s Hsongs Ht Hrange HN). cbv zeta.
    simpl. by rewrite Hprev. }
  split; [done |]. split; [done |]. split; [| split].
  - unfold playPrevious_as_specified. cbv zeta. intros _.
    destruct (past_three_seconds (currentTime s)) eqn:Ht.
    + by apply Hrestart.
    + by apply Hmove.
  - intros Ht. apply past_three_seconds_spec in Ht.
    rewrite (Hrestart Ht). repeat split; try done.
    intros a d Hd Hpos. simpl. unfold AudioPlayer.seek. rewrite Hd.
    apply Qle_bool_iff in Hpos. simpl. by rewrite Hpos.
  - intros Ht. apply past_three_seconds_not in Ht.
    destruct (Hmove Ht) as [Hidx Hsong].
    assert (Hb : 0 <= (currentIndexRef s - 1)
                   mod Z.of_nat (length (getCurrentPlaylist s))
                 < Z.of_nat (length (getCurrentPlaylist s))).
    { apply Z.mod_pos_bound. lia. }
    split; [done |]. split.
    { intros H0. rewrite H0. symmetry.
      apply Z.mod_unique_pos with (q := -1); lia. }
    split; [done |]. split; [done |]. apply lookup_lt_is_Some. lia.
Qed.

(** Track A plays at index 0 with no time elapsed: Previous wraps to C,
    the last track. *)
Lemma playPrevious_spec_witness :
  currentIndexRef (playPrevious Samples.playingA) = 2 /\
  currentSong (playPrevious Samples.playingA) = Some Samples.songC.
Proof.
  assert (Hr : reachable Samples.playingA) by (by eexists).
  assert (Hcur : is_Some (currentSong Samples.playingA))
    by (by exists Samples.songA).
  destruct (playPrevious_spec Samples.playingA Hr Hcur) as (_ & _ & _ & _ & Hmove).
  assert (Ht : (currentTime Samples.playingA <= 3)%Q)
    by (vm_compute; discriminate).
  destruct (Hmove Ht) as (_ & _ & Hidx & Hsong & _).
  split; [exact Hidx | exact Hsong].
Defined.

(** *** End of track *)

Lemma playNext_lastEndedRef s : lastEndedRef (playNext s) = lastEndedRef s.
Proof.
  unfold playNext. destruct (Z.of_nat (length (songs s)) =? 0); [done |].
  by destruct (_ || _).
Qed.

Lemma debounced_spec now s :
  debounced now s = true <->
  exists last, lastEndedRef s = Some last /\ last <> 0 /\ now - last < 1000.
Proof.
  unfold debounced. destruct (lastEndedRef s) as [last|].
  - rewrite andb_true_iff, negb_true_iff, Z.eqb_neq, Z.ltb_lt. split.
    + intros [? ?]. by exists last.
    + by intros (? & [= <-] & ? & ?).
  - split; [done | by intros (? & ? & _)].
Qed.

(** C7. [handleSongEnd]: a signal that is not within one second of the
    last handled one is handled, and its time recorded; with repeat mode
    [one] the handler calls [seek(0)] and [play()] on the player (which
    leave an element of known duration playing at position 0) and
    changes neither index nor track; with any other mode it does what
    [playNext] does. A signal less than 1000 ms after the last handled
    one is ignored: the state is returned as it is; so a signal that
    follows a handled one within the second changes nothing. *)
Theorem handleSongEnd_spec now s :
  (debounced now s = false -> repeatMode s = repeat_one ->
     handleSongEnd now s =
       audio AudioPlayer.Play
         (audio (AudioPlayer.Seek 0) (set_lastEndedRef (Some now) s)) /\
     currentIndexRef (handleSongEnd now s) = currentIndexRef s /\
     currentSong (handleSongEnd now s) = currentSong s /\
     audioCalls (handleSongEnd now s) =
       audioCalls s ++ [AudioPlayer.Seek 0; AudioPlayer.Play] /\
     forall a d, AudioPlayer.duration a = Some d -> (0 <= d)%Q ->
       let a' := AudioPlayer.perform AudioPlayer.Play
                   (AudioPlayer.perform (AudioPlayer.Seek 0) a) in
       AudioPlayer.currentTime a' = 0%Q /\ AudioPlayer.paused a' = false) /\
  (debounced now s = false -> repeatMode s <> repeat_one ->
     handleSongEnd now s = playNext (set_lastEndedRef (Some now) s)) /\
  (debounced now s = false ->
     lastEndedRef (handleSongEnd now s) = Some now) /\
  (forall last, lastEndedRef s = Some last -> last <> 0 ->
     now - last < 1000 -> handleSongEnd now s = s) /\
  (forall later, debounced now s = false -> now <> 0 ->
     later - now < 1000 ->
     handleSongEnd later (handleSongEnd now s) = handleSongEnd now s).
Proof.
  assert (Hlast : debounced now s = false ->
                  lastEndedRef (handleSongEnd now s) = Some now).
  { intros Hd. unfold handleSongEnd. rewrite Hd. simpl.
    destruct (repeatMode s); by rewrite ?playNext_lastEndedRef. }
  assert (Hskip : forall t s', (exists last, lastEndedRef s' = Some last /\
                     last <> 0 /\ t - last < 1000) -> handleSongEnd t s' = s').
  { intros t s' H. apply debounced_spec in H. unfold handleSongEnd.
    by rewrite H. }
  split; [| split; [| split; [| split]]].
  - intros Hd Hone. unfold handleSongEnd. rewrite Hd. simpl. rewrite Hone.
    simpl. rewrite <- app_assoc.
    split; [done |]. split; [done |]. split; [done |]. split; [done |].
    intros a d Hdur Hpos. simpl. unfold AudioPlayer.seek. rewrite Hdur.
    apply Qle_bool_iff in Hpos. simpl. by rewrite Hpos.
  - intros Hd Hmode. unfold handleSongEnd. rewrite Hd. simpl.
    by destruct (repeatMode s).
  - exact Hlast.
  - intros last Hl Hne Hlt. apply Hskip. by exists last.
  - intros later Hd Hne Hlt. apply Hskip. exists now. by rewrite Hlast.
Qed.

(** Track A ends at time 5000 under repeat mode [one]; the signal that
    follows 300 ms later is ignored. *)
Lemma handleSongEnd_spec_witness :
  let s := toggleRepeat (toggleRepeat Samples.playingA) in
  currentSong (handleSongEnd 5000 s) = Some Samples.songA /\
  handleSongEnd 5300 (handleSongEnd 5000 s) = handleSongEnd 5000 s.
Proof.
  cbv zeta.
  destruct (handleSongEnd_spec 5000
              (toggleRepeat (toggleRepeat Samples.playingA)))
    as (Hone & _ & _ & _ & Hagain).
  destruct (Hone eq_refl eq_refl) as (_ & _ & Hcur & _).
  split; [by rewrite Hcur |].
  apply Hagain; [reflexivity | discriminate | reflexivity].
Defined.

(** *** Shuffle *)

Lemma toggleShuffle_currentSong random s :
  currentSong (toggleShuffle random s) = currentSong s.
Proof.
  unfold toggleShuffle. destruct (isShuffle s); simpl;
    by destruct (currentSong s) eqn:E.
Qed.

(** C9. [toggleShuffle]: it never changes the current track, so toggling
    on and then off leaves it as it was; with a current track, turning
    shuffle on draws a fresh shuffle of the list, a permutation of it,
    and sets the index to the first place in that shuffle of a track with
    the current track's id; turning it off sets the index to that place
    in the straight order. In a reachable state both places exist and
    hold the current track. *)
Theorem toggleShuffle_spec random random' s cur :
  currentSong s = Some cur ->
  isShuffle s = false ->
  let on := toggleShuffle random s in
  let off := toggleShuffle random' on in
  let shuffle := fisher_yates random (length (playlistRef s) - 1)
                   (playlistRef s) in
  currentSong on = Some cur /\
  currentSong off = Some cur /\
  isShuffle on = true /\
  shuffledPlaylistRef on = shuffle /\
  shuffle ≡ₚ playlistRef s /\
  playlistRef on = playlistRef s /\
  currentIndexRef on = findIndex (id cur) shuffle /\
  isShuffle off = false /\
  playlistRef off = playlistRef s /\
  currentIndexRef off = findIndex (id cur) (playlistRef s) /\
  (reachable s ->
     (exists t, getCurrentPlaylist on !! Z.to_nat (currentIndexRef on) = Some t /\
                same_track t cur) /\
     (exists t, getCurrentPlaylist off !! Z.to_nat (currentIndexRef off) = Some t /\
                same_track t cur)).
Proof.
  intros Hcur Hoff. cbv zeta.
  assert (Hon : toggleShuffle random s =
    set_currentIndexRef
      (findIndex (id cur) (fisher_yates random (length (playlistRef s) - 1)
                             (playlistRef s)))
      (updateShuffledPlaylist random (setIsShuffle true s))).
  { unfold toggleShuffle. rewrite Hoff. simpl. by rewrite Hcur. }
  rewrite Hon.
  assert (Hoff' : toggleShuffle random' (set_currentIndexRef
      (findIndex (id cur) (fisher_yates random (length (playlistRef s) - 1)
                             (playlistRef s)))
      (updateShuffledPlaylist random (setIsShuffle true s))) =
    set_currentIndexRef (findIndex (id cur) (playlistRef s))
      (setIsShuffle false (set_currentIndexRef
        (findIndex (id cur) (fisher_yates random (length (playlistRef s) - 1)
                               (playlistRef s)))
        (updateShuffledPlaylist random (setIsShuffle true s))))).
  { unfold toggleShuffle. simpl. by rewrite Hcur. }
  rewrite Hoff'. simpl.
  repeat (split; [first [done | apply fisher_yates_Permutation] |]).
  intros Hr. apply reachable_coherent in Hr.
  pose proof (indexed_toggleShuffle random s Hr) as Hi1.
  pose proof (coherent_toggleShuffle random s Hr) as Hc1.
  pose proof (indexed_toggleShuffle random' _ Hc1) as Hi2.
  rewrite Hon in Hi1, Hc1, Hi2. rewrite Hoff' in Hi2.
  pose proof Hr as (Hp & _ & Hcs). rewrite Hcur in Hcs.
  assert (Hfy : fisher_yates random (length (playlistRef s) - 1)
                  (playlistRef s) ≡ₚ songs s).
  { rewrite fisher_yates_Permutation. by rewrite Hp. }
  assert (Hst : playlistRef s ≡ₚ songs s) by (by rewrite Hp).
  split.
  - destruct Hi1 as (t & c & Ht & Hc & Hsame).
    + simpl. pose proof (coherent_relocate s _ Hr Hfy cur Hcur). lia.
    + simpl in Hc. rewrite Hcur in Hc. injection Hc as <-. by exists t.
  - destruct Hi2 as (t & c & Ht & Hc & Hsame).
    + simpl. pose proof (coherent_relocate s _ Hr Hst cur Hcur). lia.
    + simpl in Hc. rewrite Hcur in Hc. injection Hc as <-. by exists t.
Qed.

(** Track A plays at index 0; with shuffle on it sits at index 2 of the
    shuffle B, C, A; with shuffle off again it is back at index 0. *)
Lemma toggleShuffle_spec_witness :
  let on := toggleShuffle Samples.always_first Samples.playingA in
  let off := toggleShuffle Samples.always_first on in
  currentSong on = Some Samples.songA /\ currentIndexRef on = 2 /\
  currentSong off = Some Samples.songA /\ currentIndexRef off = 0.
Proof.
  cbv zeta.
  destruct (toggleShuffle_spec Samples.always_first Samples.always_first
              Samples.playingA Samples.songA eq_refl eq_refl)
    as (Hon & Hoff & _ & _ & _ & _ & Hi1 & _ & _ & Hi2 & _).
  split; [exact Hon |]. split; [by rewrite Hi1 |].
  split; [exact Hoff |]. by rewrite Hi2.
Defined.

End PlayerProperties.

(** * Further properties of the metadata store *)

Section MoreStorageProperties.
Import Storage StoreNotions.

Lemma or_string_idem a b : or_string a (or_string a b) = or_string a b.
Proof. unfold or_string. by destruct (truthy_string a). Qed.

Lemma or_string_truthy a b :
  truthy_string b = true -> truthy_string (or_string a b) = true.
Proof. unfold or_string. by destruct (truthy_string a) eqn:E. Qed.

Lemma or_zero_default a : or_zero a = default 0 a.
Proof.
  destruct a as [n|]; simpl; [| done].
  destruct (n =? 0) eqn:E; [| done]. apply Z.eqb_eq in E. by subst.
Qed.

Lemma map_set_set k v v' m : map_set k v' (map_set k v m) = map_set k v' m.
Proof.
  induction m as [|[k0 v0] m IH]; simpl.
  - by rewrite Z.eqb_refl.
  - destruct (k =? k0) eqn:E; simpl; rewrite ?Z.eqb_refl, ?E, ?IH; done.
Qed.

Lemma saveMetadata_frame st d :
  files (saveMetadata st d) = files d /\
  undeletable (saveMetadata st d) = undeletable d /\
  writable (saveMetadata st d) = writable d.
Proof.
  unfold saveMetadata, writeFile. by destruct (writable d) eqn:E.
Qed.

Lemma saveMetadata_idem st d :
  saveMetadata st (saveMetadata st d) = saveMetadata st d.
Proof.
  unfold saveMetadata, writeFile.
  destruct (writable d) eqn:E; simpl; by rewrite ?E.
Qed.

(** X1. [createSong]: the record it returns carries the counter as id,
    the draft's title, format, path and filename, the draft's artist or
    "Unknown" when that is absent or empty (so never an absent or empty
    artist), the draft's duration or 0; the record can be read back under
    its id, every record under another id is as before, the counter has
    advanced by one and [saveMetadata] has run on the new store. *)
Theorem createSong_result insertSong st d :
  let song := fst (createSong insertSong (st, d)) in
  let st' := fst (snd (createSong insertSong (st, d))) in
  id song = currentId st /\
  currentId st' = currentId st + 1 /\
  title song = ins_title insertSong /\
  format song = ins_format insertSong /\
  path song = ins_path insertSong /\
  filename song = ins_filename insertSong /\
  artist song = (if truthy_string (ins_artist insertSong)
                 then ins_artist insertSong else Some "Unknown"%string) /\
  truthy_string (artist song) = true /\
  duration song = Some (default 0 (ins_duration insertSong)) /\
  getSong (id song) st' = Some song /\
  (forall k, k <> id song -> getSong k st' = getSong k st) /\
  snd (snd (createSong insertSong (st, d))) = saveMetadata st' d.
Proof.
  cbv zeta. unfold getSong. simpl.
  repeat match goal with |- _ /\ _ => split end; try done.
  - by apply or_string_truthy.
  - by rewrite or_zero_default.
  - apply map_get_set_eq.
  - intros k Hne. apply map_get_set_ne. congruence.
Qed.

(** X4. [renameSong] is idempotent: the same rename a second time
    returns the same answer and leaves store and disk as the first left
    them. *)
Theorem renameSong_idempotent input w :
  renameSong input (snd (renameSong input w)) = renameSong input w.
Proof.
  destruct w as [st d]. unfold renameSong at 2 3.
  destruct (map_get (rn_id input) (songs st)) as [song|] eqn:E; simpl.
  - unfold renameSong. simpl. rewrite map_get_set_eq. simpl.
    by rewrite or_string_idem, map_set_set, saveMetadata_idem.
  - unfold renameSong. by rewrite E.
Qed.

Lemma unlink_files p d d' :
  unlink p d = Some d' -> files d' = filter (fun q => q <> p) (files d).
Proof. unfold unlink. destruct (bool_decide _); [done |]. by intros [= <-]. Qed.

(** X6. The store touches no audio file but the one it deletes:
    [createSong] and [renameSong] leave the files of the disk as they
    are, and after [deleteSong] a file is on the disk exactly when it was
    before and, if the call returned [true], is not the backing file of
    the deleted record. *)
Theorem audio_files_untouched st d :
  (forall insertSong,
     files (snd (snd (createSong insertSong (st, d)))) = files d) /\
  (forall input, files (snd (snd (renameSong input (st, d)))) = files d) /\
  (forall input p,
     p ∈ files (snd (snd (deleteSong input (st, d)))) <->
     p ∈ files d /\
     (fst (deleteSong input (st, d)) = true ->
      forall song, getSong (del_id input) st = Some song -> p <> path song)).
Proof.
  split; [| split].
  - intros insertSong. simpl. apply saveMetadata_frame.
  - intros input. unfold renameSong.
    destruct (map_get _ _); simpl; [apply saveMetadata_frame | done].
  - intros input p. unfold getSong, deleteSong.
    destruct (map_get (del_id input) (songs st)) as [song|] eqn:E; simpl.
    2: { split; [intros H; split; [done | done] | by intros [H _]]. }
    destruct (existsSync d (path song)) eqn:Efile.
    + destruct (unlink (path song) d) as [d1|] eqn:Eun; simpl.
      * unfold map_has. rewrite E. simpl.
        destruct (saveMetadata_frame
          {| songs := filter (fun e => negb (del_id input =? fst e)) (songs st);
             currentId := currentId st |} d1) as (-> & _).
        rewrite (unlink_files _ _ _ Eun), list_elem_of_filter. split.
        -- intros [Hne Hin]. split; [done |]. by intros _ song' [= <-].
        -- intros [Hin Hne]. split; [| done]. by apply (Hne eq_refl song).
      * split; [intros H; split; [done | done] | by intros [H _]].
    + simpl. unfold map_has. rewrite E. simpl.
      destruct (saveMetadata_frame
        {| songs := filter (fun e => negb (del_id input =? fst e)) (songs st);
           currentId := currentId st |} d) as (-> & _).
      split; [| by intros [H _]]. intros Hin. split; [done |].
      intros _ song' [= <-] ->. unfold existsSync in Efile.
      by apply bool_decide_eq_false in Efile.
Qed.

Lemma delete_one k v m :
  NoDup (map_keys m) -> map_get k m = Some v ->
  S (length (snd (map_delete k m))) = length m.
Proof.
  unfold map_delete. simpl. induction m as [|[k0 v0] m IH]; [done |].
  simpl. intros Hnd Hget. apply NoDup_cons in Hnd as [Hk0 Hnd].
  rewrite filter_cons. simpl. destruct (k =? k0) eqn:E; simpl.
  - apply Z.eqb_eq in E. subst k0.
    assert (Habs : map_get k m = None) by (by apply map_get_None).
    apply map_delete_absent in Habs. unfold map_delete in Habs.
    injection Habs as _ Habs. by rewrite Habs.
  - by rewrite IH.
Qed.

Lemma delete_values k m :
  Forall (fun e => fst e = id (snd e)) m ->
  map_values (snd (map_delete k m)) = filter (fun s => id s <> k) (map_values m).
Proof.
  unfold map_delete. simpl. induction 1 as [|[k0 v0] m Hk _ IH]; [done |].
  simpl in Hk. subst k0. simpl. rewrite !filter_cons. simpl.
  destruct (k =? id v0) eqn:E.
  - apply Z.eqb_eq in E. destruct (decide (Is_true _)); [done |].
    destruct (decide (id v0 <> k)) as [Hne|_]; [| done].
    exfalso. by apply Hne.
  - apply Z.eqb_neq in E. destruct (decide (Is_true _)) as [_|Hn]; [| done].
    destruct (decide (id v0 <> k)) as [_|Heq].
    + simpl. by rewrite IH.
    + exfalso. apply Heq. intros Hk. by apply E.
Qed.

(** X5. [deleteSong] removes one record or none: in every state a store
    can reach, a call that returns [false] leaves the store as it is, and
    a call that returns [true] leaves [getAllSongs] without the record of
    that id, one record shorter, the others in their order, and the
    counter as it was. *)
Theorem deleteSong_removes_one_record input st d :
  reachable (st, d) ->
  let r := deleteSong input (st, d) in
  let st' := fst (snd r) in
  (fst r = false -> st' = st) /\
  (fst r = true ->
     getAllSongs st' =
       filter (fun s => id s <> del_id input) (getAllSongs st) /\
     S (length (getAllSongs st')) = length (getAllSongs st) /\
     currentId st' = currentId st).
Proof.
  intros Hr. apply reachable_keyed in Hr as [Hid Hnd]. cbv zeta.
  unfold deleteSong.
  destruct (map_get (del_id input) (songs st)) as [song|] eqn:E; [| done].
  destruct (if existsSync d (path song) then _ else _) as [d1|]; [| done].
  unfold map_delete at 1 3 4 5. unfold map_has. rewrite E. simpl.
  split; [done |]. intros _. unfold getAllSongs. simpl.
  split; [exact (delete_values (del_id input) (songs st) Hid) |].
  split; [| done]. unfold map_values. rewrite !length_map.
  exact (delete_one _ _ _ Hnd E).
Qed.

(** Deleting song 2 of the sample store leaves songs 1 and 3. *)
Lemma deleteSong_removes_one_record_witness :
  map id (getAllSongs (fst (snd (deleteSong (mkDeleteSongInput 2)
                                   Samples.world3)))) = [1; 3].
Proof.
  destruct (deleteSong_removes_one_record (mkDeleteSongInput 2)
              (fst Samples.world3) (snd Samples.world3)) as [_ Htrue].
  - exists Samples.disk0, Samples.uploads. reflexivity.
  - destruct (Htrue eq_refl) as (Hall & _).
    change (fst Samples.world3, snd Samples.world3) with Samples.world3 in Hall.
    rewrite Hall. reflexivity.
Defined.

(** *** What a start loads *)

Lemma map_set_values k v m s :
  s ∈ map_values (map_set k v m) -> s = v \/ s ∈ map_values m.
Proof.
  induction m as [|[k0 v0] m IH]; simpl.
  - intros H. apply list_elem_of_singleton in H. by left.
  - destruct (k =? k0); simpl; intros H; apply elem_of_cons in H as [-> | H].
    + by left.
    + right. by apply list_elem_of_further.
    + right. apply list_elem_of_here.
    + destruct (IH H) as [-> | Hin]; [by left | right].
      by apply list_elem_of_further.
Qed.

Lemma restore_values d l acc s :
  s ∈ map_values (fold_left (restore d) l acc) ->
  s ∈ map_values acc \/ (s ∈ l /\ existsSync d (path s) = true).
Proof.
  revert acc. induction l as [|x l IH]; intros acc; simpl; [by left |].
  intros H. destruct (IH _ H) as [Hacc | [Hin Hfile]].
  - unfold restore in Hacc. destruct (existsSync d (path x)) eqn:E.
    + destruct (map_set_values _ _ _ _ Hacc) as [-> | Hm]; [| by left].
      right. split; [apply list_elem_of_here | done].
    + by left.
  - right. split; [by apply list_elem_of_further | done].
Qed.

Lemma restore_keeps_keys d l acc k :
  map_get k acc <> None -> map_get k (fold_left (restore d) l acc) <> None.
Proof.
  revert acc. induction l as [|x l IH]; intros acc Hk; simpl; [done |].
  apply IH. unfold restore. destruct (existsSync d (path x)); [| done].
  destruct (decide (id x = k)) as [<- | Hne].
  - by rewrite map_get_set_eq.
  - by rewrite map_get_set_ne.
Qed.

Lemma restore_loads d l acc s :
  s ∈ l -> existsSync d (path s) = true ->
  map_get (id s) (fold_left (restore d) l acc) <> None.
Proof.
  revert acc. induction l as [|x l IH]; intros acc Hin Hfile.
  - by apply not_elem_of_nil in Hin.
  - simpl. apply elem_of_cons in Hin as [<- | Hin]; [| by apply IH].
    apply restore_keeps_keys. unfold restore. rewrite Hfile.
    by rewrite map_get_set_eq.
Qed.

(** X7. What a start loads: the store of a new [FileStorage] holds each
    id once, under the id of its record; every record it holds is listed
    in the sidecar and has its backing file on the disk; every id the
    sidecar lists with a file on the disk is loaded; the counter is the
    sidecar's; and with no sidecar, or an unreadable one, the store is
    empty with counter 1. *)
Theorem boot_loads_what_is_on_disk d :
  let st := fst (boot d) in
  keyed (songs st) /\
  Forall (fun s => existsSync d (path s) = true) (getAllSongs st) /\
  (forall l n, metadata d = Saved l n ->
     currentId st = n /\
     (forall s, s ∈ getAllSongs st -> s ∈ l) /\
     (forall s, s ∈ l -> existsSync d (path s) = true ->
        exists s', getSong (id s) st = Some s' /\ s' ∈ l)) /\
  (metadata d = NoFile \/ metadata d = Corrupt -> st = new_storage).
Proof.
  cbv zeta. split; [apply keyed_boot |]. unfold boot, loadSavedMetadata.
  simpl. unfold getAllSongs, getSong.
  destruct (metadata d) as [| | l n] eqn:E; simpl.
  - split; [constructor |]. split; [done | done].
  - split; [constructor |]. split; [done | done].
  - assert (Hvals : forall s, s ∈ map_values (fold_left (restore d) l []) ->
                      s ∈ l /\ existsSync d (path s) = true).
    { intros s Hs. destruct (restore_values _ _ _ _ Hs) as [Hnil | H]; [| done].
      by apply not_elem_of_nil in Hnil. }
    split; [apply Forall_forall; intros s Hs; by apply Hvals |].
    split; [| by intros [? | ?]].
    intros l' n' [= <- <-]. split; [done |].
    split; [intros s Hs; by apply Hvals |].
    intros s Hs Hfile. pose proof (restore_loads d l [] s Hs Hfile) as Hget.
    destruct (map_get (id s) (fold_left (restore d) l [])) as [s'|] eqn:Es;
      [| done].
    exists s'. split; [done |]. apply Hvals.
    apply map_get_Some_elem in Es.
    apply list_elem_of_fmap. by exists (id s, s').
Qed.

(** *** Listing order *)

Lemma sorted_filter_keys (P : Z * Song -> Prop) `{!forall e, Decision (P e)}
    (m : SongMap) :
  StronglySorted Z.lt (map_keys m) ->
  StronglySorted Z.lt (map_keys (filter P m)).
Proof.
  induction m as [|e m IH]; [done |]. simpl. intros Hs.
  apply StronglySorted_inv in Hs as [Hs Hall].
  rewrite filter_cons. destruct (decide (P e)); [| by apply IH].
  simpl. constructor; [by apply IH |].
  apply Forall_forall. intros k Hk. rewrite Forall_forall in Hall. apply Hall.
  apply list_elem_of_fmap in Hk as (e' & -> & He').
  apply list_elem_of_filter in He' as [_ He'].
  apply list_elem_of_fmap. by exists e'.
Qed.

Lemma forall_filter_keys (Q : Z -> Prop) (P : Z * Song -> Prop)
    `{!forall e, Decision (P e)} (m : SongMap) :
  Forall Q (map_keys m) -> Forall Q (map_keys (filter P m)).
Proof.
  rewrite !Forall_forall. intros Hall k Hk. apply Hall.
  apply list_elem_of_fmap in Hk as (e' & -> & He').
  apply list_elem_of_filter in He' as [_ He'].
  apply list_elem_of_fmap. by exists e'.
Qed.

Lemma forall_filter_entries (Q : Z * Song -> Prop) (P : Z * Song -> Prop)
    `{!forall e, Decision (P e)} (m : SongMap) :
  Forall Q m -> Forall Q (filter P m).
Proof.
  rewrite !Forall_forall. intros Hall e He. apply Hall.
  by apply list_elem_of_filter in He as [_ He].
Qed.

Lemma sorted_NoDup (l : list Z) : StronglySorted Z.lt l -> NoDup l.
Proof.
  induction 1 as [|x l _ IH Hall]; [apply NoDup_nil_2 |].
  apply NoDup_cons. split; [| done]. intros Hin.
  rewrite Forall_forall in Hall. specialize (Hall x Hin). lia.
Qed.

Lemma keys_of_values (m : SongMap) :
  Forall (fun e => fst e = id (snd e)) m -> map id (map_values m) = map_keys m.
Proof.
  induction 1 as [|[k v] m Hk _ IH]; [done |]. simpl in *. by rewrite IH, Hk.
Qed.

Lemma ordered_boot d : ordered_sidecar (metadata d) -> ordered (fst (boot d)).
Proof.
  unfold boot, loadSavedMetadata. simpl.
  destruct (metadata d) as [| | l n] eqn:E; simpl;
    try (intros _; repeat split; constructor).
  intros [Hs Hlt]. unfold ordered. simpl.
  set (m := map (fun s => (id s, s)) l).
  assert (Hvals : map_values m = l).
  { unfold m, map_values. rewrite map_map. simpl. apply map_id. }
  assert (Hkeys : map_keys m = map id l).
  { unfold m, map_keys. by rewrite map_map. }
  assert (Hid : Forall (fun e => fst e = id (snd e)) m).
  { unfold m. apply Forall_forall. intros e He.
    apply list_elem_of_fmap in He as (s & -> & _). done. }
  rewrite <- Hvals. rewrite restore_entries; [| done |].
  2: { simpl. rewrite Hkeys. by apply sorted_NoDup. }
  simpl. split; [by apply forall_filter_entries |].
  split; [apply sorted_filter_keys; by rewrite Hkeys |].
  apply forall_filter_keys. rewrite Hkeys. apply Forall_forall.
  intros k Hk. apply list_elem_of_fmap in Hk as (s & -> & Hin).
  rewrite Forall_forall in Hlt. by apply Hlt.
Qed.

Lemma ordered_fresh st : ordered st -> map_get (currentId st) (songs st) = None.
Proof.
  intros (_ & _ & Hlt). apply map_get_None. intros Hin.
  rewrite Forall_forall in Hlt. specialize (Hlt _ Hin). lia.
Qed.

Lemma ordered_sidecar_save st d :
  ordered st -> ordered_sidecar (metadata d) ->
  ordered_sidecar (metadata (saveMetadata st d)).
Proof.
  intros (Hid & Hs & Hlt) Hd. unfold saveMetadata, writeFile.
  destruct (writable d); [| done]. simpl.
  rewrite keys_of_values by done. split; [done |].
  apply Forall_forall. intros s Hin.
  apply list_elem_of_fmap in Hin as ([k v] & -> & He). simpl.
  rewrite Forall_forall in Hid. rewrite Forall_forall in Hlt. pose proof (Hid _ He) as Hk. simpl in Hk. rewrite <- Hk.
  apply Hlt. apply list_elem_of_fmap. by exists (k, v).
Qed.

Lemma sorted_snoc (l : list Z) x :
  StronglySorted Z.lt l -> Forall (fun k => k < x) l ->
  StronglySorted Z.lt (l ++ [x]).
Proof.
  induction 1 as [|y l Hs IH Hall]; intros Hlt; simpl.
  - repeat constructor.
  - inversion Hlt; subst. constructor; [by apply IH |].
    apply Forall_app. split; [done | by repeat constructor].
Qed.

Lemma ordered_create insertSong st d :
  ordered st -> ordered (fst (snd (createSong insertSong (st, d)))).
Proof.
  intros Ho. pose proof (ordered_fresh st Ho) as Hfresh.
  destruct Ho as (Hid & Hs & Hlt). unfold ordered. simpl.
  rewrite map_set_fresh by done. unfold map_keys. rewrite map_app. simpl.
  split; [apply Forall_app; split; [done | by repeat constructor] |].
  split.
  - by apply sorted_snoc.
  - apply Forall_app. split.
    + eapply Forall_impl; [exact Hlt |]. simpl. lia.
    + repeat constructor. lia.
Qed.

Lemma map_set_entries k v m :
  Forall (fun e => fst e = id (snd e)) m -> k = id v ->
  Forall (fun e => fst e = id (snd e)) (map_set k v m).
Proof.
  intros Hid ->. induction Hid as [|[k' v'] m Hk Hm IH]; simpl.
  - by repeat constructor.
  - destruct (id v =? k'); by constructor.
Qed.

Lemma ordered_rename input st d :
  ordered st -> ordered (fst (snd (renameSong input (st, d)))).
Proof.
  intros (Hid & Hs & Hlt). unfold renameSong.
  destruct (map_get (rn_id input) (songs st)) as [song|] eqn:E; simpl; [| done].
  unfold ordered. simpl.
  assert (Hk : rn_id input = id song).
  { apply map_get_Some_elem in E. rewrite Forall_forall in Hid.
    by apply Hid in E. }
  rewrite map_keys_set_present by (by rewrite E). split; [| done].
  by apply map_set_entries.
Qed.

Lemma ordered_delete input st d :
  ordered st -> ordered (fst (snd (deleteSong input (st, d)))).
Proof.
  intros (Hid & Hs & Hlt). unfold deleteSong.
  destruct (map_get (del_id input) (songs st)) as [song|]; simpl; [| done].
  destruct (if existsSync d (path song) then _ else _); simpl; [| done].
  split; [by apply forall_filter_entries |].
  split; [by apply sorted_filter_keys | by apply forall_filter_keys].
Qed.

Lemma ordered_apply w o :
  ordered (fst w) /\ ordered_sidecar (metadata (snd w)) ->
  ordered (fst (snd (apply w o))) /\
  ordered_sidecar (metadata (snd (snd (apply w o)))).
Proof.
  destruct w as [st d]. simpl. intros [Ho Hd]. destruct o; simpl.
  - pose proof (ordered_create insertSong st d Ho) as Ho'. split; [done |].
    by apply ordered_sidecar_save.
  - pose proof (ordered_rename input st d Ho) as Ho'. split; [done |].
    revert Ho'. unfold renameSong. destruct (map_get _ _); simpl; [| done].
    intros Ho'. by apply ordered_sidecar_save.
  - pose proof (ordered_delete input st d Ho) as Ho'. split; [done |].
    revert Ho'. unfold deleteSong. destruct (map_get _ _) as [song|]; simpl;
      [| done].
    destruct (existsSync d (path song)).
    + destruct (unlink (path song) d) as [d1|] eqn:Eun; simpl; [| done].
      intros Ho'. apply ordered_sidecar_save; [done |].
      unfold unlink in Eun. destruct (bool_decide _); [done |].
      by injection Eun as <-.
    + simpl. intros Ho'. by apply ordered_sidecar_save.
  - split; [by apply ordered_boot | done].
  - done.
Qed.

Lemma ordered_history ops w :
  ordered (fst w) /\ ordered_sidecar (metadata (snd w)) ->
  ordered (fst (snd (history ops w))) /\
  ordered_sidecar (metadata (snd (snd (history ops w)))).
Proof.
  revert w. induction ops as [|o ops IH]; intros w Hw; simpl; [done |].
  pose proof (ordered_apply w o Hw) as Hw'.
  destruct (apply w o) as [issued w']. specialize (IH w' Hw').
  by destruct (history ops w').
Qed.

(** X2. Listing order: along every history begun on a disk with no
    sidecar, an unreadable one, or one that lists its records by rising
    id below its counter, [getAllSongs] lists the records by strictly
    rising id, every id below the counter; so [createSong] overwrites
    nothing: it puts its record at the end of the list. *)
Theorem listing_in_id_order d ops :
  ordered_sidecar (metadata d) ->
  let w := snd (history ops (boot d)) in
  let st := fst w in
  StronglySorted Z.lt (map id (getAllSongs st)) /\
  Forall (fun s => id s < currentId st) (getAllSongs st) /\
  forall insertSong,
    getAllSongs (fst (snd (createSong insertSong w))) =
      getAllSongs st ++ [fst (createSong insertSong w)].
Proof.
  intros Hd. cbv zeta.
  destruct (ordered_history ops (boot d) (conj (ordered_boot d Hd) Hd))
    as [Ho _].
  set (w := snd (history ops (boot d))) in *. destruct w as [st d'].
  simpl in *. pose proof (ordered_fresh st Ho) as Hfresh.
  destruct Ho as (Hid & Hs & Hlt). unfold getAllSongs.
  rewrite keys_of_values by done. split; [done |]. split.
  - apply Forall_forall. intros s Hin.
    apply list_elem_of_fmap in Hin as ([k v] & -> & He). simpl.
    rewrite Forall_forall in Hid. rewrite Forall_forall in Hlt. pose proof (Hid _ He) as Hk. simpl in Hk. rewrite <- Hk.
    apply Hlt. apply list_elem_of_fmap. by exists (k, v).
  - intros insertSong. simpl. rewrite map_set_fresh by done.
    unfold map_values. by rewrite map_app.
Qed.

(** After the three uploads, a deletion and a restart, a fourth upload
    goes to the end of the list. *)
Lemma listing_in_id_order_witness :
  let ops := Samples.uploads ++ [Delete (mkDeleteSongInput 2); Restart] in
  let w := snd (history ops (boot Samples.disk0)) in
  map id (getAllSongs (fst (snd (createSong Samples.draftB w)))) = [1; 3; 4].
Proof.
  cbv zeta.
  destruct (listing_in_id_order Samples.disk0
              (Samples.uploads ++ [Delete (mkDeleteSongInput 2); Restart]) I)
    as (_ & _ & Hend).
  rewrite Hend. reflexivity.
Defined.

(** X3. The counter of the sidecar is taken on trust: when the sidecar's
    [nextId] is the id of a record it lists whose file is on the disk,
    the first [createSong] after the start issues that id again and the
    new record takes the place of the listed one, so the list does not
    grow. *)
Theorem createSong_overwrites_on_stale_counter d l n s insertSong :
  metadata d = Saved l n ->
  s ∈ l -> id s = n -> existsSync d (path s) = true ->
  let w := boot d in
  let song := fst (createSong insertSong w) in
  let st' := fst (snd (createSong insertSong w)) in
  id song = n /\
  is_Some (getSong n (fst w)) /\
  getSong n st' = Some song /\
  length (getAllSongs st') = length (getAllSongs (fst w)).
Proof.
  intros Hmeta Hin Hid Hfile. cbv zeta. unfold boot, loadSavedMetadata.
  simpl. rewrite Hmeta. simpl. unfold getSong, getAllSongs. simpl.
  pose proof (restore_loads d l [] s Hin Hfile) as Hget. rewrite Hid in Hget.
  destruct (map_get n (fold_left (restore d) l [])) as [old|] eqn:E; [| done].
  split; [done |]. split; [by eexists |]. split; [apply map_get_set_eq |].
  destruct (map_values_set_present n
    (mkSong n (ins_title insertSong)
       (or_string (ins_artist insertSong) (Some "Unknown"%string))
       (Some (or_zero (ins_duration insertSong))) (ins_format insertSong)
       (ins_path insertSong) (ins_filename insertSong))
    old _ E) as (i & _ & ->).
  apply length_insert.
Qed.

(** A sidecar listing songs 1 and 2 with counter 2: the upload takes id
    2 and replaces song B. *)
Lemma createSong_overwrites_on_stale_counter_witness :
  let r := createSong Samples.draftC (boot MoreSamples.disk_with_stale_counter) in
  id (fst r) = 2 /\ map title (getAllSongs (fst (snd r))) = ["A"; "C"]%string.
Proof.
  cbv zeta. split; [| reflexivity].
  apply (createSong_overwrites_on_stale_counter
           MoreSamples.disk_with_stale_counter
           [Samples.songA; Samples.songB] 2 Samples.songB Samples.draftC).
  - reflexivity.
  - apply list_elem_of_further, list_elem_of_here.
  - reflexivity.
  - reflexivity.
Defined.

(** X8. A sidecar that cannot be written is not fatal: each of the three
    operations returns the same answer and leaves the same store in
    memory as it does when the sidecar can be written, and the content of
    the sidecar stays as it was. *)
Theorem unwritable_sidecar_is_not_fatal st d :
  writable d = false ->
  let d1 := with_writable true d in
  (forall insertSong,
     fst (createSong insertSong (st, d)) = fst (createSong insertSong (st, d1)) /\
     fst (snd (createSong insertSong (st, d))) =
       fst (snd (createSong insertSong (st, d1))) /\
     metadata (snd (snd (createSong insertSong (st, d)))) = metadata d) /\
  (forall input,
     fst (renameSong input (st, d)) = fst (renameSong input (st, d1)) /\
     fst (snd (renameSong input (st, d))) =
       fst (snd (renameSong input (st, d1))) /\
     metadata (snd (snd (renameSong input (st, d)))) = metadata d) /\
  (forall input,
     fst (deleteSong input (st, d)) = fst (deleteSong input (st, d1)) /\
     fst (snd (deleteSong input (st, d))) =
       fst (snd (deleteSong input (st, d1))) /\
     metadata (snd (snd (deleteSong input (st, d)))) = metadata d).
Proof.
  intros Hw. cbv zeta.
  assert (Hsave : forall st0 d0, writable d0 = false ->
                    metadata (saveMetadata st0 d0) = metadata d0).
  { intros st0 d0 H0. unfold saveMetadata, writeFile. by rewrite H0. }
  split; [| split].
  - intros insertSong. simpl. by rewrite Hsave.
  - intros input. unfold renameSong.
    destruct (map_get _ _); simpl; [by rewrite Hsave | done].
  - intros input. unfold deleteSong.
    destruct (map_get _ _) as [song|]; simpl; [| done].
    unfold existsSync, unlink. simpl.
    destruct (bool_decide (path song ∈ files d)); simpl.
    + destruct (bool_decide (path song ∈ undeletable d)); simpl; [done |].
      by rewrite Hsave.
    + by rewrite Hsave.
Qed.

(** An upload to the sample store on a disk that refuses the sidecar:
    song 4 is in memory, the disk still has no sidecar. *)
Lemma unwritable_sidecar_is_not_fatal_witness :
  let r := createSong Samples.draftA MoreSamples.unwritable_world in
  map id (getAllSongs (fst (snd r))) = [1; 2; 3; 4] /\
  metadata (snd (snd r)) = NoFile.
Proof.
  cbv zeta. split; [reflexivity |].
  destruct (unwritable_sidecar_is_not_fatal (fst MoreSamples.unwritable_world)
              (snd MoreSamples.unwritable_world) eq_refl) as (Hcreate & _).
  destruct (Hcreate Samples.draftA) as (_ & _ & Hmeta). exact Hmeta.
Defined.

End MoreStorageProperties.

(** * Properties of the routes *)

Section RoutesProperties.
Import Storage Routes.

(** X9. [PATCH /api/songs/:id] validates before it touches the store:
    the answer is 400 exactly when the schema rejects the request, which
    is when no id can be had (a body [id] of another type, or no body
    [id] and a URL parameter that is no number), when the title is
    missing, of another type or empty, or when the artist is of another
    type; and a 400 leaves store and disk as they were. *)
Theorem patchSong_validation url_id b w :
  (status (fst (patchSong url_id b w)) = 400 <-> parseRename url_id b = None) /\
  (parseRename url_id b = None <->
     (body_id b = Malformed \/ (body_id b = Absent /\ url_id = None)) \/
     (forall t, body_title b = Given t -> t = ""%string) \/
     body_artist b = Malformed) /\
  (status (fst (patchSong url_id b w)) = 400 -> snd (patchSong url_id b w) = w).
Proof.
  assert (H400 : status (fst (patchSong url_id b w)) = 400 <->
                 parseRename url_id b = None).
  { unfold patchSong. destruct (parseRename url_id b) as [input|]; [| done].
    destruct (renameSong input w) as [[updated|] w']; simpl; split; done. }
  split; [exact H400 |]. split.
  - unfold parseRename, patch_id.
    destruct (body_id b) as [| |k]; destruct url_id as [u|];
      destruct (body_title b) as [| |t]; destruct (body_artist b) as [| |a];
      try destruct (String.eqb t "") eqn:E;
      try (apply String.eqb_eq in E; subst t);
      try (apply String.eqb_neq in E);
      split; intros H; try done; try tauto;
      try (right; left; intros t' Ht'; congruence);
      try (by left; left); try (by left; right); try (by right; right);
      try (destruct H as [[H | [H1 H2]] | [H | H]]; try done;
           by specialize (H t eq_refl)).
  - intros H. apply H400 in H. unfold patchSong. by rewrite H.
Qed.

(** X10. [PATCH /api/songs/:id] on a request the schema accepts: the
    song renamed is the one named by the body's [id] when the body has
    one, by the URL otherwise; the answer is 404, with nothing changed,
    exactly when the store has no such song, and otherwise 200 with the
    updated record, which carries the title as sent and is the record the
    store now holds. *)
Theorem patchSong_outcome url_id b st d input :
  reachable (st, d) ->
  parseRename url_id b = Some input ->
  let r := patchSong url_id b (st, d) in
  (forall k, body_id b = Given k -> rn_id input = k) /\
  (body_id b = Absent -> url_id = Some (rn_id input)) /\
  body_title b = Given (rn_title input) /\
  (status (fst r) = 404 <-> getSong (rn_id input) st = None) /\
  (status (fst r) = 404 -> snd r = (st, d)) /\
  (status (fst r) = 404 \/ status (fst r) = 200) /\
  (status (fst r) = 200 ->
     exists updated,
       body (fst r) = OneSong updated /\
       title updated = rn_title input /\
       id updated = rn_id input /\
       getSong (rn_id input) (fst (snd r)) = Some updated).
Proof.
  intros Hr Hparse. apply reachable_keyed in Hr. cbv zeta.
  assert (Hin : (forall k, body_id b = Given k -> rn_id input = k) /\
                (body_id b = Absent -> url_id = Some (rn_id input)) /\
                body_title b = Given (rn_title input)).
  { revert Hparse. unfold parseRename, patch_id.
    destruct (body_id b) as [| |k]; destruct url_id as [u|];
      destruct (body_title b) as [| |t]; destruct (body_artist b) as [| |a];
      try destruct (String.eqb t ""); try done;
      intros [= <-]; simpl; repeat split; try done; by intros k' [= <-]. }
  destruct Hin as (Hbody & Hurl & Htitle).
  split; [done |]. split; [done |]. split; [done |].
  unfold patchSong. rewrite Hparse. unfold renameSong, getSong.
  destruct (map_get (rn_id input) (songs st)) as [song|] eqn:E; simpl.
  - split; [done |]. split; [done |]. split; [by right |]. intros _.
    eexists. split; [reflexivity |]. simpl. split; [done |].
    split; [| apply map_get_set_eq].
    symmetry. by apply (keyed_get _ _ (songs st)).
  - split; [done |]. split; [done |]. split; [by left | done].
Qed.

(** A request to /api/songs/1 whose body names song 2: song 2 is the
    one renamed. *)
Lemma patchSong_outcome_witness :
  let b := mkPatchBody (Given 2) (Given "B2"%string) Absent in
  let r := patchSong (Some 1) b Samples.world3 in
  status (fst r) = 200 /\
  map title (getAllSongs (fst (snd r))) = ["A"; "B2"; "C"]%string.
Proof.
  cbv zeta. split; [| reflexivity].
  destruct (patchSong_outcome (Some 1)
              (mkPatchBody (Given 2) (Given "B2"%string) Absent)
              (fst Samples.world3) (snd Samples.world3)
              (mkRenameSongInput 2 "B2" None))
    as (_ & _ & _ & _ & _ & [H404 | H200] & _).
  - exists Samples.disk0, Samples.uploads. reflexivity.
  - reflexivity.
  - vm_compute in H404. discriminate.
  - exact H200.
Defined.

Lemma route_delete_cases k st d :
  Routes.deleteSong (Some k) (st, d) =
    match map_get k (songs st) with
    | None => (mkResponse 404 NotFoundMessage, (st, d))
    | Some song =>
        match (if existsSync d (path song) then unlink (path song) d
               else Some d) with
        | None => (mkResponse 404 NotFoundMessage, (st, d))
        | Some d1 =>
            let st' := mkFileStorage (snd (map_delete k (songs st)))
                                     (currentId st) in
            (mkResponse 204 NoBody, (st', saveMetadata st' d1))
        end
    end.
Proof.
  unfold Routes.deleteSong, Storage.deleteSong. simpl.
  destruct (map_get k (songs st)) as [song|] eqn:E; [| done].
  destruct (if existsSync d (path song) then _ else _); [| done].
  unfold map_delete, map_has. by rewrite E.
Qed.

(** X11. [DELETE /api/songs/:id]: a URL parameter that is no number is
    answered 400 with nothing changed; otherwise the answer is 204 or
    404; after a 204 the store no longer has the song and the same
    request is answered 404; a 404 leaves store and disk as they were,
    and it is given when the store has no such song and also when the
    store has it and [unlink] rejects, so a 404 does not say that the
    song is gone. *)
Theorem deleteSong_route url_id st d :
  let r := Routes.deleteSong url_id (st, d) in
  (url_id = None -> r = (mkResponse 400 ValidationMessage, (st, d))) /\
  (forall k, url_id = Some k ->
     (status (fst r) = 204 \/ status (fst r) = 404) /\
     (status (fst r) = 204 ->
        getSong k (fst (snd r)) = None /\
        status (fst (Routes.deleteSong url_id (snd r))) = 404) /\
     (status (fst r) = 404 -> snd r = (st, d)) /\
     (status (fst r) = 404 <->
        getSong k st = None \/
        exists song, getSong k st = Some song /\
                     existsSync d (path song) = true /\
                     unlink (path song) d = None)).
Proof.
  cbv zeta. split; [by intros -> |]. intros k ->.
  assert (Hagain : forall d',
    status (fst (Routes.deleteSong (Some k)
      (mkFileStorage (snd (map_delete k (songs st))) (currentId st), d')))
    = 404).
  { intros d'. rewrite route_delete_cases. simpl.
    change (filter _ (songs st)) with (snd (map_delete k (songs st))).
    by rewrite map_get_delete. }
  rewrite (route_delete_cases k st d). unfold getSong.
  destruct (map_get k (songs st)) as [song|] eqn:E.
  - destruct (existsSync d (path song)) eqn:Efile.
    + destruct (unlink (path song) d) as [d1|] eqn:Eun; cbv zeta; simpl.
      * split; [by left |]. split.
        { intros _. split; [apply map_get_delete | apply Hagain]. }
        split; [done |]. split; [done |].
        intros [H | (s' & Hs' & _ & H)]; [done |]. injection Hs' as <-.
        congruence.
      * split; [by right |]. split; [done |]. split; [done |].
        split; [| done]. intros _. right. by exists song.
    + cbv zeta. simpl. split; [by left |]. split.
      { intros _. split; [apply map_get_delete | apply Hagain]. }
      split; [done |]. split; [done |].
      intros [H | (s' & Hs' & H & _)]; [done |]. injection Hs' as <-.
      congruence.
  - simpl. split; [by right |]. split; [done |]. split; [done |].
    split; [| done]. intros _. by left.
Qed.

(** Song 2 of the sample store with a file that cannot be unlinked: the
    answer is 404 and the song is still listed. *)
Lemma deleteSong_route_witness :
  let r := Routes.deleteSong (Some 2) MoreSamples.world_with_protected_file in
  status (fst r) = 404 /\ map id (getAllSongs (fst (snd r))) = [1; 2; 3].
Proof.
  cbv zeta. split; [reflexivity |].
  destruct (deleteSong_route (Some 2)
              (fst MoreSamples.world_with_protected_file)
              (snd MoreSamples.world_with_protected_file)) as [_ Hk].
  destruct (Hk 2 eq_refl) as (_ & _ & Hsame & _).
  change (fst MoreSamples.world_with_protected_file,
          snd MoreSamples.world_with_protected_file)
    with MoreSamples.world_with_protected_file in Hsame.
  rewrite (Hsame eq_refl). reflexivity.
Defined.

(** X12. What the rename dialog sends is never refused: when
    [handleSubmit] sends a request at all, the schema of
    [PATCH /api/songs/:id] accepts it and reads from it the very input
    the dialog built, so the answer is 200 or 404, never 400. *)
Theorem dialog_request_is_valid trim song newTitle newArtist input w :
  RenameDialog.handleSubmit trim song newTitle newArtist = Some input ->
  parseRename (Some (id song)) (dialog_body input) = Some input /\
  rn_title input <> ""%string /\
  status (fst (patchSong (Some (id song)) (dialog_body input) w)) <> 400.
Proof.
  unfold RenameDialog.handleSubmit.
  destruct (String.eqb (trim newTitle) "") eqn:E; [done |].
  intros [= <-].
  assert (Hparse : parseRename (Some (id song))
    (dialog_body (mkRenameSongInput (id song) (trim newTitle)
       (Some match newArtist with Some a => trim a | None => ""%string end)))
    = Some (mkRenameSongInput (id song) (trim newTitle)
       (Some match newArtist with Some a => trim a | None => ""%string end))).
  { unfold parseRename, dialog_body, patch_id. simpl. by rewrite E. }
  split; [exact Hparse |]. split.
  - simpl. by apply String.eqb_neq in E.
  - unfold patchSong. rewrite Hparse.
    by destruct (renameSong _ w) as [[updated|] w'].
Qed.

(** The dialog of song B with the title field set to "B2" and the artist
    field cleared. *)
Lemma dialog_request_is_valid_witness :
  exists input,
    RenameDialog.handleSubmit (fun t => t) Samples.songB "B2" (Some ""%string)
      = Some input /\
    status (fst (patchSong (Some 2) (dialog_body input) Samples.world3)) = 200.
Proof.
  eexists. split; [reflexivity |].
  destruct (dialog_request_is_valid (fun t => t) Samples.songB "B2"
              (Some ""%string) _ Samples.world3 eq_refl) as (_ & _ & _).
  reflexivity.
Defined.

End RoutesProperties.

(** * Properties of the bundled build *)

Section BundleProperties.
Import Storage Server.

(** X13. The store of the bundled build and [FileStorage] agree, from
    the same records and counter, on everything but the sidecar:
    [createSong] and [renameSong] return the same record and leave the
    same records and counter; [deleteSong] returns the same flag and
    leaves the same records and files when the id is absent and when the
    song's file is on the disk. *)
Theorem bundled_store_agrees m n d :
  let fs := mkFileStorage m n in
  let ms := MemStorage.mkMemStorage m n in
  (forall insertSong,
     fst (MemStorage.createSong insertSong ms) =
       fst (createSong insertSong (fs, d)) /\
     MemStorage.songs (snd (MemStorage.createSong insertSong ms)) =
       songs (fst (snd (createSong insertSong (fs, d)))) /\
     MemStorage.currentId (snd (MemStorage.createSong insertSong ms)) =
       currentId (fst (snd (createSong insertSong (fs, d))))) /\
  (forall input,
     fst (MemStorage.renameSong input ms) = fst (renameSong input (fs, d)) /\
     MemStorage.songs (snd (MemStorage.renameSong input ms)) =
       songs (fst (snd (renameSong input (fs, d)))) /\
     MemStorage.currentId (snd (MemStorage.renameSong input ms)) =
       currentId (fst (snd (renameSong input (fs, d))))) /\
  (forall input,
     (map_get (del_id input) m = None \/
      exists song, map_get (del_id input) m = Some song /\
                   existsSync d (path song) = true) ->
     fst (MemStorage.deleteSong input (ms, d)) =
       fst (deleteSong input (fs, d)) /\
     MemStorage.songs (fst (snd (MemStorage.deleteSong input (ms, d)))) =
       songs (fst (snd (deleteSong input (fs, d)))) /\
     files (snd (snd (MemStorage.deleteSong input (ms, d)))) =
       files (snd (snd (deleteSong input (fs, d))))).
Proof.
  cbv zeta. split; [done |]. split.
  - intros input. unfold MemStorage.renameSong, renameSong. simpl.
    by destruct (map_get (rn_id input) m).
  - intros input Hcase. unfold MemStorage.deleteSong, deleteSong. simpl.
    destruct Hcase as [-> | (song & -> & Hfile)]; [done |].
    unfold MemStorage.unlink. rewrite Hfile.
    destruct (unlink (path song) d) as [d1|]; simpl; [| done].
    split; [done |]. split; [done |]. symmetry. apply saveMetadata_frame.
Qed.

(** X14. In the bundled build a song whose file is missing cannot be
    deleted: [deleteSong] returns [false] and changes nothing, however
    often it is called, where [FileStorage] removes the record and
    returns [true]. *)
Theorem bundled_store_keeps_song_without_file input st d song :
  MemStorage.getSong (del_id input) st = Some song ->
  existsSync d (path song) = false ->
  MemStorage.deleteSong input (st, d) = (false, (st, d)) /\
  (forall n : nat,
     Nat.iter n (fun w => snd (MemStorage.deleteSong input w)) (st, d) = (st, d)) /\
  fst (deleteSong input
         (mkFileStorage (MemStorage.songs st) (MemStorage.currentId st), d))
    = true.
Proof.
  unfold MemStorage.getSong. intros Hget Hfile.
  assert (Hone : MemStorage.deleteSong input (st, d) = (false, (st, d))).
  { unfold MemStorage.deleteSong, MemStorage.unlink. by rewrite Hget, Hfile. }
  split; [done |]. split.
  - induction n as [|n IH]; [done |]. rewrite Nat.iter_succ_r. by rewrite Hone.
  - unfold deleteSong. simpl. rewrite Hget, Hfile. unfold map_delete, map_has.
    by rewrite Hget.
Qed.

(** Song 2 of the sample library after its file has gone. *)
Lemma bundled_store_keeps_song_without_file_witness :
  let st := MemStorage.mkMemStorage (songs (fst Samples.world3)) 4 in
  let d := snd MoreSamples.world_with_missing_file in
  MemStorage.deleteSong (mkDeleteSongInput 2) (st, d) = (false, (st, d)).
Proof.
  cbv zeta.
  apply (bundled_store_keeps_song_without_file (mkDeleteSongInput 2)
           (MemStorage.mkMemStorage (songs (fst Samples.world3)) 4)
           (snd MoreSamples.world_with_missing_file)
           (mkSong 2 "B" (Some "Unknown"%string) (Some 0) "mp3" "/u/b.mp3"
                   "b.mp3")); reflexivity.
Defined.

(** *** The address the server listens on *)

Lemma first_external_None infos :
  first_external infos = None <->
  forall net, net ∈ infos -> external_IPv4 net = false.
Proof.
  induction infos as [|net infos IH]; simpl.
  - split; [intros _ net H; by apply not_elem_of_nil in H | done].
  - destruct (external_IPv4 net) eqn:E.
    + split; [done |]. intros H. specialize (H net (list_elem_of_here _ _)).
      congruence.
    + rewrite IH. split.
      * intros H net' Hin. apply elem_of_cons in Hin as [-> | Hin]; auto.
      * intros H net' Hin. apply H. by apply list_elem_of_further.
Qed.

Lemma first_external_Some infos a :
  first_external infos = Some a ->
  exists net, net ∈ infos /\ external_IPv4 net = true /\ address net = a.
Proof.
  induction infos as [|net infos IH]; simpl; [done |].
  destruct (external_IPv4 net) eqn:E.
  - intros [= <-]. exists net. split; [apply list_elem_of_here | done].
  - intros H. destruct (IH H) as (net' & Hin & Hext & Ha).
    exists net'. split; [by apply list_elem_of_further | done].
Qed.

Lemma nets_get_elem name infos nets :
  NoDup (map fst nets) -> (name, infos) ∈ nets -> nets_get name nets = Some infos.
Proof.
  induction nets as [|[name' infos'] nets IH]; simpl; intros Hnd Hin.
  - by apply not_elem_of_nil in Hin.
  - apply NoDup_cons in Hnd as [Hfresh Hnd].
    apply elem_of_cons in Hin as [[= -> ->] | Hin].
    + by rewrite String.eqb_refl.
    + destruct (String.eqb name name') eqn:E; [| by apply IH].
      apply String.eqb_eq in E. subst name'. exfalso. apply Hfresh.
      apply list_elem_of_fmap. by exists (name, infos).
Qed.

Lemma nets_get_Some name infos nets :
  nets_get name nets = Some infos -> (name, infos) ∈ nets.
Proof.
  induction nets as [|[name' infos'] nets IH]; simpl; [done |].
  destruct (String.eqb name name') eqn:E.
  - apply String.eqb_eq in E. intros [= ->]. subst. apply list_elem_of_here.
  - intros H. apply list_elem_of_further. auto.
Qed.

Lemma scan_None names nets :
  scan names nets = None <->
  forall name, name ∈ names ->
    first_external (default [] (nets_get name nets)) = None.
Proof.
  induction names as [|name names IH]; simpl.
  - split; [intros _ name H; by apply not_elem_of_nil in H | done].
  - destruct (first_external (default [] (nets_get name nets))) eqn:E.
    + split; [done |]. intros H. specialize (H name (list_elem_of_here _ _)).
      congruence.
    + rewrite IH. split.
      * intros H name' Hin. apply elem_of_cons in Hin as [-> | Hin]; auto.
      * intros H name' Hin. apply H. by apply list_elem_of_further.
Qed.

Lemma scan_Some names nets a :
  scan names nets = Some a ->
  exists name infos net,
    nets_get name nets = Some infos /\ net ∈ infos /\
    external_IPv4 net = true /\ address net = a.
Proof.
  induction names as [|name names IH]; simpl; [done |].
  destruct (first_external (default [] (nets_get name nets))) as [a'|] eqn:E.
  - intros [= <-]. apply first_external_Some in E as (net & Hin & Hext & Ha).
    destruct (nets_get name nets) as [infos|] eqn:Eget.
    + by exists name, infos, net.
    + by apply not_elem_of_nil in Hin.
  - exact IH.
Qed.

(** X15. [getLocalIpAddress], on interfaces under distinct names:
    it returns [null] exactly when no interface is an IPv4 one that is
    not internal; an address it returns is the address of such an
    interface; and the host the server listens on, that address or
    "localhost", is never the empty string. *)
Theorem getLocalIpAddress_spec nets :
  NoDup (map fst nets) ->
  (getLocalIpAddress nets = None <->
     forall name infos net, (name, infos) ∈ nets -> net ∈ infos ->
       family net <> "IPv4"%string \/ internal net = true) /\
  (forall a, getLocalIpAddress nets = Some a ->
     exists name infos net,
       (name, infos) ∈ nets /\ net ∈ infos /\
       family net = "IPv4"%string /\ internal net = false /\ address net = a) /\
  localIp nets <> ""%string.
Proof.
  intros Hnd.
  assert (Hext : forall net, external_IPv4 net = false <->
                   family net <> "IPv4"%string \/ internal net = true).
  { intros net. unfold external_IPv4. rewrite andb_false_iff, negb_false_iff.
    by rewrite String.eqb_neq. }
  split; [| split].
  - unfold getLocalIpAddress. rewrite scan_None. split.
    + intros H name infos net Hin Hnet. apply Hext.
      assert (Hname : name ∈ map fst nets).
      { apply list_elem_of_fmap. by exists (name, infos). }
      specialize (H name Hname).
      rewrite (nets_get_elem name infos nets Hnd Hin) in H. simpl in H.
      by apply (first_external_None infos).
    + intros H name Hname. apply first_external_None. intros net Hnet.
      destruct (nets_get name nets) as [infos|] eqn:E.
      * apply Hext. apply (H name infos net); [| done].
        by apply nets_get_Some.
      * by apply not_elem_of_nil in Hnet.
  - intros a Ha. apply scan_Some in Ha as (name & infos & net & Hget & Hin & He & Haddr).
    exists name, infos, net. split; [by apply nets_get_Some |].
    split; [done |]. unfold external_IPv4 in He.
    apply andb_true_iff in He as [Hf Hi]. apply String.eqb_eq in Hf.
    apply negb_true_iff in Hi. done.
  - unfold localIp, or_string.
    destruct (getLocalIpAddress nets) as [a|]; simpl; [| done].
    destruct (String.eqb a "") eqn:E; simpl; [done |].
    by apply String.eqb_neq in E.
Qed.

(** A loopback interface and an Ethernet interface with an IPv6 and an
    IPv4 address: the server listens on the IPv4 address. *)
Lemma getLocalIpAddress_spec_witness :
  getLocalIpAddress MoreSamples.interfaces = Some "192.168.1.20"%string /\
  localIp MoreSamples.interfaces <> ""%string.
Proof.
  split; [reflexivity |].
  apply (getLocalIpAddress_spec MoreSamples.interfaces).
  simpl. apply NoDup_cons. split.
  - intros H. apply list_elem_of_singleton in H. discriminate.
  - apply NoDup_singleton.
Defined.

(** X16. The request logger cuts the message, not the line: the
    message it hands to [log] is at most 80 code units long, the built
    line itself when that has up to 80 units and otherwise its first 79
    units followed by the ellipsis; the line written to the console is
    the time of day, " [express] " and that message, so it is 11 units
    and the time longer than the message, and longer than 80 units as
    soon as the built line has 70. *)
Theorem request_log_line formattedTime logLine :
  let message := clip ellipsis logLine in
  (length message <= 80)%nat /\
  ((length logLine <= 80)%nat -> message = logLine) /\
  ((80 < length logLine)%nat ->
     length message = 80%nat /\
     take 79 message = take 79 logLine /\
     message !! 79%nat = Some ellipsis) /\
  logRequest formattedTime logLine =
    formattedTime ++ [32; 91] ++ express ++ [93; 32] ++ message /\
  length (logRequest formattedTime logLine) =
    (length formattedTime + 11 + Nat.min (length logLine) 80)%nat /\
  ((70 <= length logLine)%nat ->
     (80 < length (logRequest formattedTime logLine))%nat).
Proof.
  cbv zeta.
  assert (Hlen : length (clip ellipsis logLine) = Nat.min (length logLine) 80).
  { unfold clip. destruct (80 <? length logLine)%nat eqn:E.
    - apply Nat.ltb_lt in E. rewrite length_app, length_take.
      change (length [ellipsis]) with 1%nat. lia.
    - apply Nat.ltb_ge in E. lia. }
  assert (Hline : length (logRequest formattedTime logLine) =
                  (length formattedTime + 11 + Nat.min (length logLine) 80)%nat).
  { unfold logRequest, log, express. rewrite !length_app, Hlen.
    change (length [32; 91]) with 2%nat.
    change (length [101; 120; 112; 114; 101; 115; 115]) with 7%nat.
    change (length [93; 32]) with 2%nat. lia. }
  split; [lia |]. split; [| split; [| split; [done | split; [done | lia]]]].
  - intros Hshort. unfold clip.
    destruct (80 <? length logLine)%nat eqn:E; [| done].
    apply Nat.ltb_lt in E. lia.
  - intros Hlong. split; [lia |]. unfold clip.
    assert ((80 <? length logLine)%nat = true) as -> by (apply Nat.ltb_lt; lia).
    assert (H79 : length (take 79 logLine) = 79%nat).
    { rewrite length_take. lia. }
    split.
    + rewrite take_app_le by lia. by rewrite take_ge by lia.
    + rewrite lookup_app_r by lia. by rewrite H79.
Qed.

End BundleProperties.

(** * Properties of the audio player *)

Section AudioProperties.
Import AudioPlayer AudioListeners.

(** X17. [seek] keeps the position within the track: with a known
    duration d it moves the position to any time of [0, d] and does
    nothing for a time outside; with no duration known it does nothing,
    not even for time 0; it never changes the duration or the paused
    flag; so a position it has changed lies in [0, d]. [stop], unlike
    [seek(0)], rewinds and pauses whatever the duration. *)
Theorem seek_stays_within_track time a :
  (forall d, duration a = Some d -> (0 <= time)%Q -> (time <= d)%Q ->
     seek time a = mkAudio time (duration a) (paused a)) /\
  (forall d, duration a = Some d -> (time < 0)%Q \/ (d < time)%Q ->
     seek time a = a) /\
  (duration a = None -> seek time a = a) /\
  duration (seek time a) = duration a /\
  paused (seek time a) = paused a /\
  (seek time a <> a ->
     exists d, duration a = Some d /\
               (0 <= currentTime (seek time a))%Q /\
               (currentTime (seek time a) <= d)%Q) /\
  (currentTime (stop a) = 0%Q /\ paused (stop a) = true).
Proof.
  unfold seek. destruct (duration a) as [d|] eqn:Ed.
  - destruct (Qle_bool 0 time) eqn:E0; destruct (Qle_bool time d) eqn:E1;
      simpl; repeat split; try done.
    + intros d' [= <-] [H | H].
      * apply Qle_bool_iff in E0. by apply Qlt_not_le in H.
      * apply Qle_bool_iff in E1. by apply Qlt_not_le in H.
    + intros _. exists d. split; [done |]. simpl.
      split; by apply Qle_bool_iff.
    + intros d' [= <-] _ H. apply Qle_bool_iff in H. congruence.
    + intros d' [= <-] H _. apply Qle_bool_iff in H. congruence.
    + intros d' [= <-] H _. apply Qle_bool_iff in H. congruence.
  - repeat split; done.
Qed.

Lemma forEach_receivers react call callbacks a n :
  (forall cb a', receiver (call cb a') = cb) ->
  n ∈ fst (forEach react call callbacks a) ->
  receiver n ∈ callbacks /\ exists cb a', n = call cb a'.
Proof.
  intros Hcall. revert a. induction callbacks as [|cb l IH]; intros a; simpl.
  - intros H. by apply not_elem_of_nil in H.
  - destruct (forEach react call l (react (call cb a) a)) as [ns a'] eqn:E.
    simpl. intros H. apply elem_of_cons in H as [-> | H].
    + rewrite Hcall. split; [apply list_elem_of_here | by exists cb, a].
    + destruct (IH (react (call cb a) a)) as [H1 H2]; [by rewrite E |].
      split; [by apply list_elem_of_further | done].
Qed.


Lemma forEach_snoc react call l cb a :
  forEach react call (l ++ [cb]) a =
    (fst (forEach react call l a) ++ [call cb (snd (forEach react call l a))],
     react (call cb (snd (forEach react call l a)))
       (snd (forEach react call l a))).
Proof.
  revert a. induction l as [|c l IH]; intros a; simpl; [done |].
  rewrite IH. by destruct (forEach react call l _) as [ns1 a1].
Qed.

Lemma filter_off_fresh (callback : nat) (l : list nat) :
  callback ∉ l -> filter (fun cb => cb <> callback) (l ++ [callback]) = l.
Proof.
  intros Hn. rewrite filter_app. simpl. rewrite filter_cons.
  destruct (decide (callback <> callback)) as [Hc | _]; [done |].
  rewrite filter_nil, app_nil_r.
  induction l as [|c l IH]; [done |].
  rewrite filter_cons. apply not_elem_of_cons in Hn as [Hne Hn].
  destruct (decide (c <> callback)) as [_ | Hc]; [by rewrite IH |].
  exfalso. apply Hc. by intros ->.
Qed.



(** X18. Listeners are added at the end and removed by reference: a
    callback registered and then removed leaves the array as it was, if
    it was not in it before; [off] removes every registration of the
    callback, so that no later event calls it, whatever the callbacks do
    to the element while they run; and the native [ended] event calls
    the end listeners in the order of their registration, the one added
    last being called last. *)
Theorem listeners_on_off react callback p :
  (callback ∉ timeUpdateCallbacks p ->
     offTimeUpdate callback (onTimeUpdate callback p) = p) /\
  (callback ∉ durationChangeCallbacks p ->
     offDurationChange callback (onDurationChange callback p) = p) /\
  (callback ∉ endedCallbacks p ->
     offEnded callback (onEnded callback p) = p) /\
  (forall n, n ∈ fst (timeupdate react (offTimeUpdate callback p)) ->
     time_update_for callback n = false) /\
  (forall n, n ∈ fst (durationchange react (offDurationChange callback p)) ->
     receiver n <> callback) /\
  (forall n, n ∈ fst (timeupdate react (offEnded callback p)) ++
                 fst (ended react (offEnded callback p)) ->
     ended_for callback n = false) /\
  fst (ended react (onEnded callback p)) =
    fst (ended react p) ++ [Ended callback].
Proof.
  destruct p as [a tcs dcs ecs].
  assert (Hoff : forall (l : list nat) c,
            c ∈ filter (fun cb => cb <> callback) l -> c <> callback).
  { intros l c Hc. by apply list_elem_of_filter in Hc as [Hne _]. }
  assert (Htime : forall cbs a0 n,
    n ∈ fst (forEach react (fun cb a1 => TimeUpdate cb (currentTime a1)) cbs a0) ->
    receiver n ∈ cbs /\ ended_for callback n = false).
  { intros cbs a0 n Hn.
    destruct (forEach_receivers react
                (fun cb a1 => TimeUpdate cb (currentTime a1)) cbs a0 n
                (fun _ _ => eq_refl) Hn)
      as [Hr (cb & a' & ->)]. by split. }
  assert (Hend : forall cbs a0 n,
    n ∈ fst (forEach react (fun cb _ => Ended cb) cbs a0) ->
    receiver n ∈ cbs /\ time_update_for callback n = false).
  { intros cbs a0 n Hn.
    destruct (forEach_receivers react (fun cb _ => Ended cb) cbs a0 n
                (fun _ _ => eq_refl) Hn)
      as [Hr (cb & a' & ->)]. by split. }
  assert (Hrecv_t : forall n, receiver n <> callback ->
            time_update_for callback n = false).
  { intros [c t|c d|c] Hne; simpl in *; [by apply Nat.eqb_neq | done | done]. }
  assert (Hrecv_e : forall n, receiver n <> callback ->
            ended_for callback n = false).
  { intros [c t|c d|c] Hne; simpl in *; [done | done | by apply Nat.eqb_neq]. }
  repeat split.
  - intros Hn. unfold offTimeUpdate, onTimeUpdate. simpl.
    by rewrite filter_off_fresh.
  - intros Hn. unfold offDurationChange, onDurationChange. simpl.
    by rewrite filter_off_fresh.
  - intros Hn. unfold offEnded, onEnded. simpl.
    by rewrite filter_off_fresh.
  - intros n. unfold timeupdate, offTimeUpdate. simpl.
    destruct (forEach react _ (filter _ tcs) a) as [ns a1] eqn:E1.
    assert (H1 : forall m, m ∈ ns -> time_update_for callback m = false).
    { intros m Hm. apply Hrecv_t. apply (Hoff tcs).
      apply (Htime _ a). by rewrite E1. }
    destruct (at_end a1); [| exact (H1 n)].
    destruct (forEach react _ ecs a1) as [ns' a2] eqn:E2. simpl.
    intros Hn. apply elem_of_app in Hn as [Hn | Hn]; [by apply H1 |].
    apply (Hend ecs a1). by rewrite E2.
  - intros n. unfold durationchange, offDurationChange. simpl.
    destruct (duration a) as [d|]; [| intros Hn; by apply not_elem_of_nil in Hn].
    destruct (Qeq_bool d 0); [intros Hn; by apply not_elem_of_nil in Hn |].
    destruct (forEach react _ (filter _ dcs) a) as [ns a1] eqn:E1. simpl.
    intros Hn. apply (Hoff dcs).
    apply (forEach_receivers react
             (fun cb a1 => DurationChange cb (duration a1)) _ a n
             (fun _ _ => eq_refl)).
    by rewrite E1.
  - intros n. unfold timeupdate, ended, offEnded. simpl.
    destruct (forEach react _ tcs a) as [ns a1] eqn:E1.
    assert (H1 : forall m, m ∈ ns -> ended_for callback m = false).
    { intros m Hm. apply (Htime tcs a). by rewrite E1. }
    assert (H2 : forall a0 m,
              m ∈ fst (forEach react (fun cb _ => Ended cb)
                         (filter (fun cb => cb <> callback) ecs) a0) ->
              ended_for callback m = false).
    { intros a0 m Hm. apply Hrecv_e. apply (Hoff ecs). by apply (Hend _ a0). }
    intros Hn. apply elem_of_app in Hn as [Hn | Hn].
    + destruct (at_end a1); [| by apply H1].
      destruct (forEach react _ (filter _ ecs) a1) as [ns' a2] eqn:E2.
      simpl in Hn. apply elem_of_app in Hn as [Hn | Hn]; [by apply H1 |].
      apply (H2 a1). by rewrite E2.
    + destruct (forEach react _ (filter _ ecs) a) as [ns' a2] eqn:E2.
      simpl in Hn. apply (H2 a). by rewrite E2.
  - unfold ended, onEnded. simpl. rewrite forEach_snoc.
    by destruct (forEach react _ ecs a).
Qed.

Lemma listeners_on_off_witness :
  offEnded 11 (onEnded 11 MoreSamples.player_near_end) =
    MoreSamples.player_near_end.
Proof.
  destruct (listeners_on_off (fun _ a => a) 11 MoreSamples.player_near_end)
    as (_ & _ & H & _).
  apply H. vm_compute. intros Hin.
  apply elem_of_cons in Hin as [Hin | Hin]; [discriminate |].
  by apply not_elem_of_nil in Hin.
Defined.



End AudioProperties.

(** * Further properties of the playlist controller *)

Section MorePlayerProperties.
Import Player.

(** *** What the shuffle can draw *)

Lemma swap_length i j l : length (swap i j l) = length l.
Proof.
  unfold swap. destruct (l !! i); [| done]. destruct (l !! j); [| done].
  by rewrite !length_insert.
Qed.

Lemma fisher_yates_ext r1 r2 i l :
  (forall k, (k <= i)%nat -> r1 k = r2 k) ->
  fisher_yates r1 i l = fisher_yates r2 i l.
Proof.
  revert l. induction i as [|i IH]; intros l Hr; simpl; [done |].
  rewrite (Hr (S i)) by lia. apply IH. intros k Hk. apply Hr. lia.
Qed.

Lemma swap_drop n j l :
  (j <= n)%nat -> drop (S n) (swap n j l) = drop (S n) l.
Proof.
  intros Hj. unfold swap. destruct (l !! n); [| done].
  destruct (l !! j); [| done].
  rewrite !drop_insert_lt by lia. done.
Qed.

Lemma swap_lookup n j l x :
  (n < length l)%nat -> l !! j = Some x -> swap n j l !! n = Some x.
Proof.
  intros Hn Hj. unfold swap.
  destruct (l !! n) as [y|] eqn:En.
  2: { apply lookup_ge_None in En. lia. }
  rewrite Hj. destruct (decide (j = n)) as [-> | Hne].
  - rewrite list_lookup_insert_eq by (by rewrite length_insert). congruence.
  - rewrite list_lookup_insert_ne by done.
    by rewrite list_lookup_insert_eq.
Qed.

Lemma fisher_yates_S random n l :
  fisher_yates random (S n) l =
  fisher_yates random n (swap (S n) (random (S n) mod (S n + 1))%nat l).
Proof. reflexivity. Qed.

Lemma fisher_yates_reaches i (l p : list Song) :
  (i < length l)%nat ->
  take (S i) p ≡ₚ take (S i) l ->
  drop (S i) p = drop (S i) l ->
  exists random, fisher_yates random i l = p.
Proof.
  revert l. induction i as [|n IH]; intros l Hi Htake Hdrop.
  - exists (fun _ => 0%nat). simpl.
    rewrite <- (take_drop 1 l), <- (take_drop 1 p), Hdrop. f_equal.
    destruct l as [|y l]; [simpl in Hi; lia |]. simpl in Htake.
    destruct p as [|x p]; simpl in *.
    + by apply Permutation_nil_cons in Htake.
    + apply Permutation_singleton_inj in Htake. by subst.
  - assert (Hlen : length p = length l).
    { pose proof (Permutation_length Htake) as H1.
      pose proof (f_equal length Hdrop) as H2.
      rewrite !length_take in H1. rewrite !length_drop in H2. lia. }
    destruct (lookup_lt_is_Some_2 p (S n)) as [x Hx]; [lia |].
    assert (Hin : x ∈ take (S (S n)) l).
    { rewrite <- Htake. apply list_elem_of_lookup. exists (S n).
      rewrite lookup_take_lt by lia. done. }
    apply list_elem_of_lookup in Hin as [j Hj].
    apply lookup_take_Some in Hj as [Hj Hjn].
    set (l' := swap (S n) j l).
    assert (Hl'n : l' !! S n = Some x) by (by apply swap_lookup).
    assert (Hl'drop : drop (S (S n)) l' = drop (S (S n)) l).
    { apply swap_drop. lia. }
    assert (Hl'take : take (S (S n)) l' ≡ₚ take (S (S n)) l).
    { apply (Permutation_app_inv_r (drop (S (S n)) l)).
      rewrite <- Hl'drop at 1. rewrite !take_drop. apply swap_Permutation. }
    destruct (IH l') as [random' Hrandom'].
    + unfold l'. rewrite swap_length. lia.
    + apply (Permutation_app_inv_r [x]).
      rewrite <- (take_S_r p (S n) x Hx), <- (take_S_r l' (S n) x Hl'n).
      by rewrite Htake, Hl'take.
    + rewrite (drop_S p x (S n) Hx), (drop_S l' x (S n) Hl'n).
      by rewrite Hdrop, Hl'drop.
    + exists (fun k => if Nat.eqb k (S n) then j else random' k).
      rewrite fisher_yates_S, Nat.eqb_refl. rewrite Nat.mod_small by lia.
      fold l'. rewrite <- Hrandom'. apply fisher_yates_ext.
      intros k Hk. destruct (Nat.eqb k (S n)) eqn:E; [| done].
      apply Nat.eqb_eq in E. lia.
Qed.

(** X20. The shuffle draws the orders of the list and nothing else:
    whatever [Math.random] returns, the shuffled playlist is a
    permutation of the playlist, of the same length, and no other field
    of the hook changes; and every permutation of the playlist is the
    result of some sequence of draws. *)
Theorem shuffle_draws_every_order s :
  (forall random,
     shuffledPlaylistRef (updateShuffledPlaylist random s) ≡ₚ playlistRef s /\
     length (shuffledPlaylistRef (updateShuffledPlaylist random s)) =
       length (playlistRef s) /\
     updateShuffledPlaylist random s =
       set_shuffledPlaylistRef
         (shuffledPlaylistRef (updateShuffledPlaylist random s)) s) /\
  (forall p, p ≡ₚ playlistRef s ->
     exists random,
       shuffledPlaylistRef (updateShuffledPlaylist random s) = p).
Proof.
  split.
  - intros random. simpl. split; [apply fisher_yates_Permutation |].
    split; [| done]. apply Permutation_length, fisher_yates_Permutation.
  - intros p Hp. simpl. pose proof (Permutation_length Hp) as Hlen.
    destruct (playlistRef s) as [|y l] eqn:El.
    + exists (fun _ => 0%nat). simpl. symmetry.
      by apply Permutation_nil_r in Hp.
    + replace (length (y :: l) - 1)%nat with (length l) by (simpl; lia).
      apply fisher_yates_reaches.
      * simpl. lia.
      * rewrite !take_ge by (simpl in *; lia). done.
      * rewrite !drop_ge by (simpl in *; lia). done.
Qed.

(** *** What holds in every reachable state *)

(** X21. In every state the hook can reach, the playlist ref is the
    [songs] argument, the shuffled playlist is a permutation of it, so
    the active sequence has its length; with no current track the index
    is -1; a current track has the id of a track of the list and the
    index lies within the list; and with an empty list there is no
    current track. *)
Theorem reachable_state_is_coherent s :
  reachable s ->
  playlistRef s = songs s /\
  shuffledPlaylistRef s ≡ₚ songs s /\
  length (getCurrentPlaylist s) = length (songs s) /\
  (currentSong s = None -> currentIndexRef s = -1) /\
  (forall cur, currentSong s = Some cur ->
     0 <= currentIndexRef s < Z.of_nat (length (songs s)) /\
     exists t, t ∈ songs s /\ id t = id cur) /\
  (songs s = [] -> currentSong s = None).
Proof.
  intros Hr. apply reachable_coherent in Hr.
  pose proof (active_length s Hr) as Hlen.
  pose proof (coherent_cleared s Hr) as Hclear.
  destruct Hr as (Hp & Hs & Hcur).
  split; [done |]. split; [done |]. split; [done |].
  split; [intros Hnone; by rewrite Hnone in Hcur |].
  split; [intros cur Hsome; by rewrite Hsome in Hcur |].
  intros Hnil. by apply Hclear.
Qed.

(** The state after the history that breaks the index invariant is
    still coherent: track A is of the list, the index within it. *)
Lemma reachable_state_is_coherent_witness :
  shuffledPlaylistRef MoreSamples.off_track ≡ₚ songs MoreSamples.off_track /\
  0 <= currentIndexRef MoreSamples.off_track < 4.
Proof.
  destruct (reachable_state_is_coherent MoreSamples.off_track)
    as (_ & Hperm & _ & _ & Hcur & _).
  - by exists Samples.shuffled_then_uploaded.
  - split; [exact Hperm |].
    destruct (Hcur Samples.songA eq_refl) as [Hrange _]. exact Hrange.
Defined.

(** X22. The index stays on the current track as long as no new list
    arrives while shuffle is on: after every such history, with a
    current track, the index is a position of the active sequence, not
    negative and below its length, and the track at that position is the
    current track. *)
Theorem index_on_track_while_lists_arrive_unshuffled es :
  lists_arrive_unshuffled es initial ->
  let s := run es initial in
  forall cur, currentSong s = Some cur ->
    0 <= currentIndexRef s < Z.of_nat (length (getCurrentPlaylist s)) /\
    exists t, getCurrentPlaylist s !! Z.to_nat (currentIndexRef s) = Some t /\
              id t = id cur.
Proof.
  intros Hes. cbv zeta. intros cur Hcur.
  destruct (index_invariant_unshuffled es Hes) as [Hidx _].
  pose proof (coherent_run es initial coherent_initial) as Hcoh.
  pose proof (active_length _ Hcoh) as Hlen.
  destruct Hcoh as (_ & _ & Hc).
  rewrite Hcur in Hc. destruct Hc as [Hrange _].
  split; [by rewrite Hlen |].
  destruct Hidx as (t & cur' & Ht & Hcur' & Hsame); [lia |].
  exists t. split; [done |]. rewrite Hcur in Hcur'. by injection Hcur' as <-.
Qed.

(** A history with shuffle switched on and off between two arrivals of
    the list. *)
Lemma index_on_track_while_lists_arrive_unshuffled_witness :
  let s := run MoreSamples.calm_history initial in
  0 <= currentIndexRef s /\
  exists t, getCurrentPlaylist s !! Z.to_nat (currentIndexRef s) = Some t /\
            currentSong s = Some t.
Proof.
  cbv zeta.
  destruct (index_on_track_while_lists_arrive_unshuffled
              MoreSamples.calm_history) with (cur := Samples.songD)
    as ([Hlow _] & t & Ht & _).
  - simpl. repeat split.
  - reflexivity.
  - split; [exact Hlow |].
    exists t. split; [exact Ht |]. vm_compute in Ht. injection Ht as <-.
    reflexivity.
Defined.

(** X23. Toggling shuffle puts the index back on the current track: in
    every reachable state with a current track, also one in which the
    index points elsewhere, after [toggleShuffle] the current track is
    unchanged, the index is a position of the sequence that has become
    active, not negative and below its length, and the track at that
    position is the current track. *)
Theorem toggleShuffle_restores_index random s cur :
  reachable s ->
  currentSong s = Some cur ->
  let s' := toggleShuffle random s in
  currentSong s' = Some cur /\
  isShuffle s' = negb (isShuffle s) /\
  0 <= currentIndexRef s' < Z.of_nat (length (getCurrentPlaylist s')) /\
  exists t, getCurrentPlaylist s' !! Z.to_nat (currentIndexRef s') = Some t /\
            id t = id cur.
Proof.
  intros Hr Hcur. cbv zeta. apply reachable_coherent in Hr.
  pose proof (indexed_toggleShuffle random s Hr) as Hidx.
  pose proof (coherent_toggleShuffle random s Hr) as Hcoh.
  pose proof (active_length _ Hcoh) as Hlen.
  destruct Hcoh as (_ & _ & Hc).
  rewrite toggleShuffle_currentSong in Hc |- *. rewrite Hcur in Hc.
  destruct Hc as [Hrange _].
  split; [done |]. split.
  - unfold toggleShuffle. destruct (isShuffle s); simpl; by rewrite Hcur.
  - split; [by rewrite Hlen |].
    destruct Hidx as (t & cur' & Ht & Hcur' & Hsame); [lia |].
    exists t. split; [done |].
    rewrite toggleShuffle_currentSong, Hcur in Hcur'. by injection Hcur' as <-.
Qed.

(** In the state where index 0 held B while A was current, switching
    shuffle off puts the index on A. *)
Lemma toggleShuffle_restores_index_witness :
  let s' := toggleShuffle Samples.always_first MoreSamples.off_track in
  0 <= currentIndexRef s' /\
  exists t, getCurrentPlaylist s' !! Z.to_nat (currentIndexRef s') = Some t /\
            id t = 1.
Proof.
  cbv zeta.
  destruct (toggleShuffle_restores_index Samples.always_first
              MoreSamples.off_track Samples.songA)
    as (_ & _ & [Hlow _] & t & Ht & Hid).
  - by exists Samples.shuffled_then_uploaded.
  - reflexivity.
  - split; [exact Hlow |]. by exists t.
Defined.

(** *** Next and Previous from any state *)

Lemma playNext_step s :
  songs s <> [] ->
  -1 <= currentIndexRef s < Z.of_nat (length (getCurrentPlaylist s)) ->
  0 < Z.of_nat (length (getCurrentPlaylist s)) ->
  playNext s =
    let next := (currentIndexRef s + 1)
                  mod Z.of_nat (length (getCurrentPlaylist s)) in
    setIsPlaying true
      (setCurrentSong (getCurrentPlaylist s !! Z.to_nat next)
         (set_currentIndexRef next s)).
Proof.
  intros Hsongs Hi HN.
  destruct (decide (currentIndexRef s = -1)) as [Hm | Hm].
  - unfold playNext.
    destruct (Z.of_nat (length (songs s)) =? 0) eqn:E.
    { apply Z.eqb_eq in E. destruct (songs s); [done | simpl in E; lia]. }
    rewrite Hm. simpl. rewrite Z.mod_0_l by lia.
    change (-1 + 1) with 0.
    assert (Hwrap : (0 >=? Z.of_nat (length (getCurrentPlaylist s))) = false).
    { rewrite Z.geb_leb. apply Z.leb_gt. lia. }
    rewrite Hwrap. simpl. rewrite Hwrap. reflexivity.
  - apply playNext_move; [done | lia].
Qed.

Lemma reachable_transport_facts s :
  reachable s -> songs s <> [] ->
  -1 <= currentIndexRef s < Z.of_nat (length (getCurrentPlaylist s)) /\
  0 < Z.of_nat (length (getCurrentPlaylist s)).
Proof.
  intros Hr Hsongs. apply reachable_coherent in Hr.
  pose proof (active_length s Hr) as Hlen.
  destruct (coherent_index_range s Hr) as [H | [H _]]; [| done].
  split; [lia |]. destruct (songs s); [done | simpl in *; lia].
Qed.

(** X24. Next and Previous always land on a track: in every reachable
    state with a non-empty list, whatever the index, -1 included,
    [playNext] sets an index within the active sequence, makes the track
    there the current one and sets [isPlaying]; from index -1 it selects
    the first track; and so does [playPrevious], selecting the last track
    from -1, when no more than 3 seconds have elapsed. *)
Theorem transport_lands_on_a_track s :
  reachable s ->
  songs s <> [] ->
  let playlist := getCurrentPlaylist s in
  let N := Z.of_nat (length playlist) in
  (0 <= currentIndexRef (playNext s) < N /\
   currentSong (playNext s) = playlist !! Z.to_nat (currentIndexRef (playNext s)) /\
   is_Some (currentSong (playNext s)) /\
   isPlaying (playNext s) = true /\
   (currentIndexRef s = -1 -> currentIndexRef (playNext s) = 0)) /\
  ((currentTime s <= 3)%Q ->
   0 <= currentIndexRef (playPrevious s) < N /\
   currentSong (playPrevious s) =
     playlist !! Z.to_nat (currentIndexRef (playPrevious s)) /\
   is_Some (currentSong (playPrevious s)) /\
   isPlaying (playPrevious s) = true /\
   (currentIndexRef s = -1 -> currentIndexRef (playPrevious s) = N - 1)).
Proof.
  intros Hr Hsongs. cbv zeta.
  destruct (reachable_transport_facts s Hr Hsongs) as [Hi HN]. split.
  - rewrite (playNext_step s Hsongs Hi HN). cbv zeta. simpl.
    pose proof (Z.mod_pos_bound (currentIndexRef s + 1)
                  (Z.of_nat (length (getCurrentPlaylist s))) HN) as Hb.
    split; [done |]. split; [done |].
    split; [apply lookup_lt_is_Some; lia |]. split; [done |].
    intros ->. simpl. apply Z.mod_0_l. lia.
  - intros Ht. apply past_three_seconds_not in Ht.
    rewrite (playPrevious_move s Hsongs Ht Hi HN). cbv zeta. simpl.
    assert (Hb : 0 <= (if currentIndexRef s <=? 0
                       then Z.of_nat (length (getCurrentPlaylist s)) - 1
                       else currentIndexRef s - 1)
                 < Z.of_nat (length (getCurrentPlaylist s))).
    { destruct (currentIndexRef s <=? 0) eqn:E; [lia |].
      apply Z.leb_gt in E. lia. }
    split; [done |]. split; [done |].
    split; [apply lookup_lt_is_Some; lia |]. split; [done |].
    by intros ->.
Qed.

(** With the library loaded and nothing selected, Next selects A and
    Previous selects C. *)
Lemma transport_lands_on_a_track_witness :
  currentSong (playNext Samples.loaded) = Some Samples.songA /\
  currentSong (playPrevious Samples.loaded) = Some Samples.songC.
Proof.
  destruct (transport_lands_on_a_track Samples.loaded) as [Hnext Hprev].
  - by eexists.
  - vm_compute. discriminate.
  - destruct Hnext as (_ & Hn & _). destruct Hprev as (_ & Hp & _).
    + vm_compute. discriminate.
    + split; [rewrite Hn | rewrite Hp]; reflexivity.
Defined.

Lemma playNext_facts s :
  songs s <> [] ->
  -1 <= currentIndexRef s < Z.of_nat (length (getCurrentPlaylist s)) ->
  0 < Z.of_nat (length (getCurrentPlaylist s)) ->
  let next := (currentIndexRef s + 1)
                mod Z.of_nat (length (getCurrentPlaylist s)) in
  songs (playNext s) = songs s /\
  currentTime (playNext s) = currentTime s /\
  getCurrentPlaylist (playNext s) = getCurrentPlaylist s /\
  currentIndexRef (playNext s) = next /\
  currentSong (playNext s) = getCurrentPlaylist s !! Z.to_nat next.
Proof.
  intros Hsongs Hi HN. rewrite (playNext_step s Hsongs Hi HN). done.
Qed.

Lemma playPrevious_facts s :
  songs s <> [] -> past_three_seconds (currentTime s) = false ->
  -1 <= currentIndexRef s < Z.of_nat (length (getCurrentPlaylist s)) ->
  0 < Z.of_nat (length (getCurrentPlaylist s)) ->
  let prev := if currentIndexRef s <=? 0
              then Z.of_nat (length (getCurrentPlaylist s)) - 1
              else currentIndexRef s - 1 in
  songs (playPrevious s) = songs s /\
  currentTime (playPrevious s) = currentTime s /\
  getCurrentPlaylist (playPrevious s) = getCurrentPlaylist s /\
  currentIndexRef (playPrevious s) = prev /\
  currentSong (playPrevious s) = getCurrentPlaylist s !! Z.to_nat prev.
Proof.
  intros Hsongs Ht Hi HN. rewrite (playPrevious_move s Hsongs Ht Hi HN). done.
Qed.

(** X25. Previous undoes Next and Next undoes Previous: in every
    reachable state with the index within the active sequence and no
    more than 3 seconds elapsed, [playNext] followed by [playPrevious],
    and [playPrevious] followed by [playNext], end at the index they
    started from, with the track at that index as the current track. *)
Theorem previous_undoes_next s :
  reachable s ->
  let playlist := getCurrentPlaylist s in
  let i := currentIndexRef s in
  0 <= i < Z.of_nat (length playlist) ->
  (currentTime s <= 3)%Q ->
  currentIndexRef (playPrevious (playNext s)) = i /\
  currentSong (playPrevious (playNext s)) = playlist !! Z.to_nat i /\
  currentIndexRef (playNext (playPrevious s)) = i /\
  currentSong (playNext (playPrevious s)) = playlist !! Z.to_nat i.
Proof.
  intros Hr. cbv zeta. intros Hi Ht.
  assert (Hne : getCurrentPlaylist s <> []).
  { destruct (getCurrentPlaylist s); [simpl in Hi; lia | done]. }
  pose proof (coherent_nonempty s (reachable_coherent s Hr) Hne) as Hsongs.
  apply past_three_seconds_not in Ht.
  assert (HN : 0 < Z.of_nat (length (getCurrentPlaylist s))) by lia.
  assert (Hi' : -1 <= currentIndexRef s
                < Z.of_nat (length (getCurrentPlaylist s))) by lia.
  destruct (playNext_facts s Hsongs Hi' HN) as (Hs1 & Ht1 & Hp1 & Hi1 & _).
  destruct (playPrevious_facts s Hsongs Ht Hi' HN) as (Hs2 & Ht2 & Hp2 & Hi2 & _).
  cbv zeta in Hi1, Hi2.
  pose proof (Z.mod_pos_bound (currentIndexRef s + 1) _ HN) as Hb.
  assert (Hback1 : (if currentIndexRef (playNext s) <=? 0
                    then Z.of_nat (length (getCurrentPlaylist s)) - 1
                    else currentIndexRef (playNext s) - 1) = currentIndexRef s).
  { rewrite Hi1.
    destruct (decide (currentIndexRef s + 1
                      = Z.of_nat (length (getCurrentPlaylist s)))) as [Heq|Hneq].
    - rewrite Heq, Z_mod_same_full. simpl. lia.
    - rewrite Z.mod_small by lia.
      destruct (currentIndexRef s + 1 <=? 0) eqn:E; [| lia].
      apply Z.leb_le in E. lia. }
  assert (Hback2 : (currentIndexRef (playPrevious s) + 1)
                     mod Z.of_nat (length (getCurrentPlaylist s))
                   = currentIndexRef s).
  { rewrite Hi2. destruct (currentIndexRef s <=? 0) eqn:E.
    - apply Z.leb_le in E.
      replace (Z.of_nat (length (getCurrentPlaylist s)) - 1 + 1)
        with (Z.of_nat (length (getCurrentPlaylist s))) by lia.
      rewrite Z_mod_same_full. lia.
    - apply Z.leb_gt in E.
      replace (currentIndexRef s - 1 + 1) with (currentIndexRef s) by lia.
      apply Z.mod_small. lia. }
  destruct (playPrevious_facts (playNext s)) as (_ & _ & _ & Hi3 & Hc3).
  { by rewrite Hs1. } { by rewrite Ht1. } { rewrite Hp1, Hi1. lia. }
  { by rewrite Hp1. }
  destruct (playNext_facts (playPrevious s)) as (_ & _ & _ & Hi4 & Hc4).
  { by rewrite Hs2. }
  { rewrite Hp2, Hi2. destruct (currentIndexRef s <=? 0) eqn:E; [lia |].
    apply Z.leb_gt in E. lia. }
  { by rewrite Hp2. }
  cbv zeta in Hi3, Hc3, Hi4, Hc4. rewrite Hp1 in Hi3, Hc3.
  rewrite Hp2 in Hi4, Hc4. rewrite Hback1 in Hi3, Hc3.
  rewrite Hback2 in Hi4, Hc4. done.
Qed.

(** From track A of the sample library: Next then Previous is back on
    A. *)
Lemma previous_undoes_next_witness :
  currentSong (playPrevious (playNext Samples.playingA)) = Some Samples.songA.
Proof.
  destruct (previous_undoes_next Samples.playingA) as (_ & Hcur & _).
  - by eexists.
  - vm_compute. split; [discriminate | reflexivity].
  - vm_compute. discriminate.
  - rewrite Hcur. reflexivity.
Defined.

(** *** Seeking, play and pause *)

(** X26. The displayed time follows a seek the player may refuse:
    [setSeekPosition] calls [seek] on the player and sets the hook's
    [currentTime] to the position, whatever the player does with it; it
    touches neither index nor track; and on an element whose duration is
    unknown, or shorter than the position, the call leaves the element's
    position where it was. *)
Theorem seek_position_is_mirrored position s :
  currentTime (setSeekPosition position s) = position /\
  audioCalls (setSeekPosition position s) =
    audioCalls s ++ [AudioPlayer.Seek position] /\
  currentIndexRef (setSeekPosition position s) = currentIndexRef s /\
  currentSong (setSeekPosition position s) = currentSong s /\
  (forall a,
     AudioPlayer.duration a = None \/
     (exists d, AudioPlayer.duration a = Some d /\ (d < position)%Q) ->
     AudioPlayer.perform (AudioPlayer.Seek position) a = a).
Proof.
  repeat split. intros a [Hnone | (d & Hd & Hlt)]; simpl.
  - unfold AudioPlayer.seek. by rewrite Hnone.
  - unfold AudioPlayer.seek. rewrite Hd.
    destruct (Qle_bool position d) eqn:E.
    + apply Qle_bool_iff in E. by apply Qlt_not_le in Hlt.
    + by rewrite andb_false_r.
Qed.

(** X27. Play and pause: with a current track, [togglePlay] flips
    [isPlaying] and calls [pause] or [play] on the player, and two calls
    leave [isPlaying], the index and the track as they were; with no
    current track it does nothing on an empty list, and on a list with
    tracks it selects index 0 of the active sequence and starts playing
    without a call on the player. *)
Theorem togglePlay_spec s :
  (forall cur, currentSong s = Some cur ->
     isPlaying (togglePlay s) = negb (isPlaying s) /\
     audioCalls (togglePlay s) =
       audioCalls s ++ [if isPlaying s then AudioPlayer.Pause
                        else AudioPlayer.Play] /\
     isPlaying (togglePlay (togglePlay s)) = isPlaying s /\
     currentIndexRef (togglePlay (togglePlay s)) = currentIndexRef s /\
     currentSong (togglePlay (togglePlay s)) = Some cur /\
     length (audioCalls (togglePlay (togglePlay s))) =
       (2 + length (audioCalls s))%nat) /\
  (currentSong s = None -> songs s = [] -> togglePlay s = s) /\
  (currentSong s = None -> songs s <> [] ->
     currentIndexRef (togglePlay s) = 0 /\
     currentSong (togglePlay s) = getCurrentPlaylist s !! 0%nat /\
     isPlaying (togglePlay s) = true /\
     audioCalls (togglePlay s) = audioCalls s).
Proof.
  split; [| split].
  - intros cur Hcur.
    assert (H1 : togglePlay s =
                 if isPlaying s
                 then setIsPlaying false (audio AudioPlayer.Pause s)
                 else setIsPlaying true (audio AudioPlayer.Play s)).
    { unfold togglePlay. by rewrite Hcur. }
    rewrite H1. destruct (isPlaying s) eqn:Ep.
    + unfold togglePlay. simpl. rewrite Hcur. simpl.
      rewrite !length_app. simpl. repeat split; try done. lia.
    + unfold togglePlay. simpl. rewrite Hcur. simpl.
      rewrite !length_app. simpl. repeat split; try done. lia.
  - intros Hcur Hnil. unfold togglePlay. by rewrite Hcur, Hnil.
  - intros Hcur Hne. unfold togglePlay. rewrite Hcur.
    destruct (songs s) as [|t l]; [done |]. simpl. done.
Qed.

(** *** Choosing a track and receiving a list *)

Lemma findIndex_none k l :
  findIndex k l = -1 <-> forall t, t ∈ l -> id t <> k.
Proof.
  split.
  - intros H t Hin Hid. by apply (findIndex_elem k l t Hin Hid).
  - intros H. unfold findIndex.
    destruct (list_find _ l) as [[i x]|] eqn:E; [| done].
    apply list_find_Some in E as (Hi & Hx & _).
    exfalso. apply (H x); [| done]. by apply list_elem_of_lookup_2 in Hi.
Qed.

(** X28. [playSong]: a song whose id is not in the active sequence is
    ignored, the state is returned as it is; a song whose id is there
    becomes the current track as it was passed, also when the track of
    the list with that id has other fields, the index goes to the first
    place of that id in the active sequence (it is not negative and
    below the length, the track there has the id, and no track before
    it has), and [isPlaying] is set. *)
Theorem playSong_spec song s :
  ((forall t, t ∈ getCurrentPlaylist s -> id t <> id song) ->
     playSong song s = s) /\
  ((exists t, t ∈ getCurrentPlaylist s /\ id t = id song) ->
     currentSong (playSong song s) = Some song /\
     isPlaying (playSong song s) = true /\
     getCurrentPlaylist (playSong song s) = getCurrentPlaylist s /\
     0 <= currentIndexRef (playSong song s)
       < Z.of_nat (length (getCurrentPlaylist s)) /\
     (exists t, getCurrentPlaylist s !! Z.to_nat (currentIndexRef (playSong song s))
                  = Some t /\ id t = id song) /\
     (forall (j : nat) t, getCurrentPlaylist s !! j = Some t ->
        Z.of_nat j < currentIndexRef (playSong song s) -> id t <> id song)).
Proof.
  split.
  - intros H. apply findIndex_none in H. unfold playSong. by rewrite H.
  - intros (t & Hin & Hid).
    pose proof (findIndex_elem _ _ t Hin Hid) as Hne.
    unfold playSong. destruct (findIndex (id song) (getCurrentPlaylist s) =? -1)
      eqn:E; [by apply Z.eqb_eq in E |]. simpl.
    split; [done |]. split; [done |]. split; [done |].
    unfold findIndex in *.
    destruct (list_find _ (getCurrentPlaylist s)) as [[i x]|] eqn:Ef; [| done].
    apply list_find_Some in Ef as (Hi & Hx & Hfirst).
    split; [pose proof (lookup_lt_Some _ _ _ Hi); lia |].
    split; [exists x; by rewrite Nat2Z.id |].
    intros j t' Hj Hlt. apply (Hfirst j t' Hj). lia.
Qed.

(** The library list shows song A under a new title while shuffle is
    off: clicking it makes the clicked record the current track. *)
Lemma playSong_spec_witness :
  currentSong (playSong MoreSamples.songA_renamed Samples.loaded) =
    Some MoreSamples.songA_renamed /\
  0 <= currentIndexRef (playSong MoreSamples.songA_renamed Samples.loaded) /\
  getCurrentPlaylist Samples.loaded !! 0%nat = Some Samples.songA.
Proof.
  destruct (playSong_spec MoreSamples.songA_renamed Samples.loaded)
    as [_ Hfound].
  destruct Hfound as (Hcur & _ & _ & [Hlow _] & _).
  - exists Samples.songA. split; [apply list_elem_of_here | reflexivity].
  - split; [exact Hcur |]. split; [exact Hlow | reflexivity].
Defined.

(** X29. A new list never starts playback: after the effect on [songs]
    the playlist ref is the new list and the shuffled playlist one of
    its permutations; [isPlaying] is set only if it was set; with no
    current track none is selected; a current track whose id is in the
    new list stays as it is, with [isPlaying] and no call on the player,
    also when the list now has another record under that id; and a
    current track whose id is gone is replaced by the first track of the
    new list, or by none when the list is empty, with [isPlaying] cleared
    and [stop] called on the player. *)
Theorem songsChanged_spec random new s :
  let s' := songsChanged random new s in
  songs s' = new /\ playlistRef s' = new /\ shuffledPlaylistRef s' ≡ₚ new /\
  (isPlaying s' = true -> isPlaying s = true) /\
  (currentSong s = None ->
     currentSong s' = None /\ currentIndexRef s' = currentIndexRef s /\
     audioCalls s' = audioCalls s) /\
  (forall cur, currentSong s = Some cur ->
     (exists t, t ∈ new /\ id t = id cur) ->
     currentSong s' = Some cur /\ isPlaying s' = isPlaying s /\
     audioCalls s' = audioCalls s /\
     exists t, new !! Z.to_nat (currentIndexRef s') = Some t /\ id t = id cur) /\
  (forall cur, currentSong s = Some cur ->
     (forall t, t ∈ new -> id t <> id cur) ->
     currentSong s' = new !! 0%nat /\ isPlaying s' = false /\
     audioCalls s' = audioCalls s ++ [AudioPlayer.Stop] /\
     currentIndexRef s' = (if decide (new = []) then -1 else 0)).
Proof.
  cbv zeta. unfold songsChanged. simpl.
  destruct (currentSong s) as [cur|] eqn:Ecur.
  - destruct (findIndex (id cur) new =? -1) eqn:E; simpl.
    + apply Z.eqb_eq in E.
      assert (Hgone : forall t, t ∈ new -> id t <> id cur)
        by (by apply findIndex_none).
      destruct new as [|hd new']; simpl.
      * split; [done |]. split; [done |].
        split; [first [apply fisher_yates_Permutation | done] |]. split; [done |].
        split; [done |]. split.
        -- intros c _ (t & Hin & _). by apply not_elem_of_nil in Hin.
        -- intros c _ _. done.
      * split; [done |]. split; [done |].
        split; [first [apply fisher_yates_Permutation | done] |]. split; [done |].
        split; [done |]. split.
        -- intros c [= <-] (t & Hin & Hid). exfalso. by apply (Hgone t).
        -- intros c _ _. done.
    + apply Z.eqb_neq in E.
      destruct (findIndex_found _ _ E) as (_ & t & Ht & Hid).
      split; [done |]. split; [done |].
      split; [first [apply fisher_yates_Permutation | done] |]. split; [done |].
      split; [done |]. split.
      * intros c [= <-] _. split; [done |]. split; [done |].
        split; [done |]. by exists t.
      * intros c [= <-] Hgone. exfalso. apply (Hgone t); [| done].
        by apply list_elem_of_lookup_2 in Ht.
  - simpl. rewrite Ecur. split; [done |]. split; [done |].
    split; [first [apply fisher_yates_Permutation | done] |]. split; [done |].
    split; [done |]. split; intros c Hc; done.
Qed.

(** *** One end of track, one transition *)

Lemma handleSongEnd_stamp now s :
  debounced now s = false -> lastEndedRef (handleSongEnd now s) = Some now.
Proof.
  intros Hd. unfold handleSongEnd. rewrite Hd. simpl.
  destruct (repeatMode s); by rewrite ?playNext_lastEndedRef.
Qed.

Lemma handleSongEnd_skips now last s :
  lastEndedRef s = Some last -> last <> 0 -> now - last < 1000 ->
  handleSongEnd now s = s.
Proof.
  intros Hl Hne Hlt. unfold handleSongEnd.
  assert (debounced now s = true) as ->; [| done].
  apply debounced_spec. by exists last.
Qed.

(** X30. One end of track makes one transition: when a time update
    arrives within half a second of the duration the hook knows, and is
    not itself debounced, the hook handles the end of the track there
    and then; the end signal the player synthesizes and the native one,
    arriving within the second, change nothing more. A track lasting no
    more than half a second is ended by every time update. *)
Theorem end_signals_collapse s now time synthesized native :
  near_end (duration s) time = true ->
  debounced now s = false ->
  now <> 0 ->
  synthesized - now < 1000 ->
  native - now < 1000 ->
  let s1 := handleTimeUpdate now time s in
  s1 = handleSongEnd now (setCurrentTime time s) /\
  lastEndedRef s1 = Some now /\
  handleSongEnd synthesized s1 = s1 /\
  handleSongEnd native (handleSongEnd synthesized s1) = s1 /\
  (forall s' t, (0 < duration s')%Q -> (duration s' <= 1 # 2)%Q -> (0 <= t)%Q ->
     near_end (duration s') t = true).
Proof.
  intros Hnear Hd Hne Hs Hn. cbv zeta.
  assert (H1 : handleTimeUpdate now time s =
               handleSongEnd now (setCurrentTime time s)).
  { unfold handleTimeUpdate. by rewrite Hnear. }
  assert (H2 : lastEndedRef (handleTimeUpdate now time s) = Some now).
  { rewrite H1. by apply handleSongEnd_stamp. }
  assert (H3 : handleSongEnd synthesized (handleTimeUpdate now time s) =
               handleTimeUpdate now time s).
  { by apply (handleSongEnd_skips synthesized now). }
  split; [done |]. split; [done |]. split; [done |]. split.
  - rewrite H3. by apply (handleSongEnd_skips native now).
  - intros s' t Hpos Hshort Ht. unfold near_end.
    apply andb_true_iff. split.
    + apply negb_true_iff. destruct (Qle_bool (duration s') 0) eqn:E; [| done].
      apply Qle_bool_iff in E. by apply Qlt_not_le in Hpos.
    + apply Qle_bool_iff. apply Qle_trans with 0%Q; [| done].
      apply Qle_minus_iff. ring_simplify.
      apply Qle_minus_iff in Hshort. by ring_simplify in Hshort.
Qed.

(** Track A, 180 s long, reports 179.6 s at time 5000; the synthesized
    and the native end signals follow 20 and 40 ms later: the hook is on
    track B, once. *)
Lemma end_signals_collapse_witness :
  let s1 := handleTimeUpdate 5000 (1796 # 10) MoreSamples.playingA_180 in
  currentSong s1 = Some Samples.songB /\
  handleSongEnd 5040 (handleSongEnd 5020 s1) = s1.
Proof.
  cbv zeta. split; [reflexivity |].
  assert (Hnow : 5000 <> 0) by discriminate.
  destruct (end_signals_collapse MoreSamples.playingA_180 5000 (1796 # 10)
              5020 5040 eq_refl eq_refl Hnow eq_refl eq_refl)
    as (_ & _ & _ & Hboth & _).
  exact Hboth.
Defined.

End MorePlayerProperties.
